(** * Voxelize HTML post-processing pipeline (utils/html.ts)

    A shallow embedding of the four string transforms
    [extractHtmlFromText], [hideBodyText], [zoomCamera] and
    [injectGameMode], together with the fragment of the ECMAScript
    runtime they call: strings as sequences of UTF-16 code units,
    [String.prototype.trim], [toLowerCase], [includes], [match],
    [replace], a backtracking regular-expression matcher, [parseFloat],
    Number multiplication and Number-to-string conversion on IEEE
    binary64.  The two places of App.tsx that compose the transforms and
    the sound service of utils/sounds.ts follow. *)

From Stdlib Require Import String Ascii.
From Stdlib Require Import List NArith ZArith Bool Lia.
From Stdlib Require Import Floats.SpecFloat.
Import ListNotations.
Local Open Scope list_scope.

(** * The ECMAScript runtime *)

Module ES.

(** ** ECMAScript strings *)

(** A string value is a finite sequence of 16-bit code units. *)
Definition char := N.
Definition str := list char.

(** Source literals are ASCII; each byte is its own code unit. *)
Definition lit (s : string) : str := map N_of_ascii (list_ascii_of_string s).

Definition dquote : str := [34%N].
Definition newline : str := [10%N].

(** A source line holding double quotes is written as its pieces between
    the quotes. *)
Fixpoint join_dq (pieces : list string) : str :=
  match pieces with
  | [] => []
  | [p] => lit p
  | p :: rest => lit p ++ dquote ++ join_dq rest
  end.

Definition unlines (ls : list (list string)) : str :=
  concat (map (fun l => join_dq l ++ newline) ls).

(** WhiteSpace and LineTerminator code points (ECMA-262 12.2, 12.3):
    the set stripped by [trim] and matched by the pattern class [\s]. *)
Definition isWhiteSpace (c : char) : bool :=
  ((9 <=? c) && (c <=? 13) || (c =? 32) || (c =? 160) || (c =? 5760)
   || (8192 <=? c) && (c <=? 8202) || (c =? 8232) || (c =? 8233)
   || (c =? 8239) || (c =? 8287) || (c =? 12288) || (c =? 65279))%N.

Definition isDigit (c : char) : bool := ((48 <=? c) && (c <=? 57))%N.

Fixpoint trimStart (s : str) : str :=
  match s with
  | c :: t => if isWhiteSpace c then trimStart t else s
  | [] => []
  end.

Definition trimEnd (s : str) : str := rev (trimStart (rev s)).

Definition trim (s : str) : str := trimEnd (trimStart s).

(** [toLowerCase].  ASCII capitals map to their small letters.  Two
    code points outside ASCII have a lower-case mapping that produces
    ASCII letters: U+0130 (to [i] followed by U+0307) and U+212A (to
    [k]).  Every other code unit above 127 lowers to code units above
    127; since the program only searches the lowered string for ASCII
    needles, those are kept as they are. *)
Definition lowerUnit (c : char) : str :=
  if ((65 <=? c) && (c <=? 90))%N then [(c + 32)%N]
  else if (c =? 304)%N then [105%N; 775%N]
  else if (c =? 8490)%N then [107%N]
  else [c].

Definition toLowerCase (s : str) : str := flat_map lowerUnit s.

Fixpoint startsWith (needle s : str) : bool :=
  match needle, s with
  | [], _ => true
  | n :: nt, c :: t => (n =? c)%N && startsWith nt t
  | _ :: _, [] => false
  end.

Fixpoint includes (s needle : str) : bool :=
  startsWith needle s ||
  match s with
  | [] => false
  | _ :: t => includes t needle
  end.

(** ** Regular expressions *)

(** Character sets of the patterns in this program: a pattern character,
    the classes [\s], [\S], [\d], and a bracket union such as [[\s\S]]. *)
Inductive charset : Type :=
| CChar (c : char)
| CSpace
| CNotSpace
| CDigit
| CUnion (a b : charset).

(** The patterns use [*] and [*?] on one-character atoms only, so the
    quantifiers are over a [charset]; [\d+] is [\d] followed by [\d*]. *)
Inductive regex : Type :=
| Empty
| Atom (cs : charset)
| Seq (a b : regex)
| Alt (a b : regex)
| Star (greedy : bool) (cs : charset)
| Opt (a : regex)
| Group (n : nat) (a : regex)
| NegLook (a : regex).

(** Canonicalize (ECMA-262 22.2.5.6) without the [u] flag: a code unit
    is replaced by its upper-case image unless that image is longer than
    one code unit or would turn a code unit above 127 into ASCII.  All
    pattern characters here are ASCII, and no code unit above 127
    canonicalizes to ASCII, so only the ASCII letters are mapped. *)
Definition canonicalize (ignoreCase : bool) (c : char) : char :=
  if ignoreCase && (97 <=? c)%N && (c <=? 122)%N then (c - 32)%N else c.

Fixpoint mem (ignoreCase : bool) (cs : charset) (ch : char) : bool :=
  match cs with
  | CChar c => (canonicalize ignoreCase c =? canonicalize ignoreCase ch)%N
  | CSpace => isWhiteSpace ch
  | CNotSpace => negb (isWhiteSpace ch)
  | CDigit => isDigit ch
  | CUnion a b => mem ignoreCase a ch || mem ignoreCase b ch
  end.

(** Captures: group number and captured substring, latest first. *)
Definition caps := list (nat * str).

Fixpoint capture (n : nat) (c : caps) : option str :=
  match c with
  | [] => None
  | (k, v) :: t => if Nat.eqb k n then Some v else capture n t
  end.

(** The input consumed between a suffix [s] and a later suffix [s']. *)
Definition consumed (s s' : str) : str := firstn (length s - length s') s.

Definition cont := str -> caps -> option (str * caps).

Fixpoint star_greedy (p : char -> bool) (s : str) (c : caps) (k : cont)
  : option (str * caps) :=
  match s with
  | ch :: t =>
      if p ch then
        match star_greedy p t c k with
        | Some r => Some r
        | None => k s c
        end
      else k s c
  | [] => k s c
  end.

Fixpoint star_lazy (p : char -> bool) (s : str) (c : caps) (k : cont)
  : option (str * caps) :=
  match k s c with
  | Some r => Some r
  | None =>
      match s with
      | ch :: t => if p ch then star_lazy p t c k else None
      | [] => None
      end
  end.

(** The backtracking matcher, in continuation-passing style as in
    ECMA-262 22.2.2: [matcher i r s c k] matches [r] at the head of the
    remaining input [s] and calls [k] on what is left; a failing
    continuation makes the matcher try its next alternative. *)
Fixpoint matcher (i : bool) (r : regex) (s : str) (c : caps) (k : cont)
  : option (str * caps) :=
  match r with
  | Empty => k s c
  | Atom cs =>
      match s with
      | ch :: t => if mem i cs ch then k t c else None
      | [] => None
      end
  | Seq a b => matcher i a s c (fun s' c' => matcher i b s' c' k)
  | Alt a b =>
      match matcher i a s c k with
      | Some r => Some r
      | None => matcher i b s c k
      end
  | Star g cs =>
      if g then star_greedy (mem i cs) s c k else star_lazy (mem i cs) s c k
  | Opt a =>
      match matcher i a s c k with
      | Some r => Some r
      | None => k s c
      end
  | Group n a => matcher i a s c (fun s' c' => k s' ((n, consumed s s') :: c'))
  | NegLook a =>
      match matcher i a s c (fun s' c' => Some (s', c')) with
      | Some _ => None
      | None => k s c
      end
  end.

Definition accept : cont := fun s c => Some (s, c).

(** A compiled pattern: the [i] flag, the number of capture groups and
    the body. *)
Record RegExp : Type := mkRegExp {
  ignoreCase : bool;
  nGroups : nat;
  body : regex
}.

(** A successful match: the text before it, the matched text [[0]], the
    captures and the text after it. *)
Record MatchResult : Type := mkMatch {
  before : str;
  matched : str;
  groups : caps;
  after : str
}.

Definition matchAt (re : RegExp) (s : str) : option (str * caps) :=
  matcher (ignoreCase re) (body re) s [] accept.

(** RegExpBuiltinExec from index 0 without the sticky flag: the first
    start position, left to right, at which the matcher succeeds. *)
Fixpoint exec (re : RegExp) (s : str) : option MatchResult :=
  match matchAt re s with
  | Some (s', c) => Some (mkMatch [] (consumed s s') c s')
  | None =>
      match s with
      | [] => None
      | ch :: t =>
          match exec re t with
          | Some r => Some (mkMatch (ch :: before r) (matched r) (groups r) (after r))
          | None => None
          end
      end
  end.

(** [String.prototype.match] with a pattern that has no [g] flag. *)
Definition String_match (s : str) (re : RegExp) : option MatchResult := exec re s.

(** GetSubstitution (ECMA-262 22.1.3.19.1) for a pattern without named
    groups: [$$], [$&], [$`], [$'] and [$n] / [$nn]. *)
Definition digitVal (c : char) : nat := N.to_nat (c - 48).

Definition groupRef (r : MatchResult) (nGroups idx : nat) (ref : str) : str :=
  if Nat.leb 1 idx && Nat.leb idx nGroups then
    match capture idx (groups r) with
    | Some v => v
    | None => []
    end
  else 36%N :: ref.

Fixpoint getSubstitution (r : MatchResult) (nGroups : nat) (template : str) : str :=
  match template with
  | [] => []
  | ch :: rest =>
      if (ch =? 36)%N then
        match rest with
        | [] => [ch]
        | d :: rest' =>
            if (d =? 36)%N then 36%N :: getSubstitution r nGroups rest'
            else if (d =? 38)%N then matched r ++ getSubstitution r nGroups rest'
            else if (d =? 96)%N then before r ++ getSubstitution r nGroups rest'
            else if (d =? 39)%N then after r ++ getSubstitution r nGroups rest'
            else if isDigit d then
              match rest' with
              | d2 :: rest'' =>
                  if isDigit d2 && Nat.leb (10 * digitVal d + digitVal d2) nGroups
                  then groupRef r nGroups (10 * digitVal d + digitVal d2) [d; d2]
                         ++ getSubstitution r nGroups rest''
                  else groupRef r nGroups (digitVal d) [d]
                         ++ getSubstitution r nGroups rest'
              | [] => groupRef r nGroups (digitVal d) [d]
              end
            else ch :: getSubstitution r nGroups rest
        end
      else ch :: getSubstitution r nGroups rest
  end.

(** [String.prototype.replace] with a pattern that has no [g] flag and a
    replacement string: the first match is replaced, if there is one. *)
Definition replace_first (s : str) (re : RegExp) (replacement : str) : str :=
  match exec re s with
  | None => s
  | Some r => before r ++ getSubstitution r (nGroups re) replacement ++ after r
  end.

(** [String.prototype.replace] with a [g] pattern and a replacer
    function: every match, found from left to right, each search
    resuming where the previous match ended (one code unit further after
    an empty match).  [fuel] bounds the number of matches. *)
Fixpoint replace_loop (fuel : nat) (re : RegExp) (f : MatchResult -> str) (s : str) : str :=
  match fuel with
  | O => s
  | S n =>
      match exec re s with
      | None => s
      | Some r =>
          before r ++ f r ++
          match matched r with
          | [] =>
              match after r with
              | [] => []
              | ch :: t => ch :: replace_loop n re f t
              end
          | _ :: _ => replace_loop n re f (after r)
          end
      end
  end.

Definition replace_all (s : str) (re : RegExp) (f : MatchResult -> str) : str :=
  replace_loop (S (length s)) re f s.

(** A pattern that is a literal run of characters. *)
Definition Lits (s : str) : regex :=
  fold_right (fun ch r => Seq (Atom (CChar ch)) r) Empty s.

Definition anyChar : charset := CUnion CSpace CNotSpace.

(** ** Numbers: IEEE 754 binary64 *)

(** A Number is a binary64 value in the representation of the library's
    [SpecFloat]: zero, infinity, NaN, or sign, 53-bit mantissa and
    exponent as produced by [round_rat] and [Number_mul]. *)
Definition number := spec_float.

Definition NaN : number := S754_nan.

(** The Number value for a non-negative rational [num / den]: round to
    nearest, ties to even, with overflow to infinity. *)
Definition round_rat (neg : bool) (num den : Z) : number :=
  match num with
  | Z0 => S754_zero neg
  | _ =>
      let '(q, e, l) := SFdiv_core_binary 53 1024 num 0 den 0 in
      binary_round_aux 53 1024 neg q e l
  end.

(** The Number value for [n * 10 ^ e], [n] non-negative. *)
Definition round_dec (neg : bool) (n e : Z) : number :=
  if (0 <=? e)%Z then round_rat neg (n * 10 ^ e) 1
  else round_rat neg n (10 ^ (- e)).

Definition Number_mul (x y : number) : number := SFmul 53 1024 x y.

Fixpoint takeDigits (s : str) : str * str :=
  match s with
  | c :: t =>
      if isDigit c then let '(d, r) := takeDigits t in (c :: d, r) else ([], s)
  | [] => ([], [])
  end.

Definition digitsValue (d : str) : Z :=
  fold_left (fun acc c => (10 * acc + Z.of_N (c - 48))%Z) d 0%Z.

(** The exponent part [e], [e+], [e-] followed by at least one digit, if
    the input continues with one; [0] otherwise. *)
Definition exponentPart (s : str) : Z :=
  match s with
  | c :: t =>
      if ((c =? 101) || (c =? 69))%N then
        match t with
        | sg :: t' =>
            if (sg =? 45)%N then
              match fst (takeDigits t') with
              | [] => 0%Z
              | d => (- digitsValue d)%Z
              end
            else if (sg =? 43)%N then digitsValue (fst (takeDigits t'))
            else digitsValue (fst (takeDigits t))
        | [] => 0%Z
        end
      else 0%Z
  | [] => 0%Z
  end.

Definition parseUnsigned (neg : bool) (s : str) : number :=
  if startsWith (lit "Infinity") s then S754_infinity neg
  else
    let '(ip, s2) := takeDigits s in
    let '(fp, s3) :=
      match s2 with
      | c :: t =>
          if (c =? 46)%N then
            let '(fp, r) := takeDigits t in
            match ip, fp with
            | [], [] => ([], s2)
            | _, _ => (fp, r)
            end
          else ([], s2)
      | [] => ([], s2)
      end in
    match ip, fp with
    | [], [] => NaN
    | _, _ =>
        round_dec neg (digitsValue (ip ++ fp))
                  (exponentPart s3 - Z.of_nat (length fp))
    end.

(** [parseFloat] (ECMA-262 19.2.4): leading white space is skipped and
    the longest prefix that is a decimal literal is converted. *)
Definition parseFloat (s : str) : number :=
  match trimStart s with
  | c :: t =>
      if (c =? 45)%N then parseUnsigned true t
      else if (c =? 43)%N then parseUnsigned false t
      else parseUnsigned false (c :: t)
  | [] => NaN
  end.

(** The largest [t] with [10 ^ t <= p / q], for positive [p] and [q]. *)
Definition pow10_le (t p q : Z) : bool :=
  if (0 <=? t)%Z then (10 ^ t * q <=? p)%Z else (q <=? p * 10 ^ (- t))%Z.

Definition log10_floor (p q : Z) : Z :=
  let t0 := (((Z.log2 p - Z.log2 q) * 1233) / 4096)%Z in
  if pow10_le (t0 + 2) p q then (t0 + 2)%Z
  else if pow10_le (t0 + 1) p q then (t0 + 1)%Z
  else if pow10_le t0 p q then t0
  else if pow10_le (t0 - 1) p q then (t0 - 1)%Z
  else (t0 - 2)%Z.

(** Decimal digits of a non-negative integer, most significant first. *)
Fixpoint digitsOf (fuel : nat) (z : Z) (acc : str) : str :=
  match fuel with
  | O => acc
  | S n =>
      let acc' := (Z.to_N (z mod 10) + 48)%N :: acc in
      if (z <? 10)%Z then acc' else digitsOf n (z / 10) acc'
  end.

Definition decimal (z : Z) : str := digitsOf (S (Z.to_nat (Z.log2 z))) z [].

(** Number::toString step 5: the shortest digit string [s] of [k]
    digits and the exponent [n] with [s * 10 ^ (n - k)] converting back
    to [x]; of two such [s] the one nearer to [x], the even one when
    they are equally near.  [x] is [p / q]. *)
Fixpoint shortest (fuel : nat) (x : number) (p q n k : Z) : Z * Z :=
  let e := (n - k)%Z in
  let lo := if (0 <=? e)%Z then (p / (q * 10 ^ e))%Z else (p * 10 ^ (- e) / q)%Z in
  let hi := (lo + 1)%Z in
  let ok s := match x, round_dec false s e with
              | S754_finite _ m1 e1, S754_finite _ m2 e2 => Pos.eqb m1 m2 && Z.eqb e1 e2
              | _, _ => false
              end in
  let side :=
    if (0 <=? e)%Z then (2 * p ?= (lo + hi) * 10 ^ e * q)%Z
    else (2 * p * 10 ^ (- e) ?= (lo + hi) * q)%Z in
  let nearest :=
    match side with
    | Lt => lo
    | Gt => hi
    | Eq => if Z.even lo then lo else hi
    end in
  let pick s := if (s =? 10 ^ k)%Z then (1%Z, (n + 1)%Z) else (s, n) in
  match fuel with
  | O => (lo, n)
  | S f =>
      if ok lo && ok hi then pick nearest
      else if ok lo then pick lo
      else if ok hi then pick hi
      else shortest f x p q n (k + 1)
  end.

Definition zeros (n : Z) : str := repeat 48%N (Z.to_nat n).

(** Number::toString (ECMA-262 6.1.6.1.20), radix 10. *)
Definition toStringPos (x : number) (m : positive) (e : Z) : str :=
  let p := if (0 <=? e)%Z then (Zpos m * 2 ^ e)%Z else Zpos m in
  let q := if (0 <=? e)%Z then 1%Z else (2 ^ (- e))%Z in
  let n0 := (log10_floor p q + 1)%Z in
  let '(s, n) := shortest 17 x p q n0 1 in
  let ds := decimal s in
  let k := Z.of_nat (length ds) in
  if ((k <=? n) && (n <=? 21))%Z then ds ++ zeros (n - k)
  else if ((0 <? n) && (n <=? 21))%Z then
    firstn (Z.to_nat n) ds ++ lit "." ++ skipn (Z.to_nat n) ds
  else if ((-6 <? n) && (n <=? 0))%Z then lit "0." ++ zeros (- n) ++ ds
  else
    let ex := (n - 1)%Z in
    let exs := (if (0 <=? ex)%Z then lit "+" else lit "-") ++ decimal (Z.abs ex) in
    match ds with
    | [d] => d :: lit "e" ++ exs
    | d :: rest => d :: lit "." ++ rest ++ lit "e" ++ exs
    | [] => []
    end.

Definition Number_toString (x : number) : str :=
  match x with
  | S754_nan => lit "NaN"
  | S754_zero _ => lit "0"
  | S754_infinity s => (if s then lit "-" else []) ++ lit "Infinity"
  | S754_finite s m e => (if s then lit "-" else []) ++ toStringPos x m e
  end.

End ES.

Import ES.

(** * The program: utils/html.ts *)

(** Completion of a call: a returned value or a thrown TypeError. *)
Inductive completion (A : Type) : Type :=
| Return (a : A)
| Throw.

Arguments Return {A} a.
Arguments Throw {A}.

(** [/(<!DOCTYPE html>|<html)[\s\S]*?<\/html>/i] *)
Definition htmlRegex : RegExp :=
  mkRegExp true 1
    (Seq (Group 1 (Alt (Lits (lit "<!DOCTYPE html>")) (Lits (lit "<html"))))
         (Seq (Star false anyChar) (Lits (lit "</html>")))).

(** [/```(?:html)?\s*([\s\S]*?)```/] *)
Definition codeBlockRegex : RegExp :=
  mkRegExp false 1
    (Seq (Lits (lit "```"))
         (Seq (Opt (Lits (lit "html")))
              (Seq (Star true CSpace)
                   (Seq (Group 1 (Star false anyChar)) (Lits (lit "```")))))).

Definition extractHtmlFromText (text : str) : completion str :=
  match text with
  | [] => Return []
  | _ =>
      (* 1. a complete HTML document structure *)
      match String_match text htmlRegex with
      | Some htmlMatch => Return (matched htmlMatch)
      | None =>
          (* 2. content of a markdown code block *)
          match String_match text codeBlockRegex with
          | Some codeBlockMatch =>
              match capture 1 (groups codeBlockMatch) with
              | Some inner => Return (trim inner)
              | None => Throw
              end
          | None => Return (trim text)
          end
      end
  end.

(** The lines of the [cssToInject] template literal between its first
    and last line break. *)
Definition cssToInject_lines : list (list string) := [
    ["    <style>"];
    ["      #info, #loading, #ui, #instructions, .label, .overlay, #description {"];
    ["        display: none !important;"];
    ["        opacity: 0 !important;"];
    ["        pointer-events: none !important;"];
    ["        visibility: hidden !important;"];
    ["      }"];
    ["      body {"];
    ["        user-select: none !important;"];
    ["      }"];
    ["    </style>"]
  ]%string.

(** The lines of the [gameScript] template literal between its first
    and last line break; a line with double quotes is given by its
    pieces between them. *)
Definition gameScript_lines : list (list string) := [
    ["    // --- INJECTED GAME & EXPORT LOGIC ---"];
    ["    (function() {"];
    ["        async function startInjectedLogic() {"];
    ["            console.log("; "[Voxelize] Injected logic started. Waiting for Three.js variables..."; ");"];
    ["            "];
    ["            // Poll for variables that might be defined in the parent module scope"];
    ["            let THREE_obj, scene_obj, camera_obj, renderer_obj, controls_obj;"];
    ["            "];
    ["            const poll = async () => {"];
    ["                for (let i = 0; i < 100; i++) {"];
    ["                    try {"];
    ["                        THREE_obj = typeof THREE !== 'undefined' ? THREE : null;"];
    ["                        scene_obj = typeof scene !== 'undefined' ? scene : null;"];
    ["                        camera_obj = typeof camera !== 'undefined' ? camera : null;"];
    ["                        renderer_obj = typeof renderer !== 'undefined' ? renderer : null;"];
    ["                        controls_obj = typeof controls !== 'undefined' ? controls : null;"];
    ["                        "];
    ["                        if (THREE_obj && scene_obj && renderer_obj) return true;"];
    ["                    } catch(e) {}"];
    ["                    await new Promise(r => setTimeout(r, 100));"];
    ["                }"];
    ["                return false;"];
    ["            };"];
    [""];
    ["            const found = await poll();"];
    ["            if (!found) {"];
    ["                console.warn("; "[Voxelize] Could not find THREE or scene variables. Export may not work."; ");"];
    ["                return;"];
    ["            }"];
    [""];
    ["            console.log("; "[Voxelize] Three.js variables found. Ready for interactions."; ");"];
    [""];
    ["            // 1. Export Handler"];
    ["            window.addEventListener('message', async (event) => {"];
    ["                if (event.data === 'EXPORT_GLB') {"];
    ["                    console.log("; "[Voxelize] Export command received."; ");"];
    ["                    try {"];
    ["                        // Attempt to load exporter from the import map or direct unpkg link"];
    ["                        let GLTFExporter;"];
    ["                        try {"];
    ["                            const module = await import('three/addons/exporters/GLTFExporter.js');"];
    ["                            GLTFExporter = module.GLTFExporter;"];
    ["                        } catch (err) {"];
    ["                            console.log("; "[Voxelize] Import map failed, trying direct unpkg link..."; ");"];
    ["                            const module = await import('https://unpkg.com/three@0.160.0/examples/jsm/exporters/GLTFExporter.js');"];
    ["                            GLTFExporter = module.GLTFExporter;"];
    ["                        }"];
    [""];
    ["                        if (!GLTFExporter) throw new Error("; "GLTFExporter not found in loaded modules"; ");"];
    [""];
    ["                        const exporter = new GLTFExporter();"];
    ["                        exporter.parse(scene_obj, (gltf) => {"];
    ["                            const blob = gltf instanceof ArrayBuffer "];
    ["                                ? new Blob([gltf], { type: 'application/octet-stream' })"];
    ["                                : new Blob([JSON.stringify(gltf)], { type: 'application/json' });"];
    ["                            "];
    ["                            const url = URL.createObjectURL(blob);"];
    ["                            const link = document.createElement('a');"];
    ["                            link.style.display = 'none';"];
    ["                            link.href = url;"];
    ["                            link.download = 'voxel-scene-' + Date.now() + (gltf instanceof ArrayBuffer ? '.glb' : '.gltf');"];
    ["                            document.body.appendChild(link);"];
    ["                            link.click();"];
    ["                            document.body.removeChild(link);"];
    ["                            URL.revokeObjectURL(url);"];
    ["                            console.log("; "[Voxelize] Export successful."; ");"];
    ["                        }, (error) => {"];
    ["                            console.error('[Voxelize] Export error:', error);"];
    ["                        }, { binary: true, includeCustomExtensions: true });"];
    ["                    } catch (err) {"];
    ["                        console.error("; "[Voxelize] Failed to export GLB:"; ", err);"];
    ["                    }"];
    ["                }"];
    ["            });"];
    [""];
    ["            // 2. Character Setup"];
    ["            const dist = camera_obj.position.distanceTo(new THREE_obj.Vector3(0,0,0));"];
    ["            const playerHeight = Math.max(1, dist / 25); "];
    ["            const playerRadius = playerHeight * 0.3;"];
    ["            const moveSpeed = playerHeight * 15;"];
    ["            const jumpForce = playerHeight * 15;"];
    ["            const gravity = playerHeight * 40;"];
    [""];
    ["            const geometry = new THREE_obj.CylinderGeometry(playerRadius, playerRadius, playerHeight, 16);"];
    ["            const material = new THREE_obj.MeshStandardMaterial({ color: 0xff0055, roughness: 0.4 });"];
    ["            const player = new THREE_obj.Mesh(geometry, material);"];
    ["            player.position.set(0, playerHeight * 5, 0); "];
    ["            scene_obj.add(player);"];
    ["            "];
    ["            const shadowGeo = new THREE_obj.CircleGeometry(playerRadius * 1.5, 16);"];
    ["            const shadowMat = new THREE_obj.MeshBasicMaterial({ color: 0x000000, transparent: true, opacity: 0.3, depthWrite: false });"];
    ["            const shadow = new THREE_obj.Mesh(shadowGeo, shadowMat);"];
    ["            shadow.rotation.x = -Math.PI / 2;"];
    ["            scene_obj.add(shadow);"];
    [""];
    ["            const input = { f: false, b: false, l: false, r: false, space: false };"];
    ["            window.addEventListener('keydown', (e) => {"];
    ["                const key = e.code;"];
    ["                if (key === 'KeyW' || key === 'ArrowUp') input.f = true;"];
    ["                if (key === 'KeyS' || key === 'ArrowDown') input.b = true;"];
    ["                if (key === 'KeyA' || key === 'ArrowLeft') input.l = true;"];
    ["                if (key === 'KeyD' || key === 'ArrowRight') input.r = true;"];
    ["                if (key === 'Space') input.space = true;"];
    ["            });"];
    ["            window.addEventListener('keyup', (e) => {"];
    ["                const key = e.code;"];
    ["                if (key === 'KeyW' || key === 'ArrowUp') input.f = false;"];
    ["                if (key === 'KeyS' || key === 'ArrowDown') input.b = false;"];
    ["                if (key === 'KeyA' || key === 'ArrowLeft') input.l = false;"];
    ["                if (key === 'KeyD' || key === 'ArrowRight') input.r = false;"];
    ["                if (key === 'Space') input.space = false;"];
    ["            });"];
    [""];
    ["            const velocity = new THREE_obj.Vector3();"];
    ["            const raycaster = new THREE_obj.Raycaster();"];
    ["            const down = new THREE_obj.Vector3(0, -1, 0);"];
    ["            const clock = new THREE_obj.Clock();"];
    [""];
    ["            const originalRender = renderer_obj.render.bind(renderer_obj);"];
    ["            "];
    ["            renderer_obj.render = (s, c) => {"];
    ["                const dt = Math.min(clock.getDelta(), 0.1); "];
    ["                velocity.y -= gravity * dt;"];
    [""];
    ["                const camDir = new THREE_obj.Vector3();"];
    ["                camera_obj.getWorldDirection(camDir);"];
    ["                camDir.y = 0;"];
    ["                camDir.normalize();"];
    ["                "];
    ["                const camRight = new THREE_obj.Vector3();"];
    ["                camRight.crossVectors(camDir, new THREE_obj.Vector3(0, 1, 0)).normalize();"];
    [""];
    ["                const moveDir = new THREE_obj.Vector3();"];
    ["                if (input.f) moveDir.add(camDir);"];
    ["                if (input.b) moveDir.sub(camDir);"];
    ["                if (input.l) moveDir.sub(camRight);"];
    ["                if (input.r) moveDir.add(camRight);"];
    [""];
    ["                if (moveDir.lengthSq() > 0) {"];
    ["                    moveDir.normalize();"];
    ["                    player.position.add(moveDir.multiplyScalar(moveSpeed * dt));"];
    ["                }"];
    [""];
    ["                raycaster.set(player.position, down);"];
    ["                const intersects = raycaster.intersectObjects(scene_obj.children, true);"];
    ["                "];
    ["                let groundY = -Infinity;"];
    ["                for (let hit of intersects) {"];
    ["                    if (hit.object !== player && hit.object !== shadow && !hit.object.userData.ignoreRaycast) {"];
    ["                        groundY = hit.point.y;"];
    ["                        break; "];
    ["                    }"];
    ["                }"];
    [""];
    ["                const feetPos = player.position.y - playerHeight/2;"];
    ["                if (feetPos <= groundY + 0.1) {"];
    ["                    if (velocity.y <= 0) {"];
    ["                        player.position.y = groundY + playerHeight/2;"];
    ["                        velocity.y = 0;"];
    ["                        if (input.space) velocity.y = jumpForce;"];
    ["                    }"];
    ["                }"];
    ["                "];
    ["                player.position.y += velocity.y * dt;"];
    [""];
    ["                if (groundY > -100) {"];
    ["                    shadow.position.set(player.position.x, groundY + 0.05, player.position.z);"];
    ["                    shadow.visible = true;"];
    ["                } else {"];
    ["                    shadow.visible = false;"];
    ["                }"];
    [""];
    ["                if (player.position.y < -100) {"];
    ["                    player.position.set(0, playerHeight * 10, 0);"];
    ["                    velocity.set(0, 0, 0);"];
    ["                }"];
    [""];
    ["                if (controls_obj) {"];
    ["                    const targetPos = player.position.clone();"];
    ["                    controls_obj.target.lerp(targetPos, 0.1);"];
    ["                    controls_obj.update();"];
    ["                } else {"];
    ["                    camera_obj.lookAt(player.position);"];
    ["                }"];
    [""];
    ["                originalRender(s, c);"];
    ["            };"];
    ["        }"];
    ["        "];
    ["        // Use requestAnimationFrame to ensure the rest of the script has a chance to initialize variables"];
    ["        requestAnimationFrame(() => {"];
    ["            startInjectedLogic().catch(console.error);"];
    ["        });"];
    ["    })();"]
  ]%string.

Definition cssToInject : str :=
  newline ++ unlines cssToInject_lines ++ lit "  ".

(** [/<\/head>/i] and [/<\/body>/i] *)
Definition headRegex : RegExp := mkRegExp true 0 (Lits (lit "</head>")).
Definition bodyRegex : RegExp := mkRegExp true 0 (Lits (lit "</body>")).

Definition hideBodyText (html : str) : str :=
  if includes (toLowerCase html) (lit "</head>") then
    replace_first html headRegex (cssToInject ++ lit "</head>")
  else if includes (toLowerCase html) (lit "</body>") then
    replace_first html bodyRegex (cssToInject ++ lit "</body>")
  else html ++ cssToInject.

(** [-?\d*\.?\d+] *)
Definition numberPattern : regex :=
  Seq (Opt (Atom (CChar 45%N)))
      (Seq (Star true CDigit)
           (Seq (Opt (Atom (CChar 46%N)))
                (Seq (Atom CDigit) (Star true CDigit)))).

(** [/camera\.position\.set\(\s*(-?\d*\.?\d+)\s*,\s*(-?\d*\.?\d+)\s*,\s*(-?\d*\.?\d+)\s*\)/g] *)
Definition cameraRegex : RegExp :=
  mkRegExp false 3
    (Seq (Lits (lit "camera.position.set("))
    (Seq (Star true CSpace)
    (Seq (Group 1 numberPattern)
    (Seq (Star true CSpace)
    (Seq (Atom (CChar 44%N))
    (Seq (Star true CSpace)
    (Seq (Group 2 numberPattern)
    (Seq (Star true CSpace)
    (Seq (Atom (CChar 44%N))
    (Seq (Star true CSpace)
    (Seq (Group 3 numberPattern)
    (Seq (Star true CSpace)
         (Atom (CChar 41%N)))))))))))))).

(** A replacer argument for a group that did not take part in the match
    is [undefined], which [parseFloat] converts to NaN. *)
Definition parseFloatArg (x : option str) : number :=
  match x with
  | Some s => parseFloat s
  | None => NaN
  end.

Definition zoomCamera (html : str) (zoomFactor : number) : str :=
  replace_all html cameraRegex (fun r =>
    let newX := Number_mul (parseFloatArg (capture 1 (groups r))) zoomFactor in
    let newY := Number_mul (parseFloatArg (capture 2 (groups r))) zoomFactor in
    let newZ := Number_mul (parseFloatArg (capture 3 (groups r))) zoomFactor in
    lit "camera.position.set(" ++ Number_toString newX ++ lit ", "
      ++ Number_toString newY ++ lit ", " ++ Number_toString newZ ++ lit ")").

(** The default of the [zoomFactor] parameter, the literal [0.8]. *)
Definition defaultZoomFactor : number := round_dec false 8 (-1).

Definition gameScript : str :=
  newline ++ unlines gameScript_lines ++ lit "    ".

(** [/<\/script>(?![\s\S]*<\/script>)/i] *)
Definition lastScriptTag : RegExp :=
  mkRegExp true 0
    (Seq (Lits (lit "</script>"))
         (NegLook (Seq (Star true anyChar) (Lits (lit "</script>"))))).

Definition injectGameMode (html : str) : str :=
  match String_match html lastScriptTag with
  | None =>
      html ++ lit "<script type=" ++ dquote ++ lit "module" ++ dquote ++ lit ">"
           ++ gameScript ++ lit "</script>"
  | Some _ =>
      (* just before the end of the last script tag *)
      replace_first html lastScriptTag
        (newline ++ gameScript ++ newline ++ lit "</script>")
  end.

(** * Vocabulary of the specification *)

(** [needle] occurs at the head of [s], compared through
    [canonicalize i]: exactly when [i] is [false], without regard to the
    case of ASCII letters when it is [true]. *)
Fixpoint startsWithI (i : bool) (needle s : str) : bool :=
  match needle, s with
  | [], _ => true
  | n :: nt, c :: t => (canonicalize i n =? canonicalize i c)%N && startsWithI i nt t
  | _ :: _, [] => false
  end.

Fixpoint includesI (i : bool) (s needle : str) : bool :=
  startsWithI i needle s ||
  match s with
  | [] => false
  | _ :: t => includesI i t needle
  end.

(** Position of the first occurrence. *)
Fixpoint indexOfI (i : bool) (needle s : str) : option nat :=
  if startsWithI i needle s then Some 0
  else
    match s with
    | [] => None
    | _ :: t => option_map S (indexOfI i needle t)
    end.

(** Position of the last occurrence. *)
Fixpoint lastIndexOfI (i : bool) (needle s : str) : option nat :=
  match s with
  | [] => if startsWithI i needle [] then Some 0 else None
  | _ :: t =>
      match lastIndexOfI i needle t with
      | Some k => Some (S k)
      | None => if startsWithI i needle s then Some 0 else None
      end
  end.

(** Leftmost suffix of [s] on which [f] succeeds, with its position. *)
Fixpoint findFirst {A : Type} (f : str -> option A) (s : str) : option (nat * A) :=
  match f s with
  | Some a => Some (0, a)
  | None =>
      match s with
      | [] => None
      | _ :: t =>
          match findFirst f t with
          | Some (k, a) => Some (S k, a)
          | None => None
          end
      end
  end.

(** An ASCII code unit that is not a capital letter and is not produced
    by lowering a code unit outside ASCII. *)
Definition plainChar (c : char) : bool :=
  ((c <? 128) && negb ((65 <=? c) && (c <=? 90)) && negb (c =? 105) && negb (c =? 107))%N.

Definition plainNeedle (n : str) : bool :=
  match n with
  | [] => false
  | _ => forallb plainChar n
  end.

(** The first character of [n] does not occur again in [n] (compared
    through [canonicalize i]), so two occurrences of [n] never overlap. *)
Definition selfFree (i : bool) (n : str) : bool :=
  match n with
  | [] => false
  | h :: t => negb (existsb (fun x => (canonicalize i h =? canonicalize i x)%N) t)
  end.

(** The element appended when the document has no script closing tag. *)
Definition newScriptElement : str :=
  lit "<script type=" ++ dquote ++ lit "module" ++ dquote ++ lit ">"
    ++ gameScript ++ lit "</script>".


(** Length of the opening marker [<!DOCTYPE html>] or [<html] at the
    head of [s], in any letter case. *)
Definition openMarker (s : str) : option nat :=
  if startsWithI true (lit "<!DOCTYPE html>") s then Some 15
  else if startsWithI true (lit "<html") s then Some 5
  else None.

(** Length of the HTML span at the head of [s]: an opening marker and
    everything up to and including the first [</html>] after it. *)
Definition htmlSpanAt (s : str) : option nat :=
  match openMarker s with
  | Some m =>
      match indexOfI true (lit "</html>") (skipn m s) with
      | Some k => Some (m + k + 7)
      | None => None
      end
  | None => None
  end.

(** Interior of the fenced block that opens at the head of [s]: the text
    after the three backticks and an optional [html] tag, up to the next
    three backticks. *)
Definition fenceAt (s : str) : option str :=
  if startsWith (lit "```") s then
    let r := skipn 3 s in
    let r' := if startsWith (lit "html") r then skipn 4 r else r in
    match indexOfI false (lit "```") r' with
    | Some k => Some (firstn k r')
    | None => None
    end
  else None.

(** The three-tier contract of the extractor, in the words of the
    specification. *)
Definition extract_spec (text : str) : str :=
  match text with
  | [] => []
  | _ =>
      match findFirst htmlSpanAt text with
      | Some (k, len) => firstn len (skipn k text)
      | None =>
          match findFirst fenceAt text with
          | Some (_, inner) => trim inner
          | None => trim text
          end
      end
  end.

(** What the code-block pattern matches at the head of [s]. *)
Definition codeBlockAt (s : str) : option (str * caps) :=
  if startsWith (lit "```") s then
    let r := skipn 3 s in
    let r' := if startsWith (lit "html") r then skipn 4 r else r in
    match indexOfI false (lit "```") (trimStart r') with
    | Some k => Some (skipn (k + 3) (trimStart r'), [(1, firstn k (trimStart r'))])
    | None => None
    end
  else None.

Definition isSome {A : Type} (o : option A) : bool :=
  match o with
  | Some _ => true
  | None => false
  end.

(** An HTML span starts at the head of [s]: an opening marker with a
    closing tag somewhere after it. *)
Definition spanStartAt (s : str) : bool :=
  startsWithI true (lit "<!DOCTYPE html>") s && includesI true (skipn 15 s) (lit "</html>")
  || startsWithI true (lit "<html") s && includesI true (skipn 5 s) (lit "</html>").

(** A fenced block starts at the head of [s]: three backticks with three
    more somewhere after them. *)
Definition fencePairAt (s : str) : bool :=
  startsWith (lit "```") s && includes (skipn 3 s) (lit "```").

(** [s] is empty or begins with a code unit that is not white space. *)
Definition headOK (s : str) : bool :=
  match s with
  | [] => true
  | c :: _ => negb (isWhiteSpace c)
  end.

(** [c] is a contiguous part of [s]. *)
Definition substr (c s : str) : Prop := exists a b, s = a ++ c ++ b.

(** ** Declarative reading of a pattern *)

(** [matches i r s c s' c']: pattern [r] can consume the input from [s]
    down to its suffix [s'], turning the captures [c] into [c']. *)
Fixpoint matches (i : bool) (r : regex) (s : str) (c : caps) (s' : str) (c' : caps)
  : Prop :=
  match r with
  | Empty => s' = s /\ c' = c
  | Atom cs => exists ch, s = ch :: s' /\ mem i cs ch = true /\ c' = c
  | Seq a b => exists s1 c1, matches i a s c s1 c1 /\ matches i b s1 c1 s' c'
  | Alt a b => matches i a s c s' c' \/ matches i b s c s' c'
  | Star _ cs => exists run, s = run ++ s' /\ forallb (mem i cs) run = true /\ c' = c
  | Opt a => matches i a s c s' c' \/ (s' = s /\ c' = c)
  | Group n a => exists c1, matches i a s c s' c1 /\ c' = (n, consumed s s') :: c1
  | NegLook a => s' = s /\ c' = c /\ forall s1 c1, ~ matches i a s c s1 c1
  end.

(** ** The camera call *)

(** One argument as written: white space, a literal, white space. *)
Record Arg : Type := mkArg { lead : str; num : str; trail : str }.

Definition argText (a : Arg) : str := lead a ++ num a ++ trail a.

(** A signed decimal literal: an optional minus sign, then digits, or
    digits (possibly none), a decimal point and at least one digit. *)
Definition isLiteral (x : str) : bool :=
  let x1 := match x with
            | c :: t => if (c =? 45)%N then t else x
            | [] => x
            end in
  let '(ip, r) := takeDigits x1 in
  match r with
  | [] => match ip with [] => false | _ => true end
  | c :: t =>
      (c =? 46)%N &&
      match takeDigits t with
      | (_ :: _, []) => true
      | _ => false
      end
  end.

Definition wellFormedArg (a : Arg) : bool :=
  forallb isWhiteSpace (lead a) && isLiteral (num a) && forallb isWhiteSpace (trail a).

Definition cameraCall (a b c : Arg) : str :=
  lit "camera.position.set(" ++ argText a ++ 44%N :: argText b ++ 44%N :: argText c
    ++ [41%N].

(** A literal parsed, multiplied by the factor and printed. *)
Definition scaled (factor : number) (x : str) : str :=
  Number_toString (Number_mul (parseFloat x) factor).

Definition scaledCall (factor : number) (a b c : Arg) : str :=
  lit "camera.position.set(" ++ scaled factor (num a) ++ lit ", "
    ++ scaled factor (num b) ++ lit ", " ++ scaled factor (num c) ++ lit ")".

(** The code units a literal is made of. *)
Definition inLiteral (c : char) : bool := (isDigit c || (c =? 45) || (c =? 46))%N.

Definition numberShape (x : str) : Prop :=
  exists sg d1 dot d d2,
    x = sg ++ d1 ++ dot ++ d :: d2 /\
    (sg = [] \/ sg = [45%N]) /\ forallb isDigit d1 = true /\
    (dot = [] \/ dot = [46%N]) /\ isDigit d = true /\ forallb isDigit d2 = true.

Definition argShape (a : Arg) : Prop :=
  forallb isWhiteSpace (lead a) = true /\ numberShape (num a) /\
  forallb isWhiteSpace (trail a) = true.

(** The replacer of [zoomCamera], as a function of the captures. *)
Definition zoomReplacer (zoomFactor : number) (r : MatchResult) : str :=
  let newX := Number_mul (parseFloatArg (capture 1 (groups r))) zoomFactor in
  let newY := Number_mul (parseFloatArg (capture 2 (groups r))) zoomFactor in
  let newZ := Number_mul (parseFloatArg (capture 3 (groups r))) zoomFactor in
  lit "camera.position.set(" ++ Number_toString newX ++ lit ", "
    ++ Number_toString newY ++ lit ", " ++ Number_toString newZ ++ lit ")".

(** The captures of a match of the camera pattern, latest first. *)
Definition callCaps (a b c : Arg) : caps := [(3, num c); (2, num b); (1, num a)].

(** [b] is empty or begins with a code unit outside [P]. *)
Definition stopsAt (P : char -> bool) (b : str) : Prop :=
  match b with
  | [] => True
  | c :: _ => P c = false
  end.

Definition notC (x : char) : bool := negb (x =? 99)%N.

(** The four stages in the order of the host application:
    [injectGameMode(zoomCamera(hideBodyText(extractHtmlFromText(text)), factor))]. *)
Definition pipeline (text : str) (factor : number) : completion str :=
  match extractHtmlFromText text with
  | Return html => Return (injectGameMode (zoomCamera (hideBodyText html) factor))
  | Throw => Throw
  end.

(** The end-to-end example of the specification. *)
Definition exampleInput : str :=
  lit "Sure! Here's your scene:" ++ newline ++ lit "```html" ++ newline
    ++ lit "<html><head></head><body><script>camera.position.set(2,2,2);</script></body></html>"
    ++ newline ++ lit "```".

Definition exampleOutput : str :=
  lit "<html><head>" ++ cssToInject
    ++ lit "</head><body><script>camera.position.set(1.6, 1.6, 1.6);"
    ++ newline ++ gameScript ++ newline ++ lit "</script></body></html>".

(** ** The call pattern, read from the specification *)

(** The longest prefix of [s] made of code units in [P], and the rest. *)
Fixpoint spanOf (P : char -> bool) (s : str) : str * str :=
  match s with
  | c :: t => if P c then let '(u, v) := spanOf P t in (c :: u, v) else ([], s)
  | [] => ([], [])
  end.

(** An argument at the head of [s]: white space, a signed decimal
    literal, white space; with the text after it. *)
Definition readArg (s : str) : option (Arg * str) :=
  let '(w1, s1) := spanOf isWhiteSpace s in
  let '(x, s2) := spanOf inLiteral s1 in
  let '(w2, s3) := spanOf isWhiteSpace s2 in
  if isLiteral x then Some (mkArg w1 x w2, s3) else None.

Definition expect (c : char) (s : str) : option str :=
  match s with
  | d :: t => if (d =? c)%N then Some t else None
  | [] => None
  end.

(** A matching call at the head of [s]: [camera.position.set(], exactly
    three arguments separated by commas, and [)]; with its arguments and
    the text after it.  Written without the regular expression. *)
Definition callAt (s : str) : option (Arg * Arg * Arg * str) :=
  if startsWith (lit "camera.position.set(") s then
    match readArg (skipn 20 s) with
    | None => None
    | Some (a, s1) =>
        match expect 44%N s1 with
        | None => None
        | Some s2 =>
            match readArg s2 with
            | None => None
            | Some (b, s3) =>
                match expect 44%N s3 with
                | None => None
                | Some s4 =>
                    match readArg s4 with
                    | None => None
                    | Some (c, s5) =>
                        match expect 41%N s5 with
                        | None => None
                        | Some rest => Some (a, b, c, rest)
                        end
                    end
                end
            end
        end
    end
  else None.

(** A matching call starts at some position of [s]. *)
Fixpoint hasCall (s : str) : bool :=
  match callAt s with
  | Some _ => true
  | None =>
      match s with
      | [] => false
      | _ :: t => hasCall t
      end
  end.

(** A document made of a text and then calls, each followed by a text;
    [render] spells a call. *)
Fixpoint weave (render : Arg -> Arg -> Arg -> str) (t0 : str)
    (l : list (Arg * Arg * Arg * str)) : str :=
  match l with
  | [] => t0
  | (a, b, c, t1) :: l' => t0 ++ render a b c ++ weave render t1 l'
  end.

(** Every call of [l] is well formed and no text of [l] has a call. *)
Definition callsOK (l : list (Arg * Arg * Arg * str)) : bool :=
  forallb (fun e : Arg * Arg * Arg * str =>
             let '(a, b, c, t) := e in
             wellFormedArg a && wellFormedArg b && wellFormedArg c && negb (hasCall t)) l.

(** * Further vocabulary: composition of the stages *)

(** The fixed prefix of the camera pattern. *)
Definition callPrefix : str := lit "camera.position.set(".

(** The code units that can stand inside a match of the camera pattern
    after its first letter. *)
Definition interiorChar (c : char) : bool :=
  isWhiteSpace c || inLiteral c || existsb (N.eqb c) (lit "amera.position.set(,)").

(** The result of matching at [x] carried over to [x ++ v]. *)
Definition liftMatch (v : str) (o : option (str * caps)) : option (str * caps) :=
  match o with
  | Some (s1, c1) => Some (s1 ++ v, c1)
  | None => None
  end.

(** The code units of a printed Number. *)
Definition numChar (c : char) : bool :=
  isDigit c || existsb (N.eqb c) (lit "-.e+NaInfity").

Definition notLt (c : char) : bool := negb (c =? 60)%N.

Definition notRParen (c : char) : bool := negb (c =? 41)%N.

(** The block [injectGameMode] puts in front of the closing tag. *)
Definition spliceBlock : str := newline ++ gameScript ++ newline.

(** No match of the camera pattern that starts inside [u] reaches into
    [v]: at every position of [u] the pattern matches in [u ++ v] just as
    it does in [u] alone. *)
Definition splitFree (u v : str) : Prop :=
  forall p, p < length u ->
    matchAt cameraRegex (skipn p u ++ v) = liftMatch v (matchAt cameraRegex (skipn p u)).

(** Linear arithmetic over lengths of strings. *)
Ltac slia :=
  repeat match goal with
         | H : @eq bool _ _ |- _ => clear H
         | H : forall _, _ |- _ => clear H
         end;
  unfold str, char in *; lia.

(** [clashFree X Y]: an occurrence of [X] and an occurrence of [Y] (in
    any letter case) cannot share a position: at every relative offset at
    which they would overlap, some shared position would have to hold two
    different letters. *)
Definition agreeAt (X Y : str) (dx dy : nat) (j : nat) : bool :=
  (canonicalize true (nth (dx + j) X 0%N) =? canonicalize true (nth (dy + j) Y 0%N))%N.

Definition clashFree (X Y : str) : bool :=
  forallb (fun d =>
             negb (forallb (agreeAt X Y d 0) (seq 0 (Nat.min (length X - d) (length Y)))))
          (seq 0 (length X))
  && forallb (fun d =>
                negb (forallb (agreeAt X Y 0 d) (seq 0 (Nat.min (length X) (length Y - d)))))
             (seq 1 (length Y - 1)).

(** * The callers in App.tsx *)

(** [handleVoxelize]: the code stored for a generated scene,
    [injectGameMode(zoomCamera(hideBodyText(codeRaw)))]. *)
Definition voxelizeCode (codeRaw : str) : str :=
  injectGameMode (zoomCamera (hideBodyText codeRaw) defaultZoomFactor).

(** [handleExampleClick]: what the inner [try] meets when it fetches the
    example's HTML file: the fetch promise rejects; the response is not
    ok; the response is ok and reading its text rejects; the response is
    ok and its text is read. *)
Inductive HtmlFetch : Type :=
| FetchRejected
| ResponseNotOk
| TextRejected
| ResponseOk (rawText : str).

Definition errorScene : str :=
  lit "<html><body>Error loading example scene.</body></html>".

(** The value of [htmlText] after the inner [try].  Both awaits and the
    three stages stand inside it, so a rejected fetch, a rejected text
    read and an exception of a stage all end in its [catch]. *)
Definition exampleHtmlText (exampleHtml : str) (r : HtmlFetch) : str :=
  match r with
  | FetchRejected => errorScene
  | ResponseNotOk =>
      lit "<html><body><p>" ++ exampleHtml ++ lit " not found.</p></body></html>"
  | TextRejected => errorScene
  | ResponseOk rawText =>
      match extractHtmlFromText rawText with
      | Return html => zoomCamera (hideBodyText html) defaultZoomFactor
      | Throw => errorScene
      end
  end.

(** The code stored by [setVoxelCode(injectGameMode(htmlText))]. *)
Definition exampleVoxelCode (exampleHtml : str) (r : HtmlFetch) : str :=
  injectGameMode (exampleHtmlText exampleHtml r).

(** * Vocabulary: replacing a tag by a block and a tag *)

(** [mismatch n s]: the comparison of the needle [n] with the head of
    [s], in any letter case, fails on a code unit that [s] has. *)
Fixpoint mismatch (n s : str) : bool :=
  match n, s with
  | a :: n', b :: s' =>
      if (canonicalize true a =? canonicalize true b)%N then mismatch n' s' else true
  | _, _ => false
  end.

(** [mismatch n] at each of the first [k] positions of [s]. *)
Fixpoint allMismatch (n s : str) (k : nat) : bool :=
  match k, s with
  | S k', _ :: s' => mismatch n s && allMismatch n s' k'
  | _, _ => true
  end.

(** The style block put in front of the first occurrence of the tag [t],
    as [hideBodyText] does for [</head>] and [</body>]. *)
Definition spliceFirst (t s : str) : str :=
  match indexOfI true t s with
  | Some k => firstn k s ++ cssToInject ++ t ++ skipn (k + length t) s
  | None => s
  end.

(** * The program: utils/sounds.ts *)

(** The class [SoundService] works on the Web Audio interface of the
    host.  The model keeps the three private fields of the service and
    records, latest first, every call the service makes on that
    interface.  Of the host it reads the state of the context and the
    clock [currentTime]; both are given by the host at every read, so
    nothing is assumed about them.  The calls on the interface are taken
    to return normally. *)
Module Audio.

Definition Number_add (x y : number) : number := SFadd 53 1024 x y.

(** The nodes of the audio graph, named in the order of their creation. *)
Definition node := nat.

Inductive OscillatorType : Type := square | triangle | sawtooth | sine.

(** An [AudioParam]: the frequency of an oscillator, or the gain of a
    gain node. *)
Inductive AudioParam : Type :=
| Frequency (n : node)
| Gain (n : node).

Inductive Destination : Type :=
| ToNode (n : node)
| ToParam (p : AudioParam)
| ToDestination.

Inductive call : Type :=
| NewAudioContext
| Resume
| CreateOscillator (n : node)
| CreateGain (n : node)
| SetType (n : node) (t : OscillatorType)
| SetValue (p : AudioParam) (value : number)
| SetValueAtTime (p : AudioParam) (value time : number)
| ExponentialRampToValueAtTime (p : AudioParam) (value time : number)
| LinearRampToValueAtTime (p : AudioParam) (value time : number)
| Connect (n : node) (d : Destination)
| Start (n : node) (when : option number)
| Stop (n : node) (when : number).

(** What the host answers at its [k]-th read: whether the state of the
    context is ['suspended'], and the value of [currentTime]. *)
Record Host : Type := mkHost {
  suspended : nat -> bool;
  currentTime : nat -> number
}.

(** The private fields; [ctx] tells whether the context exists. *)
Record SoundService : Type := mkSoundService {
  ctx : bool;
  isMuted : bool;
  processingNode : option node
}.

Record World : Type := mkWorld {
  service : SoundService;
  nodes : nat;
  reads : nat;
  calls : list call
}.

Definition M (A : Type) : Type := World -> A * World.

Definition ret {A : Type} (a : A) : M A := fun w => (a, w).

Definition bind {A B : Type} (m : M A) (k : A -> M B) : M B :=
  fun w => let '(a, w') := m w in k a w'.

Declare Scope sound_scope.
Delimit Scope sound_scope with sound.
Notation "x <- m ;; k" := (bind m (fun x => k))
  (at level 61, m at next level, right associativity) : sound_scope.
Notation "m ;; k" := (bind m (fun _ => k))
  (at level 61, right associativity) : sound_scope.
Local Open Scope sound_scope.

Definition this : M SoundService := fun w => (service w, w).

Definition set_ctx (b : bool) : M unit :=
  fun w => (tt, mkWorld (mkSoundService b (isMuted (service w)) (processingNode (service w)))
                        (nodes w) (reads w) (calls w)).

Definition set_isMuted (b : bool) : M unit :=
  fun w => (tt, mkWorld (mkSoundService (ctx (service w)) b (processingNode (service w)))
                        (nodes w) (reads w) (calls w)).

Definition set_processingNode (n : option node) : M unit :=
  fun w => (tt, mkWorld (mkSoundService (ctx (service w)) (isMuted (service w)) n)
                        (nodes w) (reads w) (calls w)).

Definition emit (c : call) : M unit :=
  fun w => (tt, mkWorld (service w) (nodes w) (reads w) (c :: calls w)).

Definition newNode : M node :=
  fun w => (nodes w, mkWorld (service w) (S (nodes w)) (reads w) (calls w)).

Section Service.

Variable host : Host.

Definition state_suspended : M bool :=
  fun w => (suspended host (reads w),
            mkWorld (service w) (nodes w) (S (reads w)) (calls w)).

Definition ctx_currentTime : M number :=
  fun w => (currentTime host (reads w),
            mkWorld (service w) (nodes w) (S (reads w)) (calls w)).

Definition createOscillator : M node :=
  n <- newNode ;; emit (CreateOscillator n) ;; ret n.

Definition createGain : M node :=
  n <- newNode ;; emit (CreateGain n) ;; ret n.

Definition getContext : M unit :=
  s <- this ;;
  (if ctx s then ret tt else emit NewAudioContext ;; set_ctx true) ;;
  b <- state_suspended ;;
  if b then emit Resume else ret tt.

Definition stopProcessing : M unit :=
  s <- this ;;
  match processingNode s with
  | Some node =>
      getContext ;;
      gain <- createGain ;;
      t <- ctx_currentTime ;;
      emit (Stop node (Number_add t (round_dec false 1 (-1)))) ;;
      set_processingNode None
  | None => ret tt
  end.

Definition setMute (mute : bool) : M unit :=
  set_isMuted mute ;;
  s <- this ;;
  match processingNode s with
  | Some _ => if mute then stopProcessing else ret tt
  | None => ret tt
  end.

Definition playClick : M unit :=
  s <- this ;;
  if isMuted s then ret tt
  else
    getContext ;;
    osc <- createOscillator ;;
    gain <- createGain ;;
    emit (SetType osc square) ;;
    t <- ctx_currentTime ;;
    emit (SetValueAtTime (Frequency osc) (round_dec false 440 0) t) ;;
    t <- ctx_currentTime ;;
    emit (ExponentialRampToValueAtTime (Frequency osc) (round_dec false 110 0)
            (Number_add t (round_dec false 1 (-1)))) ;;
    t <- ctx_currentTime ;;
    emit (SetValueAtTime (Gain gain) (round_dec false 1 (-1)) t) ;;
    t <- ctx_currentTime ;;
    emit (ExponentialRampToValueAtTime (Gain gain) (round_dec false 1 (-2))
            (Number_add t (round_dec false 1 (-1)))) ;;
    emit (Connect osc (ToNode gain)) ;;
    emit (Connect gain ToDestination) ;;
    emit (Start osc None) ;;
    t <- ctx_currentTime ;;
    emit (Stop osc (Number_add t (round_dec false 1 (-1)))).

Definition playNote (freq start duration : number) : M unit :=
  osc <- createOscillator ;;
  gain <- createGain ;;
  emit (SetType osc triangle) ;;
  emit (SetValueAtTime (Frequency osc) freq start) ;;
  emit (SetValueAtTime (Gain gain) (S754_zero false) start) ;;
  emit (LinearRampToValueAtTime (Gain gain) (round_dec false 1 (-1))
          (Number_add start (round_dec false 5 (-2)))) ;;
  emit (LinearRampToValueAtTime (Gain gain) (S754_zero false)
          (Number_add start duration)) ;;
  emit (Connect osc (ToNode gain)) ;;
  emit (Connect gain ToDestination) ;;
  emit (Start osc (Some start)) ;;
  emit (Stop osc (Number_add start duration)).

Definition playSuccess : M unit :=
  s <- this ;;
  if isMuted s then ret tt
  else
    getContext ;;
    now <- ctx_currentTime ;;
    playNote (round_dec false 52325 (-2)) now (round_dec false 2 (-1)) ;;
    playNote (round_dec false 65925 (-2)) (Number_add now (round_dec false 1 (-1)))
             (round_dec false 2 (-1)) ;;
    playNote (round_dec false 78399 (-2)) (Number_add now (round_dec false 2 (-1)))
             (round_dec false 4 (-1)).

Definition playError : M unit :=
  s <- this ;;
  if isMuted s then ret tt
  else
    getContext ;;
    now <- ctx_currentTime ;;
    osc <- createOscillator ;;
    gain <- createGain ;;
    emit (SetType osc sawtooth) ;;
    emit (SetValueAtTime (Frequency osc) (round_dec false 150 0) now) ;;
    emit (LinearRampToValueAtTime (Frequency osc) (round_dec false 100 0)
            (Number_add now (round_dec false 3 (-1)))) ;;
    emit (SetValueAtTime (Gain gain) (round_dec false 1 (-1)) now) ;;
    emit (LinearRampToValueAtTime (Gain gain) (S754_zero false)
            (Number_add now (round_dec false 3 (-1)))) ;;
    emit (Connect osc (ToNode gain)) ;;
    emit (Connect gain ToDestination) ;;
    emit (Start osc None) ;;
    emit (Stop osc (Number_add now (round_dec false 3 (-1)))).

Definition startProcessing : M unit :=
  s <- this ;;
  match isMuted s, processingNode s with
  | false, None =>
      getContext ;;
      osc <- createOscillator ;;
      gain <- createGain ;;
      emit (SetType osc sine) ;;
      t <- ctx_currentTime ;;
      emit (SetValueAtTime (Frequency osc) (round_dec false 80 0) t) ;;
      mod_ <- createOscillator ;;
      modGain <- createGain ;;
      emit (SetValue (Frequency mod_) (round_dec false 5 0)) ;;
      emit (SetValue (Gain modGain) (round_dec false 10 0)) ;;
      emit (Connect mod_ (ToNode modGain)) ;;
      emit (Connect modGain (ToParam (Frequency osc))) ;;
      emit (Start mod_ None) ;;
      t <- ctx_currentTime ;;
      emit (SetValueAtTime (Gain gain) (S754_zero false) t) ;;
      t <- ctx_currentTime ;;
      emit (LinearRampToValueAtTime (Gain gain) (round_dec false 5 (-2))
              (Number_add t (round_dec false 5 (-1)))) ;;
      emit (Connect osc (ToNode gain)) ;;
      emit (Connect gain ToDestination) ;;
      emit (Start osc None) ;;
      set_processingNode (Some osc)
  | _, _ => ret tt
  end.

(** The public methods, as the application calls them on the exported
    [sounds]. *)
Inductive Method : Type :=
| call_setMute (mute : bool)
| call_playClick
| call_playSuccess
| call_playError
| call_startProcessing
| call_stopProcessing.

Definition invoke (m : Method) : M unit :=
  match m with
  | call_setMute mute => setMute mute
  | call_playClick => playClick
  | call_playSuccess => playSuccess
  | call_playError => playError
  | call_startProcessing => startProcessing
  | call_stopProcessing => stopProcessing
  end.

Fixpoint invokeAll (ms : list Method) : M unit :=
  match ms with
  | [] => ret tt
  | m :: rest => invoke m ;; invokeAll rest
  end.

End Service.

(** [new SoundService()]: no context, not muted, no hum. *)
Definition sounds : World :=
  mkWorld (mkSoundService false false None) 0 0 [].

(** The world after a sequence of method calls on [sounds]. *)
Definition afterCalls (host : Host) (ms : list Method) : World :=
  snd (invokeAll host ms sounds).

(** ** Reading the record of calls *)

Definition started (n : node) (l : list call) : bool :=
  existsb (fun c => match c with Start m _ => Nat.eqb m n | _ => false end) l.

Definition stopped (n : node) (l : list call) : bool :=
  existsb (fun c => match c with Stop m _ => Nat.eqb m n | _ => false end) l.

(** An oscillator that was started and for which no stop was ever
    scheduled. *)
Definition running (n : node) (l : list call) : bool :=
  started n l && negb (stopped n l).

(** The modulators are the oscillators whose frequency was set through
    [frequency.value]. *)
Definition modulator (n : node) (l : list call) : bool :=
  existsb (fun c => match c with SetValue (Frequency m) _ => Nat.eqb m n | _ => false end) l.

Definition contexts (l : list call) : nat :=
  length (filter (fun c => match c with NewAudioContext => true | _ => false end) l).

Definition isStartProcessing (m : Method) : bool :=
  match m with
  | call_startProcessing => true
  | _ => false
  end.

Definition humming (n : node) (w : World) : bool :=
  match processingNode (service w) with
  | Some m => Nat.eqb m n
  | None => false
  end.

End Audio.

(** The service keeps these facts between the calls of its methods:
    while muted there is no hum; the oscillators that run are the
    modulators and the hum; every node named in the record was created;
    the hum is a started oscillator, not a modulator; and the record
    holds one context creation if the context exists, none otherwise. *)
Definition soundInvariant (w : Audio.World) : Prop :=
  (Audio.isMuted (Audio.service w) = true ->
   Audio.processingNode (Audio.service w) = None) /\
  (forall n, Audio.running n (Audio.calls w) =
             Audio.modulator n (Audio.calls w) || Audio.humming n w) /\
  (forall n, Audio.nodes w <= n ->
             Audio.started n (Audio.calls w) = false /\
             Audio.stopped n (Audio.calls w) = false /\
             Audio.modulator n (Audio.calls w) = false /\
             Audio.humming n w = false) /\
  (forall n, Audio.humming n w = true -> Audio.modulator n (Audio.calls w) = false) /\
  Audio.contexts (Audio.calls w) = (if Audio.ctx (Audio.service w) then 1 else 0).

(** Running a method on a world whose fields are known. *)
Ltac run_sound :=
  cbv beta iota zeta delta
    [Audio.invoke Audio.setMute Audio.playClick Audio.playSuccess Audio.playNote
     Audio.playError Audio.startProcessing Audio.stopProcessing Audio.getContext
     Audio.createOscillator Audio.createGain Audio.newNode Audio.emit Audio.this
     Audio.set_ctx Audio.set_isMuted Audio.set_processingNode Audio.state_suspended
     Audio.ctx_currentTime Audio.bind Audio.ret Audio.service Audio.nodes Audio.reads
     Audio.calls Audio.ctx Audio.isMuted Audio.processingNode fst snd].

Ltac read_calls :=
  cbv beta iota zeta delta
    [Audio.running Audio.started Audio.stopped Audio.modulator Audio.humming
     Audio.contexts existsb filter length Audio.service Audio.nodes Audio.reads
     Audio.calls Audio.ctx Audio.isMuted Audio.processingNode] in *.

Ltac sound_cmp :=
  repeat match goal with
         | |- context [Nat.eqb ?a ?b] =>
             destruct (Nat.eqb_spec a b); [subst; try lia|]
         | H : context [Nat.eqb ?a ?b] |- _ =>
             destruct (Nat.eqb_spec a b); [subst; try lia|]
         end.

Ltac sound_cases :=
  repeat match goal with
         | |- context [existsb ?f ?l] =>
             let E := fresh "E" in
             destruct (existsb f l) eqn:E;
             repeat match goal with
                    | H : context [existsb f l] |- _ => rewrite E in H
                    end
         | H : context [existsb ?f ?l] |- _ =>
             let E := fresh "E" in
             destruct (existsb f l) eqn:E;
             repeat match goal with
                    | H' : context [existsb f l] |- _ => rewrite E in H'
                    end
         end.

Ltac sound_close :=
  cbn [orb andb negb] in *;
  try reflexivity; try discriminate; try lia; try congruence; auto.

(** The facts about the nodes not yet created, in a usable form. *)
Ltac sound_tidy :=
  repeat match goal with
         | H : Nat.eqb _ _ = false |- _ => apply Nat.eqb_neq in H
         | H : false = false |- _ => clear H
         end.

Ltac sound_fresh Hf nn :=
  let F0 := fresh "F" in
  let F1 := fresh "F" in
  let F2 := fresh "F" in
  let F3 := fresh "F" in
  let F4 := fresh "F" in
  let F5 := fresh "F" in
  pose proof (Hf nn ltac:(lia)) as F0;
  pose proof (Hf (S nn) ltac:(lia)) as F1;
  pose proof (Hf (S (S nn)) ltac:(lia)) as F2;
  pose proof (Hf (S (S (S nn))) ltac:(lia)) as F3;
  pose proof (Hf (S (S (S (S nn)))) ltac:(lia)) as F4;
  pose proof (Hf (S (S (S (S (S nn))))) ltac:(lia)) as F5;
  destruct F0 as [? [? [? ?]]]; destruct F1 as [? [? [? ?]]];
  destruct F2 as [? [? [? ?]]]; destruct F3 as [? [? [? ?]]];
  destruct F4 as [? [? [? ?]]]; destruct F5 as [? [? [? ?]]];
  sound_tidy.

Ltac sound_rewrite :=
  repeat match goal with
         | H : existsb _ _ = false |- _ => rewrite ?H in *; clear H
         end.

(** Each part of the invariant after a method, from the parts before. *)
Ltac sound_step Hm Hr Hf Hh Hc nn :=
  cbn [existsb filter length orb];
  split;
  [ first [exact Hm | reflexivity | intros; discriminate | intros; congruence]
  | split;
    [ let n := fresh "n" in
      intros n; specialize (Hr n); specialize (Hh n); sound_fresh Hf nn;
      sound_cmp; sound_rewrite; sound_cases; sound_close
    | split;
      [ let n := fresh "n" in
        let Hn := fresh "Hn" in
        intros n Hn; destruct (Hf n ltac:(lia)) as [? [? [? ?]]]; sound_tidy;
        sound_cmp; sound_close
      | split;
        [ let n := fresh "n" in
          intros n; specialize (Hh n); sound_fresh Hf nn;
          sound_cmp; sound_rewrite; sound_cases; sound_close
        | first [exact Hc | cbn [length]; rewrite Hc; reflexivity] ] ] ] ].

(** ** Proof automation *)

Ltac N_case1 :=
  match goal with
  | |- context [(?a <=? ?b)%N] => destruct (N.leb_spec a b)
  | |- context [(?a <? ?b)%N] => destruct (N.ltb_spec a b)
  | |- context [(?a =? ?b)%N] => destruct (N.eqb_spec a b)
  | H : context [(?a <=? ?b)%N] |- _ => destruct (N.leb_spec a b)
  | H : context [(?a <? ?b)%N] |- _ => destruct (N.ltb_spec a b)
  | H : context [(?a =? ?b)%N] |- _ => destruct (N.eqb_spec a b)
  end.

Ltac N_cases :=
  repeat (N_case1; simpl in *; try discriminate; try (exfalso; lia)).

Ltac assoc := repeat (rewrite <- app_assoc || rewrite <- app_comm_cons).

Ltac assoc_in H := repeat (rewrite <- app_assoc in H || rewrite <- app_comm_cons in H).

(** ** Concrete checks of the runtime model *)

Example trim_example : trim (lit "  a b  ") = lit "a b".
Proof. reflexivity. Qed.

Example toLowerCase_example : toLowerCase (lit "</HeAd>") = lit "</head>".
Proof. reflexivity. Qed.

Example parseFloat_toString_examples :
  map (fun s => Number_toString (parseFloat (lit s)))
      ["10"; "-5"; "2.5"; "-.5"; "007"; "1.50"; "-0"; "0.1"; "1e21"; "1e-7"; "x"]%string =
  map lit ["10"; "-5"; "2.5"; "-0.5"; "7"; "1.5"; "0"; "0.1"; "1e+21"; "1e-7"; "NaN"]%string.
Proof. vm_compute. reflexivity. Qed.

Example Number_mul_examples :
  map (fun xy => Number_toString
                   (Number_mul (parseFloat (lit (fst xy))) (parseFloat (lit (snd xy)))))
      [("2", "0.8"); ("3", "0.8"); ("0.1", "3"); ("1.1", "1.1"); ("-0", "0.8")]%string =
  map lit ["1.6"; "2.4000000000000004"; "0.30000000000000004"; "1.2100000000000002"; "0"]%string.
Proof. vm_compute. reflexivity. Qed.

Example defaultZoomFactor_example : Number_toString defaultZoomFactor = lit "0.8".
Proof. vm_compute. reflexivity. Qed.

Example extract_span_example :
  extractHtmlFromText (lit "Here: <HTML><b></b></HtMl> and </html> more") =
  Return (lit "<HTML><b></b></HtMl>").
Proof. vm_compute. reflexivity. Qed.

Example extract_fence_example :
  extractHtmlFromText (lit "Here: ```html" ++ newline ++ lit "  <b>x</b> " ++ newline ++ lit "``` bye") =
  Return (lit "<b>x</b>").
Proof. vm_compute. reflexivity. Qed.

Example extract_open_fence_example :
  extractHtmlFromText (lit "  ```html <b> ") = Return (lit "```html <b>").
Proof. vm_compute. reflexivity. Qed.

Example zoomCamera_literal_forms :
  zoomCamera (lit "camera.position.set( 1 ,2,.3 ); camera.position.set(1.,2,3)")
             defaultZoomFactor =
  lit "camera.position.set(0.8, 1.6, 0.24); camera.position.set(1.,2,3)".
Proof. vm_compute. reflexivity. Qed.

Example injectGameMode_last_tag :
  injectGameMode (lit "<script>a</script><script>b</script>c") =
  lit "<script>a</script><script>b" ++ newline ++ gameScript ++ newline ++ lit "</script>c".
Proof. vm_compute. reflexivity. Qed.

(** * Properties *)

(** ** Lists of code units *)

Lemma startsWithI_length i n s :
  startsWithI i n s = true -> length n <= length s.
Proof.
  revert s; induction n as [|a n IH]; intros [|c t]; simpl; try lia; try discriminate.
  intros H; apply andb_true_iff in H as [_ H]. apply IH in H. lia.
Qed.

Lemma startsWithI_app_r i n s u :
  startsWithI i n s = true -> startsWithI i n (s ++ u) = true.
Proof.
  revert s; induction n as [|a n IH]; intros [|c t]; simpl; auto; try discriminate.
  intros H; apply andb_true_iff in H as [H1 H2]. rewrite H1; simpl; auto.
Qed.

Lemma startsWithI_firstn i n s k :
  length n <= k -> startsWithI i n (firstn k s) = startsWithI i n s.
Proof.
  revert s k; induction n as [|a n IH]; intros s k Hk; simpl.
  - reflexivity.
  - destruct k as [|k]; simpl in Hk; [lia|].
    destruct s as [|c t]; simpl; [reflexivity|].
    rewrite IH by lia. reflexivity.
Qed.

Lemma startsWithI_false_exact n s : startsWithI false n s = startsWith n s.
Proof.
  revert s; induction n as [|a n IH]; intros [|c t]; simpl; auto.
  rewrite IH. reflexivity.
Qed.

Lemma includesI_false_exact s n : includesI false s n = includes s n.
Proof.
  induction s as [|c t IH]; simpl; rewrite startsWithI_false_exact; [reflexivity|].
  rewrite IH. reflexivity.
Qed.

Lemma includesI_indexOfI i n s :
  includesI i s n = match indexOfI i n s with Some _ => true | None => false end.
Proof.
  induction s as [|c t IH]; simpl.
  - destruct (startsWithI i n []); reflexivity.
  - destruct (startsWithI i n (c :: t)); simpl; [reflexivity|].
    rewrite IH. destruct (indexOfI i n t); reflexivity.
Qed.

Lemma indexOfI_Some i n s k :
  indexOfI i n s = Some k ->
  startsWithI i n (skipn k s) = true /\ k + length n <= length s.
Proof.
  revert k; induction s as [|c t IH]; intros k; simpl.
  - destruct (startsWithI i n []) eqn:E; [|discriminate].
    intros [= <-]. split; [exact E|]. apply startsWithI_length in E. simpl in *; lia.
  - destruct (startsWithI i n (c :: t)) eqn:E.
    + intros [= <-]. split; [exact E|]. apply startsWithI_length in E. simpl in *; lia.
    + destruct (indexOfI i n t) as [j|]; simpl; [|discriminate].
      intros [= <-]. destruct (IH j eq_refl) as [H1 H2]. split; [exact H1|lia].
Qed.

Lemma indexOfI_first i n s k j :
  indexOfI i n s = Some k -> j < k -> startsWithI i n (skipn j s) = false.
Proof.
  revert k j; induction s as [|c t IH]; intros k j; simpl.
  - destruct (startsWithI i n []); [|discriminate]. intros [= <-]; lia.
  - destruct (startsWithI i n (c :: t)) eqn:E.
    + intros [= <-]; lia.
    + destruct (indexOfI i n t) as [k'|] eqn:E'; simpl; [|discriminate].
      intros [= <-] Hj. destruct j as [|j]; simpl; [exact E|].
      apply (IH k' j eq_refl). lia.
Qed.

Lemma indexOfI_None i n s j :
  indexOfI i n s = None -> startsWithI i n (skipn j s) = false.
Proof.
  revert j; induction s as [|c t IH]; intros j; simpl.
  - destruct (startsWithI i n []) eqn:E; [discriminate|].
    intros _. destruct j; exact E.
  - destruct (startsWithI i n (c :: t)) eqn:E; [discriminate|].
    destruct (indexOfI i n t) eqn:E'; simpl; [discriminate|].
    intros _. destruct j as [|j]; simpl; [exact E|]. apply IH; reflexivity.
Qed.

Lemma indexOfI_intro i n s k :
  startsWithI i n (skipn k s) = true ->
  k <= length s ->
  (forall j, j < k -> startsWithI i n (skipn j s) = false) ->
  indexOfI i n s = Some k.
Proof.
  revert k; induction s as [|c t IH]; intros k H1 H2 H3.
  - simpl in H2. assert (k = 0) by lia; subst. simpl in *. rewrite H1. reflexivity.
  - destruct k as [|k].
    + simpl in H1. simpl. rewrite H1. reflexivity.
    + pose proof (H3 0 ltac:(lia)) as H0. simpl in H0. simpl. rewrite H0.
      rewrite (IH k); simpl in *; auto; try lia.
      intros j Hj. apply (H3 (S j)). lia.
Qed.

Lemma firstn_skipn_length (s : str) k m :
  k + m <= length s ->
  length (firstn k s) = k /\ length (skipn (k + m) s) = length s - k - m.
Proof.
  intros H. rewrite length_firstn, length_skipn. lia.
Qed.

Lemma consumed_skipn (s : str) k :
  k <= length s -> consumed s (skipn k s) = firstn k s.
Proof.
  intros H. unfold consumed. rewrite length_skipn. f_equal. lia.
Qed.

Lemma consumed_app (u s : str) : consumed (u ++ s) s = u.
Proof.
  unfold consumed. rewrite length_app.
  replace (length u + length s - length s) with (length u) by lia.
  rewrite firstn_app, Nat.sub_diag, firstn_all. simpl. apply app_nil_r.
Qed.

(** ** The matcher on literal patterns *)

Lemma matcher_Lits i l s c k :
  matcher i (Lits l) s c k =
  if startsWithI i l s then k (skipn (length l) s) c else None.
Proof.
  revert s; induction l as [|a l IH]; intros s; simpl.
  - reflexivity.
  - destruct s as [|ch t]; [reflexivity|].
    destruct (canonicalize i a =? canonicalize i ch)%N; simpl; [apply IH|reflexivity].
Qed.

Lemma mem_anyChar i ch : mem i anyChar ch = true.
Proof. simpl. destruct (isWhiteSpace ch); reflexivity. Qed.

Lemma findFirst_ext {A : Type} (f g : str -> option A) s :
  (forall k, f (skipn k s) = g (skipn k s)) -> findFirst f s = findFirst g s.
Proof.
  induction s as [|c t IH]; intros H; simpl.
  - pose proof (H 0) as H0; simpl in H0. rewrite H0. reflexivity.
  - pose proof (H 0) as H0; simpl in H0. rewrite <- H0.
    destruct (f (c :: t)); [reflexivity|].
    rewrite IH; [reflexivity|]. intros k. apply (H (S k)).
Qed.

Lemma exec_findFirst re s :
  exec re s =
  match findFirst (matchAt re) s with
  | Some (k, (s', c)) => Some (mkMatch (firstn k s) (consumed (skipn k s) s') c s')
  | None => None
  end.
Proof.
  induction s as [|ch t IH]; simpl.
  - destruct (matchAt re []) as [[s' c]|]; reflexivity.
  - destruct (matchAt re (ch :: t)) as [[s' c]|]; [reflexivity|].
    rewrite IH. destruct (findFirst (matchAt re) t) as [[k [s' c]]|]; reflexivity.
Qed.

Lemma findFirst_indexOfI i n s :
  findFirst (fun x => if startsWithI i n x then Some (skipn (length n) x, @nil (nat * str)) else None) s =
  match indexOfI i n s with
  | Some k => Some (k, (skipn (k + length n) s, []))
  | None => None
  end.
Proof.
  induction s as [|c t IH]; simpl.
  - destruct (startsWithI i n []); reflexivity.
  - destruct (startsWithI i n (c :: t)); [reflexivity|].
    rewrite IH. destruct (indexOfI i n t); reflexivity.
Qed.

(** The first match of a literal pattern is the first occurrence. *)
Lemma exec_Lits i g n s :
  exec (mkRegExp i g (Lits n)) s =
  match indexOfI i n s with
  | Some k => Some (mkMatch (firstn k s) (firstn (length n) (skipn k s)) []
                            (skipn (k + length n) s))
  | None => None
  end.
Proof.
  rewrite exec_findFirst.
  rewrite (findFirst_ext _
             (fun x => if startsWithI i n x then Some (skipn (length n) x, @nil (nat * str)) else None)).
  2:{ intros k. unfold matchAt; simpl. apply matcher_Lits. }
  rewrite findFirst_indexOfI.
  destruct (indexOfI i n s) as [k|] eqn:E; [|reflexivity].
  apply indexOfI_Some in E as [_ E].
  f_equal. f_equal.
  replace (skipn (k + length n) s) with (skipn (length n) (skipn k s)).
  2:{ rewrite skipn_skipn. f_equal. lia. }
  apply consumed_skipn. rewrite length_skipn. lia.
Qed.

(** A replacement template without [$] stands for itself. *)
Lemma getSubstitution_plain r g t :
  forallb (fun c => negb (c =? 36)%N) t = true -> getSubstitution r g t = t.
Proof.
  induction t as [|c t IH]; simpl; [reflexivity|].
  intros H; apply andb_true_iff in H as [H1 H2].
  destruct (c =? 36)%N; [discriminate|]. rewrite IH; auto.
Qed.

(** ** [toLowerCase] followed by [includes] *)



Lemma startsWith_lowerUnit n nt c rest :
  plainChar n = true ->
  startsWith (n :: nt) (lowerUnit c ++ rest) =
  (canonicalize true n =? canonicalize true c)%N && startsWith nt rest.
Proof.
  unfold plainChar, lowerUnit, canonicalize. intros H.
  N_cases; try reflexivity.
Qed.

Lemma startsWith_toLowerCase n s :
  forallb plainChar n = true ->
  startsWith n (toLowerCase s) = startsWithI true n s.
Proof.
  revert s; induction n as [|a n IH]; intros s H.
  - destruct s; reflexivity.
  - simpl in H. apply andb_true_iff in H as [Ha Hn].
    destruct s as [|c t]; [reflexivity|].
    unfold toLowerCase. simpl flat_map. rewrite startsWith_lowerUnit by exact Ha.
    simpl. f_equal. apply IH. exact Hn.
Qed.

Lemma includes_toLowerCase n s :
  plainNeedle n = true ->
  includes (toLowerCase s) n = includesI true s n.
Proof.
  intros H. destruct n as [|a n]; [discriminate|]. simpl in H.
  induction s as [|c t IH].
  - reflexivity.
  - change (includesI true (c :: t) (a :: n))
      with (startsWithI true (a :: n) (c :: t) || includesI true t (a :: n)).
    rewrite <- IH, <- startsWith_toLowerCase by exact H.
    apply andb_true_iff in H as [Ha Hn].
    unfold toLowerCase. simpl flat_map. fold (toLowerCase t).
    unfold lowerUnit.
    destruct ((65 <=? c) && (c <=? 90))%N; [reflexivity|].
    destruct (c =? 304)%N.
    { cbn [includes app startsWith].
      replace (a =? 775)%N with false; [reflexivity|].
      unfold plainChar in Ha. N_cases; reflexivity. }
    destruct (c =? 8490)%N; reflexivity.
Qed.

(** ** hideBodyText *)

Lemma cssToInject_length : length cssToInject = 316.
Proof. vm_compute. reflexivity. Qed.

Lemma replace_first_Lits i g n s t :
  forallb (fun c => negb (c =? 36)%N) t = true ->
  replace_first s (mkRegExp i g (Lits n)) t =
  match indexOfI i n s with
  | Some k => firstn k s ++ t ++ skipn (k + length n) s
  | None => s
  end.
Proof.
  intros Ht. unfold replace_first. rewrite exec_Lits.
  destruct (indexOfI i n s); [|reflexivity].
  simpl. rewrite getSubstitution_plain by exact Ht. reflexivity.
Qed.

Lemma hideBodyText_eq html :
  hideBodyText html =
  match indexOfI true (lit "</head>") html with
  | Some k => firstn k html ++ cssToInject ++ lit "</head>" ++ skipn (k + 7) html
  | None =>
      match indexOfI true (lit "</body>") html with
      | Some k => firstn k html ++ cssToInject ++ lit "</body>" ++ skipn (k + 7) html
      | None => html ++ cssToInject
      end
  end.
Proof.
  unfold hideBodyText, headRegex, bodyRegex.
  rewrite !includes_toLowerCase by reflexivity.
  rewrite !includesI_indexOfI.
  rewrite !replace_first_Lits by (vm_compute; reflexivity).
  change (length (lit "</head>")) with 7. change (length (lit "</body>")) with 7.
  destruct (indexOfI true (lit "</head>") html).
  - rewrite <- app_assoc. reflexivity.
  - destruct (indexOfI true (lit "</body>") html).
    + rewrite <- app_assoc. reflexivity.
    + reflexivity.
Qed.

Lemma splice_length (s : str) k (block tag : str) :
  k + length tag <= length s ->
  length (firstn k s ++ block ++ tag ++ skipn (k + length tag) s) =
  length s + length block.
Proof.
  intros H. rewrite !length_app, length_firstn, length_skipn. lia.
Qed.

Lemma hideBodyText_length html :
  length (hideBodyText html) = length html + length cssToInject.
Proof.
  rewrite hideBodyText_eq.
  destruct (indexOfI true (lit "</head>") html) as [k|] eqn:Eh.
  - apply indexOfI_Some in Eh as [_ Eh].
    apply (splice_length html k cssToInject (lit "</head>")). exact Eh.
  - destruct (indexOfI true (lit "</body>") html) as [k|] eqn:Eb.
    + apply indexOfI_Some in Eb as [_ Eb].
      apply (splice_length html k cssToInject (lit "</body>")). exact Eb.
    + apply length_app.
Qed.

(** C3: the output of [hideBodyText] is the input with the CSS block
    placed before the first [</head>] (any letter case) if there is one,
    else before the first [</body>], else at the end; its length is the
    input length plus the length of the CSS block. *)
Theorem hideBodyText_placement (html : str) :
  length (hideBodyText html) = length html + length cssToInject /\
  hideBodyText html =
  match indexOfI true (lit "</head>") html with
  | Some k => firstn k html ++ cssToInject ++ lit "</head>" ++ skipn (k + 7) html
  | None =>
      match indexOfI true (lit "</body>") html with
      | Some k => firstn k html ++ cssToInject ++ lit "</body>" ++ skipn (k + 7) html
      | None => html ++ cssToInject
      end
  end.
Proof.
  split; [apply hideBodyText_length|apply hideBodyText_eq].
Qed.

(** ** Occurrences that cannot overlap *)

Lemma startsWithI_nth i n s q :
  startsWithI i n s = true -> q < length n ->
  canonicalize i (nth q n 0%N) = canonicalize i (nth q s 0%N).
Proof.
  revert s q; induction n as [|a n IH]; intros s q H Hq; simpl in Hq; [lia|].
  destruct s as [|c t]; [discriminate|]. simpl in H.
  apply andb_true_iff in H as [H1 H2]. apply N.eqb_eq in H1.
  destruct q as [|q]; simpl; [exact H1|]. apply IH; [exact H2|lia].
Qed.

Lemma nth_skipn_0 (s : str) p q : nth q (skipn p s) 0%N = nth (p + q) s 0%N.
Proof.
  revert s; induction p as [|p IH]; intros s; simpl; [reflexivity|].
  destruct s as [|c t]; [destruct q; reflexivity|]. apply IH.
Qed.

Lemma selfFree_tail i h t q :
  selfFree i (h :: t) = true -> q < length t ->
  canonicalize i h <> canonicalize i (nth q t 0%N).
Proof.
  simpl. intros H Hq E. apply negb_true_iff in H.
  assert (existsb (fun x => (canonicalize i h =? canonicalize i x)%N) t = true) as C.
  { apply existsb_exists. exists (nth q t 0%N). split.
    - apply nth_In. exact Hq.
    - apply N.eqb_eq. exact E. }
  congruence.
Qed.

Lemma no_overlap i n s p :
  selfFree i n = true -> startsWithI i n s = true ->
  0 < p < length n -> startsWithI i n (skipn p s) = false.
Proof.
  intros Hf H0 Hp.
  destruct (startsWithI i n (skipn p s)) eqn:E; [|reflexivity]. exfalso.
  destruct n as [|h t]; [discriminate|].
  pose proof (startsWithI_nth _ _ _ 0 E ltac:(simpl; lia)) as E0.
  rewrite nth_skipn_0, Nat.add_0_r in E0. simpl in E0.
  pose proof (startsWithI_nth _ _ _ p H0 ltac:(lia)) as Ep.
  destruct p as [|p]; [lia|]. simpl in Ep, Hp.
  apply (selfFree_tail i h t p Hf); [lia|]. congruence.
Qed.

Lemma includesI_skip i n s m :
  (forall j, j < m -> startsWithI i n (skipn j s) = false) ->
  includesI i s n = includesI i (skipn m s) n.
Proof.
  revert s; induction m as [|m IH]; intros s H; [reflexivity|].
  destruct s as [|c t].
  - reflexivity.
  - simpl skipn. simpl includesI.
    pose proof (H 0 ltac:(lia)) as H0. simpl in H0. rewrite H0. simpl.
    apply IH. intros j Hj. apply (H (S j)). lia.
Qed.

Lemma includesI_after i n c t :
  selfFree i n = true -> startsWithI i n (c :: t) = true ->
  includesI i (skipn (length n) (c :: t)) n = includesI i t n.
Proof.
  intros Hf H0. destruct n as [|h n']; [discriminate|].
  simpl length. simpl skipn. symmetry. apply includesI_skip.
  intros j Hj. apply (no_overlap i _ _ (S j) Hf H0). simpl. lia.
Qed.

Lemma includesI_lastIndexOfI i n s :
  includesI i s n = match lastIndexOfI i n s with Some _ => true | None => false end.
Proof.
  induction s as [|c t IH]; simpl.
  - destruct (startsWithI i n []); reflexivity.
  - rewrite IH. destruct (lastIndexOfI i n t).
    + apply orb_true_r.
    + rewrite orb_false_r. destruct (startsWithI i n (c :: t)); reflexivity.
Qed.

Lemma lastIndexOfI_Some i n s k :
  lastIndexOfI i n s = Some k ->
  startsWithI i n (skipn k s) = true /\ k + length n <= length s.
Proof.
  revert k; induction s as [|c t IH]; intros k; simpl.
  - destruct (startsWithI i n []) eqn:E; [|discriminate].
    intros [= <-]. split; [exact E|]. apply startsWithI_length in E. simpl in *; lia.
  - destruct (lastIndexOfI i n t) as [j|].
    + intros [= <-]. destruct (IH j eq_refl) as [H1 H2]. split; [exact H1|lia].
    + destruct (startsWithI i n (c :: t)) eqn:E; [|discriminate].
      intros [= <-]. split; [exact E|]. apply startsWithI_length in E. simpl in *; lia.
Qed.

Lemma lastIndexOfI_None i n s j :
  lastIndexOfI i n s = None -> startsWithI i n (skipn j s) = false.
Proof.
  revert j; induction s as [|c t IH]; intros j; simpl.
  - destruct (startsWithI i n []) eqn:E; [discriminate|].
    intros _. destruct j; exact E.
  - destruct (lastIndexOfI i n t); [discriminate|].
    destruct (startsWithI i n (c :: t)) eqn:E; [discriminate|].
    intros _. destruct j as [|j]; simpl; [exact E|]. apply IH; reflexivity.
Qed.

Lemma lastIndexOfI_last i n s k j :
  lastIndexOfI i n s = Some k -> k < j <= length s ->
  startsWithI i n (skipn j s) = false.
Proof.
  revert k j; induction s as [|c t IH]; intros k j; simpl.
  - intros _ Hj. lia.
  - destruct (lastIndexOfI i n t) as [k'|] eqn:E.
    + intros [= <-] Hj. destruct j as [|j]; [lia|]. simpl.
      apply (IH k' j eq_refl). lia.
    + destruct (startsWithI i n (c :: t)); [|discriminate].
      intros [= <-] Hj. destruct j as [|j]; [lia|]. simpl.
      apply lastIndexOfI_None. exact E.
Qed.

(** ** The lookahead pattern: last occurrence *)

Lemma star_greedy_any_find i n s c (g : str -> caps -> str * caps) :
  match star_greedy (mem i anyChar) s c
          (fun x c' => if startsWithI i n x then Some (g x c') else None) with
  | Some _ => true
  | None => false
  end = includesI i s n.
Proof.
  induction s as [|ch t IH]; cbn [star_greedy].
  - simpl. destruct (startsWithI i n []); reflexivity.
  - rewrite mem_anyChar. cbn [includesI]. rewrite <- IH.
    destruct (star_greedy _ t c _); [symmetry; apply orb_true_r|].
    rewrite orb_false_r. destruct (startsWithI i n (ch :: t)); reflexivity.
Qed.

Lemma star_greedy_ext p s c k k' :
  (forall x c', k x c' = k' x c') -> star_greedy p s c k = star_greedy p s c k'.
Proof.
  intros H. induction s as [|ch t IH]; simpl; [apply H|].
  rewrite IH, H. reflexivity.
Qed.

Lemma star_lazy_ext p s c k k' :
  (forall x c', k x c' = k' x c') -> star_lazy p s c k = star_lazy p s c k'.
Proof.
  intros H. induction s as [|ch t IH]; simpl; rewrite H; [reflexivity|].
  rewrite IH. reflexivity.
Qed.

Lemma matcher_ext i r : forall s c k k',
  (forall x c', k x c' = k' x c') -> matcher i r s c k = matcher i r s c k'.
Proof.
  induction r as [|cs|a IHa b IHb|a IHa b IHb|g cs|a IHa|n a IHa|a IHa];
    intros s c k k' H; simpl.
  - apply H.
  - destruct s as [|ch t]; [reflexivity|]. rewrite H. reflexivity.
  - apply IHa. intros x c'. apply IHb. exact H.
  - rewrite (IHa s c k k' H), (IHb s c k k' H). reflexivity.
  - destruct g; [apply star_greedy_ext|apply star_lazy_ext]; exact H.
  - rewrite (IHa s c k k' H), H. reflexivity.
  - apply IHa. intros x c'. apply H.
  - rewrite H. reflexivity.
Qed.

Lemma matchAt_lastOccurrence i g n s :
  matchAt (mkRegExp i g (Seq (Lits n) (NegLook (Seq (Star true anyChar) (Lits n))))) s =
  if startsWithI i n s && negb (includesI i (skipn (length n) s) n)
  then Some (skipn (length n) s, []) else None.
Proof.
  unfold matchAt. simpl. rewrite matcher_Lits.
  destruct (startsWithI i n s); [|reflexivity]. simpl.
  rewrite <- (star_greedy_any_find i n (skipn (length n) s) []
                (fun x c' => (skipn (length n) x, c'))).
  rewrite (star_greedy_ext _ _ _ _
             (fun x c' => if startsWithI i n x then Some (skipn (length n) x, c') else None)).
  2:{ intros x c'. apply matcher_Lits. }
  destruct (star_greedy _ _ _ _); reflexivity.
Qed.

Lemma findFirst_lastIndexOfI i n s :
  selfFree i n = true ->
  findFirst (fun x => if startsWithI i n x && negb (includesI i (skipn (length n) x) n)
                      then Some (skipn (length n) x, @nil (nat * str)) else None) s =
  match lastIndexOfI i n s with
  | Some k => Some (k, (skipn (k + length n) s, []))
  | None => None
  end.
Proof.
  intros Hf. induction s as [|c t IH].
  - simpl. destruct n; [discriminate|]. reflexivity.
  - cbn [findFirst lastIndexOfI]. rewrite IH.
    destruct (startsWithI i n (c :: t)) eqn:E.
    + rewrite includesI_after by assumption.
      rewrite includesI_lastIndexOfI.
      destruct (lastIndexOfI i n t); reflexivity.
    + simpl. destruct (lastIndexOfI i n t); reflexivity.
Qed.

(** The first match of [n(?![\s\S]*n)] is the last occurrence of [n]. *)
Lemma exec_lastOccurrence i g n s :
  selfFree i n = true ->
  exec (mkRegExp i g (Seq (Lits n) (NegLook (Seq (Star true anyChar) (Lits n))))) s =
  match lastIndexOfI i n s with
  | Some k => Some (mkMatch (firstn k s) (firstn (length n) (skipn k s)) []
                            (skipn (k + length n) s))
  | None => None
  end.
Proof.
  intros Hf. rewrite exec_findFirst.
  rewrite (findFirst_ext _
             (fun x => if startsWithI i n x && negb (includesI i (skipn (length n) x) n)
                       then Some (skipn (length n) x, @nil (nat * str)) else None)).
  2:{ intros k. apply matchAt_lastOccurrence. }
  rewrite findFirst_lastIndexOfI by exact Hf.
  destruct (lastIndexOfI i n s) as [k|] eqn:E; [|reflexivity].
  apply lastIndexOfI_Some in E as [_ E].
  f_equal. f_equal.
  replace (skipn (k + length n) s) with (skipn (length n) (skipn k s)).
  2:{ rewrite skipn_skipn. f_equal. lia. }
  apply consumed_skipn. rewrite length_skipn. lia.
Qed.

(** ** injectGameMode *)

Lemma gameScript_plain :
  forallb (fun c => negb (c =? 36)%N) (newline ++ gameScript ++ newline ++ lit "</script>") = true.
Proof. vm_compute. reflexivity. Qed.

Lemma injectGameMode_eq html :
  injectGameMode html =
  match lastIndexOfI true (lit "</script>") html with
  | Some k =>
      firstn k html ++ newline ++ gameScript ++ newline ++ lit "</script>"
        ++ skipn (k + 9) html
  | None => html ++ newScriptElement
  end.
Proof.
  unfold injectGameMode, String_match, replace_first, lastScriptTag.
  rewrite exec_lastOccurrence by reflexivity.
  destruct (lastIndexOfI true (lit "</script>") html) as [k|].
  - cbn [before after nGroups]. rewrite getSubstitution_plain by apply gameScript_plain.
    rewrite <- !app_assoc. reflexivity.
  - unfold newScriptElement. rewrite <- ?app_assoc. reflexivity.
Qed.

(** C1: [injectGameMode] splices the controller script, between two
    line breaks, in front of the last [</script>] closing tag (the
    occurrence, in any letter case, after which no other starts) and
    keeps the text before and after the tag; without any such tag it
    appends a new module script element holding the controller script. *)
Theorem injectGameMode_placement (html : str) :
  match lastIndexOfI true (lit "</script>") html with
  | Some k =>
      injectGameMode html =
      firstn k html ++ (newline ++ gameScript ++ newline) ++ lit "</script>"
        ++ skipn (k + 9) html
  | None =>
      includesI true html (lit "</script>") = false /\
      injectGameMode html =
      html ++ lit "<script type=" ++ dquote ++ lit "module" ++ dquote ++ lit ">"
           ++ gameScript ++ lit "</script>"
  end.
Proof.
  rewrite injectGameMode_eq, includesI_lastIndexOfI.
  destruct (lastIndexOfI true (lit "</script>") html).
  - rewrite <- !app_assoc. reflexivity.
  - split; reflexivity.
Qed.

(** ** Re-application and letter case of the spliced tag *)

Lemma startsWithI_app_long i n u x :
  length n <= length u -> startsWithI i n (u ++ x) = startsWithI i n u.
Proof.
  revert u; induction n as [|a n IH]; intros u H; [reflexivity|].
  destruct u as [|c u]; simpl in H; [lia|].
  simpl. rewrite IH by lia. reflexivity.
Qed.

Lemma startsWithI_blocked i n u c rest :
  existsb (fun x => (canonicalize i x =? canonicalize i c)%N) n = false ->
  length u < length n -> startsWithI i n (u ++ c :: rest) = false.
Proof.
  revert u; induction n as [|a n IH]; intros u H Hu; simpl in Hu; [lia|].
  simpl in H. apply orb_false_iff in H as [H1 H2].
  destruct u as [|d u]; simpl.
  - rewrite H1. reflexivity.
  - rewrite IH; [apply andb_false_r|exact H2|simpl in Hu; lia].
Qed.

Lemma skipn_app_le (u v : str) j :
  j <= length u -> skipn j (u ++ v) = skipn j u ++ v.
Proof.
  intros H. rewrite skipn_app. replace (j - length u) with 0 by lia. reflexivity.
Qed.

Lemma skipn_app_ge (u v : str) j :
  length u <= j -> skipn j (u ++ v) = skipn (j - length u) v.
Proof.
  intros H. rewrite skipn_app, skipn_all2 by exact H. reflexivity.
Qed.

Lemma firstn_app_exact (u v : str) : firstn (length u) (u ++ v) = u.
Proof.
  rewrite firstn_app, Nat.sub_diag, firstn_all. simpl. apply app_nil_r.
Qed.

Lemma skipn_app_exact (u v : str) : skipn (length u) (u ++ v) = v.
Proof. rewrite skipn_app_ge, Nat.sub_diag by lia. reflexivity. Qed.

(** After a block and a fresh tag are put in place of the first
    occurrence, the first occurrence is that fresh tag. *)
Lemma indexOfI_insert i n s k c blk tag rest :
  indexOfI i n s = Some k ->
  indexOfI i n ((c :: blk) ++ tag) = Some (length (c :: blk)) ->
  length tag = length n ->
  existsb (fun x => (canonicalize i x =? canonicalize i c)%N) n = false ->
  indexOfI i n (firstn k s ++ (c :: blk) ++ tag ++ rest) = Some (k + length (c :: blk)).
Proof.
  intros Hs Hb Ht Hc.
  pose proof (indexOfI_Some _ _ _ _ Hs) as [Hs1 Hs2].
  pose proof (indexOfI_Some _ _ _ _ Hb) as [Hb1 Hb2].
  assert (length (firstn k s) = k) as Lk by (rewrite length_firstn; lia).
  apply indexOfI_intro.
  - rewrite skipn_app_ge by lia. rewrite Lk.
    replace (k + length (c :: blk) - k) with (length (c :: blk)) by lia.
    rewrite skipn_app_exact.
    rewrite skipn_app_exact in Hb1. apply startsWithI_app_r. exact Hb1.
  - rewrite !length_app, Lk. lia.
  - intros j Hj. destruct (Nat.lt_ge_cases j k) as [Hjk|Hjk].
    + rewrite skipn_app_le by lia.
      pose proof (indexOfI_first _ _ _ _ j Hs Hjk) as Hno.
      rewrite <- (firstn_skipn k s) in Hno at 1.
      rewrite skipn_app_le in Hno by lia.
      destruct (Nat.le_gt_cases (length n) (length (skipn j (firstn k s)))) as [Hl|Hl].
      * rewrite startsWithI_app_long by exact Hl.
        rewrite startsWithI_app_long in Hno by exact Hl. exact Hno.
      * simpl app. apply startsWithI_blocked; assumption.
    + rewrite skipn_app_ge by lia. rewrite Lk.
      rewrite app_assoc. rewrite skipn_app_le by (rewrite length_app; simpl in *; lia).
      rewrite startsWithI_app_long.
      * apply (indexOfI_first _ _ _ _ (j - k) Hb). lia.
      * rewrite length_skipn, length_app. lia.
Qed.

Lemma includesI_skipn_false i n s m :
  includesI i s n = false -> includesI i (skipn m s) n = false.
Proof.
  revert s; induction m as [|m IH]; intros s H; [exact H|].
  destruct s as [|c t]; [exact H|]. simpl in H. apply orb_false_iff in H as [_ H].
  simpl. apply IH. exact H.
Qed.

Lemma lastIndexOfI_after i n s k :
  n <> [] -> lastIndexOfI i n s = Some k ->
  includesI i (skipn (k + length n) s) n = false.
Proof.
  intros Hn. revert k; induction s as [|c t IH]; intros k; simpl lastIndexOfI.
  - destruct n; [congruence|]. discriminate.
  - destruct (lastIndexOfI i n t) as [k'|] eqn:E.
    + intros [= <-]. simpl. apply IH. reflexivity.
    + destruct (startsWithI i n (c :: t)); [|discriminate].
      intros [= <-]. destruct n as [|h n']; [congruence|].
      simpl. apply includesI_skipn_false.
      rewrite includesI_lastIndexOfI, E. reflexivity.
Qed.

Lemma lastIndexOfI_app i n u w :
  selfFree i n = true -> startsWithI i n w = true ->
  includesI i (skipn (length n) w) n = false ->
  lastIndexOfI i n (u ++ w) = Some (length u).
Proof.
  intros Hf Hw Hno. induction u as [|a u IH].
  - simpl. destruct w as [|c t].
    + destruct n; discriminate.
    + rewrite includesI_after in Hno by assumption.
      rewrite includesI_lastIndexOfI in Hno. simpl.
      destruct (lastIndexOfI i n t); [discriminate|].
      rewrite Hw. reflexivity.
  - simpl. rewrite IH. reflexivity.
Qed.

Lemma cssToInject_head : exists blk, cssToInject = 10%N :: blk.
Proof. eexists. reflexivity. Qed.

Lemma hideBodyText_head html k :
  indexOfI true (lit "</head>") html = Some k ->
  hideBodyText html =
  firstn k html ++ cssToInject ++ lit "</head>" ++ skipn (k + 7) html.
Proof. intros H. rewrite hideBodyText_eq, H. reflexivity. Qed.

Lemma hideBodyText_twice_head html k :
  indexOfI true (lit "</head>") html = Some k ->
  hideBodyText (hideBodyText html) =
  firstn k html ++ cssToInject ++ cssToInject ++ lit "</head>" ++ skipn (k + 7) html.
Proof.
  intros H. rewrite (hideBodyText_head html k H).
  destruct cssToInject_head as [blk Eb].
  assert (indexOfI true (lit "</head>")
            (firstn k html ++ cssToInject ++ lit "</head>" ++ skipn (k + 7) html)
          = Some (k + length cssToInject)) as H2.
  { assert (indexOfI true (lit "</head>") (cssToInject ++ lit "</head>")
            = Some (length cssToInject)) as Hc by (vm_compute; reflexivity).
    rewrite Eb in Hc |- *.
    apply indexOfI_insert; [exact H|exact Hc|reflexivity|reflexivity]. }
  rewrite (hideBodyText_head _ _ H2).
  pose proof (indexOfI_Some _ _ _ _ H) as [_ Hk].
  assert (length (firstn k html) = k) as Lk by (rewrite length_firstn; lia).
  set (A := firstn k html) in *. set (B := skipn (k + 7) html).
  assert (firstn (k + length cssToInject) (A ++ cssToInject ++ lit "</head>" ++ B)
          = A ++ cssToInject) as E1.
  { rewrite app_assoc.
    replace (k + length cssToInject) with (length (A ++ cssToInject))
      by (rewrite length_app; lia).
    apply firstn_app_exact. }
  assert (skipn (k + length cssToInject + 7) (A ++ cssToInject ++ lit "</head>" ++ B)
          = B) as E2.
  { rewrite !app_assoc.
    replace (k + length cssToInject + 7)
      with (length ((A ++ cssToInject) ++ lit "</head>"))
      by (rewrite !length_app; change (length (lit "</head>")) with 7; lia).
    apply skipn_app_exact. }
  rewrite E1, E2, <- app_assoc. reflexivity.
Qed.

Lemma injectGameMode_split u tag rest :
  length tag = 9 ->
  startsWithI true (lit "</script>") tag = true ->
  includesI true rest (lit "</script>") = false ->
  injectGameMode (u ++ tag ++ rest) =
  u ++ (newline ++ gameScript ++ newline) ++ lit "</script>" ++ rest.
Proof.
  intros Ht Hs Hr. rewrite injectGameMode_eq.
  rewrite (lastIndexOfI_app true (lit "</script>") u (tag ++ rest)).
  - rewrite firstn_app_exact.
    replace (skipn (length u + 9) (u ++ tag ++ rest)) with rest.
    + rewrite <- !app_assoc. reflexivity.
    + rewrite app_assoc.
      replace (length u + 9) with (length (u ++ tag)) by (rewrite length_app; lia).
      symmetry. apply skipn_app_exact.
  - reflexivity.
  - apply startsWithI_app_r. exact Hs.
  - change (length (lit "</script>")) with 9. rewrite <- Ht, skipn_app_exact. exact Hr.
Qed.

Lemma injectGameMode_twice html :
  injectGameMode (injectGameMode html) =
  match lastIndexOfI true (lit "</script>") html with
  | Some k =>
      firstn k html ++ (newline ++ gameScript ++ newline)
        ++ (newline ++ gameScript ++ newline) ++ lit "</script>" ++ skipn (k + 9) html
  | None =>
      html ++ lit "<script type=" ++ dquote ++ lit "module" ++ dquote ++ lit ">"
           ++ gameScript ++ (newline ++ gameScript ++ newline) ++ lit "</script>"
  end.
Proof.
  rewrite (injectGameMode_eq html).
  destruct (lastIndexOfI true (lit "</script>") html) as [k|] eqn:E.
  - apply lastIndexOfI_after in E; [|discriminate].
    change (length (lit "</script>")) with 9 in E.
    transitivity
      (injectGameMode ((firstn k html ++ newline ++ gameScript ++ newline)
                         ++ lit "</script>" ++ skipn (k + 9) html)).
    { f_equal. rewrite <- !app_assoc. reflexivity. }
    rewrite (injectGameMode_split _ (lit "</script>") _ eq_refl eq_refl E).
    rewrite <- !app_assoc. reflexivity.
  - unfold newScriptElement.
    transitivity
      (injectGameMode ((html ++ lit "<script type=" ++ dquote ++ lit "module" ++ dquote
                             ++ lit ">" ++ gameScript) ++ lit "</script>" ++ [])).
    { f_equal. rewrite app_nil_r, <- !app_assoc. reflexivity. }
    rewrite (injectGameMode_split _ (lit "</script>") [] eq_refl eq_refl eq_refl).
    rewrite app_nil_r, <- !app_assoc. reflexivity.
Qed.

(** C8: neither stage recognises its own output.  A second
    [hideBodyText] adds a second CSS block (two block lengths in all;
    with a [</head>] both copies stand before it), and a second
    [injectGameMode] adds a second copy of the controller script in front
    of the same closing tag; the text around them is kept. *)
Theorem reapplication_duplicates (html : str) (k : nat) :
  length (hideBodyText (hideBodyText html)) = length html + 2 * length cssToInject /\
  (indexOfI true (lit "</head>") html = Some k ->
   hideBodyText (hideBodyText html) =
   firstn k html ++ cssToInject ++ cssToInject ++ lit "</head>" ++ skipn (k + 7) html) /\
  (lastIndexOfI true (lit "</script>") html = Some k ->
   injectGameMode (injectGameMode html) =
   firstn k html ++ (newline ++ gameScript ++ newline)
     ++ (newline ++ gameScript ++ newline) ++ lit "</script>" ++ skipn (k + 9) html) /\
  (lastIndexOfI true (lit "</script>") html = None ->
   injectGameMode (injectGameMode html) =
   html ++ lit "<script type=" ++ dquote ++ lit "module" ++ dquote ++ lit ">"
        ++ gameScript ++ (newline ++ gameScript ++ newline) ++ lit "</script>").
Proof.
  repeat split.
  - rewrite !hideBodyText_length. lia.
  - apply hideBodyText_twice_head.
  - intros H. rewrite injectGameMode_twice, H. reflexivity.
  - intros H. rewrite injectGameMode_twice, H. reflexivity.
Qed.

Lemma reapplication_duplicates_witness :
  hideBodyText (hideBodyText (lit "<html><head></HEAD><body><script>x</SCRIPT></body></html>")) =
    lit "<html><head>" ++ cssToInject ++ cssToInject
      ++ lit "</head><body><script>x</SCRIPT></body></html>" /\
  injectGameMode (injectGameMode (lit "<html><head></HEAD><body><script>x</SCRIPT></body></html>")) =
    lit "<html><head></HEAD><body><script>x" ++ (newline ++ gameScript ++ newline)
      ++ (newline ++ gameScript ++ newline) ++ lit "</script></body></html>" /\
  injectGameMode (injectGameMode (lit "<p>text</p>")) =
    lit "<p>text</p>" ++ lit "<script type=" ++ dquote ++ lit "module" ++ dquote ++ lit ">"
      ++ gameScript ++ (newline ++ gameScript ++ newline) ++ lit "</script>".
Proof.
  split; [|split].
  - apply (proj1 (proj2
             (reapplication_duplicates
                (lit "<html><head></HEAD><body><script>x</SCRIPT></body></html>") 12))).
    vm_compute. reflexivity.
  - apply (proj1 (proj2 (proj2
             (reapplication_duplicates
                (lit "<html><head></HEAD><body><script>x</SCRIPT></body></html>") 34)))).
    vm_compute. reflexivity.
  - apply (proj2 (proj2 (proj2 (reapplication_duplicates (lit "<p>text</p>") 0)))).
    vm_compute. reflexivity.
Defined.


Lemma nth_app_exact (u v : str) c : nth (length u) (u ++ c :: v) 0%N = c.
Proof. rewrite app_nth2, Nat.sub_diag by lia. reflexivity. Qed.

(** Putting a block and a tag of another spelling in place of the tag
    at [k] is not an insertion of the block, wherever the block would
    go. *)
Lemma splice_neq (s : str) k j c blk tag :
  k + length tag <= length s ->
  firstn (length tag) (skipn k s) <> tag ->
  nth k s 0%N <> c ->
  firstn k s ++ (c :: blk) ++ tag ++ skipn (k + length tag) s <>
  firstn j s ++ (c :: blk) ++ skipn j s.
Proof.
  intros Hk Ht Hc E.
  assert (length (firstn k s) = k) as Lk by (rewrite length_firstn; lia).
  destruct (Nat.le_gt_cases j k) as [Hj|Hj].
  - assert (length (firstn j s) = j) as Lj by (rewrite length_firstn; lia).
    apply (f_equal (fun x => firstn (length tag) (skipn (k + length (c :: blk)) x))) in E.
    rewrite (app_assoc (firstn k s)) in E.
    replace (k + length (c :: blk)) with (length (firstn k s ++ c :: blk)) in E at 1
      by (rewrite length_app; lia).
    rewrite skipn_app_exact, firstn_app_exact in E.
    rewrite (app_assoc (firstn j s)) in E.
    rewrite skipn_app_ge in E by (rewrite length_app; lia).
    rewrite length_app, Lj in E.
    replace (k + length (c :: blk) - (j + length (c :: blk))) with (k - j) in E by lia.
    rewrite skipn_skipn in E. replace (k - j + j) with k in E by lia.
    apply Ht. symmetry. exact E.
  - apply (f_equal (fun x => nth k x 0%N)) in E.
    rewrite <- Lk in E at 1. simpl app in E at 1. rewrite nth_app_exact in E.
    rewrite app_nth1 in E.
    + rewrite nth_firstn in E.
      destruct (Nat.ltb_spec k j); [|lia]. apply Hc. symmetry. exact E.
    + rewrite length_firstn.
      assert (0 < length tag).
      { destruct tag; [exfalso; apply Ht; reflexivity|simpl; lia]. }
      lia.
Qed.

Lemma canonicalize_lt c : canonicalize true c = 60%N -> c = 60%N.
Proof. unfold canonicalize. intros H. N_cases; lia. Qed.

Lemma occurrence_head i h n s k :
  startsWithI i (h :: n) (skipn k s) = true ->
  canonicalize i h = canonicalize i (nth k s 0%N).
Proof.
  intros H. pose proof (startsWithI_nth _ _ _ 0 H ltac:(simpl; lia)) as E.
  rewrite nth_skipn_0, Nat.add_0_r in E. exact E.
Qed.

Lemma hideBodyText_not_insertion (html : str) k j (tag : str) :
  length tag = 7 ->
  startsWithI true (60%N :: tl tag) (skipn k html) = true ->
  k + 7 <= length html ->
  firstn 7 (skipn k html) <> tag ->
  firstn k html ++ cssToInject ++ tag ++ skipn (k + 7) html <>
  firstn j html ++ cssToInject ++ skipn j html.
Proof.
  intros Ht Hs Hk Hneq.
  destruct cssToInject_head as [blk Eb]. rewrite Eb.
  rewrite <- Ht. apply splice_neq; [rewrite Ht; exact Hk|rewrite Ht; exact Hneq|].
  apply occurrence_head in Hs. symmetry in Hs. apply canonicalize_lt in Hs.
  rewrite Hs. discriminate.
Qed.

(** C10: the spliced tag is written back in small letters.  When the
    first [</head>] (or, without one, the first [</body>]) or the last
    [</script>] is spelled with a capital, the output carries the
    lower-case tag after the inserted block, and is not the input with
    the block inserted at any position. *)
Theorem tag_case_normalized (html : str) (k : nat) :
  (indexOfI true (lit "</head>") html = Some k ->
   firstn 7 (skipn k html) <> lit "</head>" ->
   hideBodyText html =
     firstn k html ++ cssToInject ++ lit "</head>" ++ skipn (k + 7) html /\
   forall j, hideBodyText html <> firstn j html ++ cssToInject ++ skipn j html) /\
  (indexOfI true (lit "</head>") html = None ->
   indexOfI true (lit "</body>") html = Some k ->
   firstn 7 (skipn k html) <> lit "</body>" ->
   hideBodyText html =
     firstn k html ++ cssToInject ++ lit "</body>" ++ skipn (k + 7) html /\
   forall j, hideBodyText html <> firstn j html ++ cssToInject ++ skipn j html) /\
  (lastIndexOfI true (lit "</script>") html = Some k ->
   firstn 9 (skipn k html) <> lit "</script>" ->
   injectGameMode html =
     firstn k html ++ (newline ++ gameScript ++ newline) ++ lit "</script>"
       ++ skipn (k + 9) html /\
   forall j, injectGameMode html <>
             firstn j html ++ (newline ++ gameScript ++ newline) ++ skipn j html).
Proof.
  split; [|split].
  - intros H Hn. rewrite hideBodyText_eq, H. split; [reflexivity|].
    intros j. apply indexOfI_Some in H as [H1 H2].
    apply (hideBodyText_not_insertion html k j (lit "</head>")); auto.
  - intros Hh H Hn. rewrite hideBodyText_eq, Hh, H. split; [reflexivity|].
    intros j. apply indexOfI_Some in H as [H1 H2].
    apply (hideBodyText_not_insertion html k j (lit "</body>")); auto.
  - intros H Hn. rewrite injectGameMode_eq, H. split.
    + rewrite <- !app_assoc. reflexivity.
    + intros j. apply lastIndexOfI_Some in H as [H1 H2].
      change (length (lit "</script>")) with 9 in H2.
      pose proof (splice_neq html k j 10%N (gameScript ++ newline) (lit "</script>") H2 Hn) as P.
      rewrite <- !app_assoc in *. apply P.
      apply occurrence_head in H1. symmetry in H1. apply canonicalize_lt in H1.
      rewrite H1. discriminate.
Qed.

Lemma tag_case_normalized_witness :
  hideBodyText (lit "<HEAD></HEAD><BODY><SCRIPT>x</SCRIPT></BODY>") =
    lit "<HEAD>" ++ cssToInject ++ lit "</head><BODY><SCRIPT>x</SCRIPT></BODY>" /\
  hideBodyText (lit "<BODY><SCRIPT>x</SCRIPT></BODY>") =
    lit "<BODY><SCRIPT>x</SCRIPT>" ++ cssToInject ++ lit "</body>" /\
  injectGameMode (lit "<BODY><SCRIPT>x</SCRIPT></BODY>") =
    lit "<BODY><SCRIPT>x" ++ (newline ++ gameScript ++ newline) ++ lit "</script></BODY>".
Proof.
  split; [|split].
  - refine (proj1 (proj1 (tag_case_normalized
                            (lit "<HEAD></HEAD><BODY><SCRIPT>x</SCRIPT></BODY>") 6) _ _)).
    + vm_compute. reflexivity.
    + vm_compute. discriminate.
  - refine (proj1 (proj1 (proj2 (tag_case_normalized
                                   (lit "<BODY><SCRIPT>x</SCRIPT></BODY>") 24)) _ _ _)).
    + vm_compute. reflexivity.
    + vm_compute. reflexivity.
    + vm_compute. discriminate.
  - refine (proj1 (proj2 (proj2 (tag_case_normalized
                                   (lit "<BODY><SCRIPT>x</SCRIPT></BODY>") 15)) _ _)).
    + vm_compute. reflexivity.
    + vm_compute. discriminate.
Defined.


(** ** extractHtmlFromText *)

Lemma star_lazy_any_find i n x c (g : str -> caps -> str * caps) :
  star_lazy (mem i anyChar) x c
    (fun y c2 => if startsWithI i n y then Some (g y c2) else None) =
  match indexOfI i n x with
  | Some k => Some (g (skipn k x) c)
  | None => None
  end.
Proof.
  induction x as [|ch t IH]; cbn [star_lazy indexOfI].
  - destruct (startsWithI i n []); reflexivity.
  - destruct (startsWithI i n (ch :: t)); [reflexivity|].
    rewrite mem_anyChar, IH. destruct (indexOfI i n t); reflexivity.
Qed.

Lemma findFirst_map {A B : Type} (f : str -> option A) (h : str -> A -> B) s :
  findFirst (fun x => option_map (h x) (f x)) s =
  match findFirst f s with
  | Some (k, a) => Some (k, h (skipn k s) a)
  | None => None
  end.
Proof.
  induction s as [|c t IH]; simpl.
  - destruct (f []); reflexivity.
  - destruct (f (c :: t)); simpl; [reflexivity|].
    rewrite IH. destruct (findFirst f t) as [[k a]|]; reflexivity.
Qed.

Lemma findFirst_Some {A : Type} (f : str -> option A) s k a :
  findFirst f s = Some (k, a) ->
  f (skipn k s) = Some a /\ k <= length s /\
  forall j, j < k -> f (skipn j s) = None.
Proof.
  revert k; induction s as [|c t IH]; intros k; simpl.
  - destruct (f []) eqn:E; [|discriminate]. intros [= <- <-].
    repeat split; auto. intros j Hj; lia.
  - destruct (f (c :: t)) eqn:E.
    + intros [= <- <-]. repeat split; auto; [lia|]. intros j Hj; lia.
    + destruct (findFirst f t) as [[k' a']|] eqn:E'; [|discriminate].
      intros [= <- <-]. destruct (IH k' eq_refl) as [H1 [H2 H3]].
      repeat split; auto; [lia|].
      intros [|j] Hj; simpl; [exact E|]. apply H3. lia.
Qed.

Lemma findFirst_None {A : Type} (f : str -> option A) s :
  findFirst f s = None -> forall j, f (skipn j s) = None.
Proof.
  induction s as [|c t IH]; simpl.
  - destruct (f []) eqn:E; [discriminate|]. intros _ [|j]; exact E.
  - destruct (f (c :: t)) eqn:E; [discriminate|].
    destruct (findFirst f t) as [[k a]|]; [discriminate|].
    intros _ [|j]; simpl; [exact E|]. apply IH. reflexivity.
Qed.

Lemma findFirst_intro {A : Type} (f : str -> option A) s k :
  k <= length s -> f (skipn k s) <> None -> findFirst f s <> None.
Proof.
  revert k; induction s as [|c t IH]; intros k Hk Hf; simpl.
  - simpl in Hk. assert (k = 0) by lia; subst. simpl in Hf.
    destruct (f []); [discriminate|congruence].
  - destruct (f (c :: t)) eqn:E; [discriminate|].
    destruct k as [|k]; simpl in *; [congruence|].
    specialize (IH k ltac:(lia) Hf).
    destruct (findFirst f t) as [[k' a]|]; [discriminate|congruence].
Qed.

Lemma openMarker_exclusive s :
  startsWithI true (lit "<!DOCTYPE html>") s = true ->
  startsWithI true (lit "<html") s = false.
Proof.
  change (lit "<!DOCTYPE html>") with (60 :: 33 :: lit "DOCTYPE html>")%N.
  change (lit "<html") with (60 :: 104 :: lit "tml")%N.
  destruct s as [|c0 [|c1 t]]; cbn [startsWithI]; intros H;
    [discriminate|rewrite andb_false_r in H; discriminate|].
  apply andb_true_iff in H as [_ H]. apply andb_true_iff in H as [H _].
  apply N.eqb_eq in H.
  replace (canonicalize true 104 =? canonicalize true c1)%N with false.
  - rewrite andb_false_r. reflexivity.
  - symmetry. apply N.eqb_neq. rewrite <- H. discriminate.
Qed.

Lemma matchAt_htmlRegex s :
  matchAt htmlRegex s =
  option_map (fun len =>
                (skipn len s,
                 [(1, consumed s (skipn (match openMarker s with Some m => m | None => 0 end) s))]))
             (htmlSpanAt s).
Proof.
  unfold matchAt, htmlRegex. cbn [matcher body ignoreCase].
  assert (forall m x,
             star_lazy (mem true anyChar) x [(1, consumed s (skipn m s))]
               (fun s' c' => matcher true (Lits (lit "</html>")) s' c' accept) =
             match indexOfI true (lit "</html>") x with
             | Some k => Some (skipn (k + 7) x, [(1, consumed s (skipn m s))])
             | None => None
             end) as K.
  { intros m x.
    rewrite (star_lazy_ext _ _ _ _
               (fun y c2 => if startsWithI true (lit "</html>") y
                            then Some (skipn 7 y, c2) else None)).
    2:{ intros y c2. apply matcher_Lits. }
    rewrite (star_lazy_any_find true (lit "</html>") x _ (fun y c2 => (skipn 7 y, c2))).
    destruct (indexOfI true (lit "</html>") x); [|reflexivity].
    rewrite skipn_skipn. rewrite (Nat.add_comm 7). reflexivity. }
  rewrite !matcher_Lits. unfold htmlSpanAt, openMarker.
  change (length (lit "<!DOCTYPE html>")) with 15.
  change (length (lit "<html")) with 5.
  destruct (startsWithI true (lit "<!DOCTYPE html>") s) eqn:E1.
  - rewrite (openMarker_exclusive s E1). rewrite K.
    destruct (indexOfI true (lit "</html>") (skipn 15 s)) as [k|]; cbn [option_map].
    + rewrite skipn_skipn. replace (k + 7 + 15) with (15 + k + 7) by lia. reflexivity.
    + reflexivity.
  - destruct (startsWithI true (lit "<html") s) eqn:E2; [|reflexivity].
    rewrite K.
    destruct (indexOfI true (lit "</html>") (skipn 5 s)) as [k|]; cbn [option_map].
    + rewrite skipn_skipn. replace (k + 7 + 5) with (5 + k + 7) by lia. reflexivity.
    + reflexivity.
Qed.

Lemma htmlSpanAt_le s len : htmlSpanAt s = Some len -> 0 < len <= length s.
Proof.
  unfold htmlSpanAt. destruct (openMarker s) as [m|]; [|discriminate].
  destruct (indexOfI true (lit "</html>") (skipn m s)) as [k|] eqn:E; [|discriminate].
  intros [= <-]. apply indexOfI_Some in E as [_ E].
  change (length (lit "</html>")) with 7 in E. rewrite length_skipn in E. lia.
Qed.

Lemma exec_htmlRegex s :
  option_map matched (exec htmlRegex s) =
  option_map (fun '(k, len) => firstn len (skipn k s)) (findFirst htmlSpanAt s).
Proof.
  rewrite exec_findFirst.
  rewrite (findFirst_ext _
             (fun x => option_map (fun len => (skipn len x,
                 [(1, consumed x (skipn (match openMarker x with Some m => m | None => 0 end) x))]))
                         (htmlSpanAt x))).
  2:{ intros k. apply matchAt_htmlRegex. }
  rewrite (findFirst_map htmlSpanAt
             (fun x len => (skipn len x,
                 [(1, consumed x (skipn (match openMarker x with Some m => m | None => 0 end) x))]))).
  destruct (findFirst htmlSpanAt s) as [[k len]|] eqn:E; [|reflexivity].
  cbn [option_map matched]. f_equal.
  apply findFirst_Some in E as [E _]. apply htmlSpanAt_le in E.
  apply consumed_skipn. lia.
Qed.

Lemma canonicalize_false c : canonicalize false c = c.
Proof. reflexivity. Qed.

Lemma startsWithI_false_eq n s :
  startsWithI false n s = true -> s = n ++ skipn (length n) s.
Proof.
  revert s; induction n as [|a n IH]; intros [|c t]; simpl; try discriminate; auto.
  intros H. apply andb_true_iff in H as [H1 H2]. apply N.eqb_eq in H1.
  rewrite !canonicalize_false in H1. subst. f_equal. apply IH. exact H2.
Qed.

Lemma fence_not_space a t :
  isWhiteSpace a = true -> startsWithI false (lit "```") (a :: t) = false.
Proof.
  intros H. change (lit "```") with (96 :: lit "``")%N. cbn [startsWithI].
  rewrite !canonicalize_false.
  destruct (N.eqb_spec 96 a) as [<-|]; [discriminate|reflexivity].
Qed.

Lemma trim_space_cons a y : isWhiteSpace a = true -> trim (a :: y) = trim y.
Proof. intros H. unfold trim. simpl. rewrite H. reflexivity. Qed.

Lemma fence_trim r :
  option_map (fun k => trim (firstn k (trimStart r)))
             (indexOfI false (lit "```") (trimStart r)) =
  option_map (fun k => trim (firstn k r)) (indexOfI false (lit "```") r).
Proof.
  induction r as [|a t IH]; [reflexivity|].
  cbn [trimStart]. destruct (isWhiteSpace a) eqn:E; [|reflexivity].
  rewrite IH. cbn [indexOfI]. rewrite (fence_not_space a t E).
  destruct (indexOfI false (lit "```") t) as [k|]; [|reflexivity].
  cbn [option_map firstn]. rewrite trim_space_cons by exact E. reflexivity.
Qed.

Lemma indexOfI_trimStart_None r :
  indexOfI false (lit "```") (trimStart r) = None ->
  indexOfI false (lit "```") r = None.
Proof.
  intros H. pose proof (fence_trim r) as F. rewrite H in F.
  destruct (indexOfI false (lit "```") r); [discriminate|reflexivity].
Qed.

Lemma fence_body y c :
  star_greedy (mem false CSpace) y c
    (fun z c' =>
       star_lazy (mem false anyChar) z c'
         (fun w c3 => matcher false (Lits (lit "```")) w ((1, consumed z w) :: c3) accept)) =
  match indexOfI false (lit "```") (trimStart y) with
  | Some k => Some (skipn (k + 3) (trimStart y), (1, firstn k (trimStart y)) :: c)
  | None => None
  end.
Proof.
  assert (forall z c',
             star_lazy (mem false anyChar) z c'
               (fun w c3 => matcher false (Lits (lit "```")) w ((1, consumed z w) :: c3) accept) =
             match indexOfI false (lit "```") z with
             | Some k => Some (skipn (k + 3) z, (1, firstn k z) :: c')
             | None => None
             end) as K.
  { intros z c'.
    rewrite (star_lazy_ext _ _ _ _
               (fun w c3 => if startsWithI false (lit "```") w
                            then Some (skipn 3 w, (1, consumed z w) :: c3) else None)).
    2:{ intros w c3. apply matcher_Lits. }
    pose proof (star_lazy_any_find false (lit "```") z c'
                  (fun w c3 => (skipn 3 w, (1, consumed z w) :: c3))) as P.
    cbv beta in P. etransitivity; [exact P|]. clear P.
    destruct (indexOfI false (lit "```") z) as [k|] eqn:E; [|reflexivity].
    apply indexOfI_Some in E as [_ E].
    rewrite skipn_skipn, (Nat.add_comm 3), consumed_skipn by lia. reflexivity. }
  induction y as [|ch t IH]; cbn [star_greedy trimStart].
  - apply K.
  - change (mem false CSpace ch) with (isWhiteSpace ch).
    destruct (isWhiteSpace ch) eqn:E; [|apply K].
    rewrite IH.
    destruct (indexOfI false (lit "```") (trimStart t)) as [k|] eqn:Et; [reflexivity|].
    rewrite K. apply indexOfI_trimStart_None in Et.
    cbn [indexOfI]. rewrite (fence_not_space ch t E), Et. reflexivity.
Qed.

Lemma html_then_no_fence r :
  startsWithI false (lit "html") r = true ->
  indexOfI false (lit "```") (trimStart (skipn 4 r)) = None ->
  indexOfI false (lit "```") (trimStart r) = None.
Proof.
  intros H Hn. apply indexOfI_trimStart_None in Hn.
  apply startsWithI_false_eq in H. change (length (lit "html")) with 4 in H.
  remember (skipn 4 r) as x eqn:Ex. clear Ex. subst r.
  change (lit "html") with [104; 116; 109; 108]%N.
  change (lit "```") with [96; 96; 96]%N in *.
  cbn. rewrite Hn. reflexivity.
Qed.

Lemma matchAt_codeBlockRegex s : matchAt codeBlockRegex s = codeBlockAt s.
Proof.
  unfold matchAt, codeBlockRegex, codeBlockAt. cbn [matcher body ignoreCase].
  rewrite matcher_Lits, startsWithI_false_exact.
  destruct (startsWith (lit "```") s); [|reflexivity].
  change (length (lit "```")) with 3. cbv zeta.
  rewrite matcher_Lits, startsWithI_false_exact, !fence_body.
  change (length (lit "html")) with 4.
  destruct (startsWith (lit "html") (skipn 3 s)) eqn:E; [|reflexivity].
  destruct (indexOfI false (lit "```") (trimStart (skipn 4 (skipn 3 s)))) eqn:E2;
    [reflexivity|].
  rewrite html_then_no_fence; [reflexivity| |exact E2].
  rewrite startsWithI_false_exact. exact E.
Qed.

Lemma findFirst_proj {A B C : Type} (f : str -> option A) (g : str -> option B)
      (pa : A -> C) (pb : B -> C) s :
  (forall k, option_map pa (f (skipn k s)) = option_map pb (g (skipn k s))) ->
  option_map (fun ka => (fst ka, pa (snd ka))) (findFirst f s) =
  option_map (fun kb => (fst kb, pb (snd kb))) (findFirst g s).
Proof.
  induction s as [|c t IH]; intros H.
  - pose proof (H 0) as H0. simpl in *.
    destruct (f []), (g []); simpl in *; congruence.
  - pose proof (H 0) as H0. simpl in H0. simpl.
    specialize (IH (fun k => H (S k))).
    destruct (f (c :: t)), (g (c :: t)); simpl in *; try congruence.
    destruct (findFirst f t) as [[k a]|], (findFirst g t) as [[k' b]|];
      simpl in *; congruence.
Qed.

Lemma codeBlockAt_fenceAt x :
  option_map (fun sc => option_map trim (capture 1 (snd sc))) (codeBlockAt x) =
  option_map (fun inner => Some (trim inner)) (fenceAt x).
Proof.
  unfold codeBlockAt, fenceAt. destruct (startsWith (lit "```") x); [|reflexivity].
  cbv zeta.
  set (r' := if startsWith (lit "html") (skipn 3 x) then skipn 4 (skipn 3 x) else skipn 3 x).
  pose proof (fence_trim r') as F.
  destruct (indexOfI false (lit "```") (trimStart r')),
           (indexOfI false (lit "```") r'); simpl in *; congruence.
Qed.

(** The extractor meets its three-tier contract. *)
Lemma extractHtmlFromText_spec text :
  extractHtmlFromText text = Return (extract_spec text).
Proof.
  unfold extractHtmlFromText, extract_spec, String_match.
  destruct text as [|c0 t0]; [reflexivity|].
  set (text := c0 :: t0).
  pose proof (exec_htmlRegex text) as E1.
  destruct (exec htmlRegex text) as [r|];
    destruct (findFirst htmlSpanAt text) as [[k len]|]; simpl in E1; try discriminate.
  - injection E1 as ->. reflexivity.
  - clear E1. rewrite exec_findFirst.
    rewrite (findFirst_ext _ codeBlockAt) by (intros; apply matchAt_codeBlockRegex).
    pose proof (findFirst_proj codeBlockAt fenceAt
                  (fun sc => option_map trim (capture 1 (snd sc)))
                  (fun inner => Some (trim inner)) text
                  (fun k => codeBlockAt_fenceAt (skipn k text))) as P.
    destruct (findFirst codeBlockAt text) as [[k [s' c]]|];
      destruct (findFirst fenceAt text) as [[k' inner]|]; simpl in P; try discriminate.
    + injection P as _ P. cbn [groups].
      destruct (capture 1 c); simpl in P; [|discriminate].
      injection P as ->. reflexivity.
    + reflexivity.
Qed.

Lemma includesI_false_all i n s k :
  includesI i s n = false -> startsWithI i n (skipn k s) = false.
Proof.
  rewrite includesI_indexOfI. destruct (indexOfI i n s) eqn:E; [discriminate|].
  intros _. apply indexOfI_None. exact E.
Qed.

Lemma findFirst_None_intro {A : Type} (f : str -> option A) s :
  (forall k, f (skipn k s) = None) -> findFirst f s = None.
Proof.
  induction s as [|c t IH]; intros H; simpl.
  - pose proof (H 0) as H0. simpl in H0. rewrite H0. reflexivity.
  - pose proof (H 0) as H0. simpl in H0. rewrite H0.
    rewrite IH; [reflexivity|]. intros k. apply (H (S k)).
Qed.

Lemma htmlSpanAt_no_marker s :
  startsWithI true (lit "<!DOCTYPE html>") s = false ->
  startsWithI true (lit "<html") s = false ->
  htmlSpanAt s = None.
Proof. intros H1 H2. unfold htmlSpanAt, openMarker. rewrite H1, H2. reflexivity. Qed.

Lemma fenceAt_no_fence s : startsWith (lit "```") s = false -> fenceAt s = None.
Proof. intros H. unfold fenceAt. rewrite H. reflexivity. Qed.

Lemma extract_spec_plain s :
  includesI true s (lit "<!DOCTYPE html>") = false ->
  includesI true s (lit "<html") = false ->
  includes s (lit "```") = false ->
  extract_spec s = trim s.
Proof.
  intros H1 H2 H3. unfold extract_spec. destruct s as [|c t]; [reflexivity|].
  rewrite findFirst_None_intro.
  2:{ intros k. apply htmlSpanAt_no_marker; apply includesI_false_all; assumption. }
  rewrite findFirst_None_intro; [reflexivity|].
  intros k. apply fenceAt_no_fence. rewrite <- startsWithI_false_exact.
  apply includesI_false_all. rewrite includesI_false_exact. exact H3.
Qed.

(** C2: the extractor follows the three tiers of [extract_spec]: the
    empty string for an empty input; else the span from the leftmost
    opening marker that has a closing [</html>] after it through the
    first such closing tag, as written in the input; else the trimmed
    interior of the leftmost fenced block; else the trimmed input.  In
    particular a text without markers and without code fences is
    trimmed. *)
Theorem extractHtmlFromText_contract (s : str) :
  extractHtmlFromText s = Return (extract_spec s) /\
  (includesI true s (lit "<!DOCTYPE html>") = false ->
   includesI true s (lit "<html") = false ->
   includes s (lit "```") = false ->
   extractHtmlFromText s = Return (trim s)).
Proof.
  split; [apply extractHtmlFromText_spec|].
  intros H1 H2 H3. rewrite extractHtmlFromText_spec, extract_spec_plain by assumption.
  reflexivity.
Qed.

Lemma extractHtmlFromText_contract_witness :
  extractHtmlFromText (lit "  no markup here ") = Return (trim (lit "  no markup here ")).
Proof.
  apply (proj2 (extractHtmlFromText_contract (lit "  no markup here ")));
    vm_compute; reflexivity.
Defined.


(** ** Trimming *)

Lemma trimStart_split s : exists w, s = w ++ trimStart s.
Proof.
  induction s as [|c t [w IH]]; [exists []; reflexivity|].
  simpl. destruct (isWhiteSpace c).
  - exists (c :: w). simpl. f_equal. exact IH.
  - exists []. reflexivity.
Qed.

Lemma trimStart_headOK s : headOK (trimStart s) = true.
Proof.
  induction s as [|c t IH]; [reflexivity|].
  simpl. destruct (isWhiteSpace c) eqn:E; [exact IH|]. simpl. rewrite E. reflexivity.
Qed.

Lemma trimStart_id s : headOK s = true -> trimStart s = s.
Proof.
  destruct s as [|c t]; [reflexivity|]. simpl.
  destruct (isWhiteSpace c); [discriminate|reflexivity].
Qed.

Lemma trimStart_idempotent s : trimStart (trimStart s) = trimStart s.
Proof. apply trimStart_id, trimStart_headOK. Qed.

Lemma trimEnd_split s : exists w, s = trimEnd s ++ w.
Proof.
  unfold trimEnd. destruct (trimStart_split (rev s)) as [w H].
  exists (rev w). rewrite <- rev_app_distr, <- H, rev_involutive. reflexivity.
Qed.

Lemma trimEnd_idempotent s : trimEnd (trimEnd s) = trimEnd s.
Proof. unfold trimEnd. rewrite rev_involutive, trimStart_idempotent. reflexivity. Qed.

Lemma trimEnd_headOK s : headOK s = true -> headOK (trimEnd s) = true.
Proof.
  intros H. destruct (trimEnd_split s) as [w E].
  destruct (trimEnd s) as [|c t]; [reflexivity|].
  rewrite E in H. exact H.
Qed.

Lemma trim_idempotent s : trim (trim s) = trim s.
Proof.
  unfold trim. rewrite (trimStart_id (trimEnd (trimStart s))).
  - apply trimEnd_idempotent.
  - apply trimEnd_headOK, trimStart_headOK.
Qed.

Lemma substr_refl s : substr s s.
Proof. exists [], []. rewrite app_nil_r. reflexivity. Qed.

Lemma substr_trans a b c : substr a b -> substr b c -> substr a c.
Proof.
  intros [x [y H1]] [u [v H2]]. exists (u ++ x), (y ++ v).
  rewrite H2, H1, <- !app_assoc. reflexivity.
Qed.

Lemma substr_trim s : substr (trim s) s.
Proof.
  unfold trim. destruct (trimStart_split s) as [w1 H1].
  destruct (trimEnd_split (trimStart s)) as [w2 H2].
  exists w1, w2. rewrite <- H2. exact H1.
Qed.

Lemma substr_skipn k (s : str) : substr (skipn k s) s.
Proof. exists (firstn k s), []. rewrite app_nil_r. symmetry. apply firstn_skipn. Qed.

Lemma substr_firstn k (s : str) : substr (firstn k s) s.
Proof. exists [], (skipn k s). symmetry. apply firstn_skipn. Qed.

(** ** Occurrences in a part of a text *)

Lemma includesI_app_r i n s b :
  includesI i s n = true -> includesI i (s ++ b) n = true.
Proof.
  induction s as [|c t IH]; simpl.
  - rewrite orb_false_r. intros H.
    destruct b; simpl; [rewrite H; reflexivity|].
    destruct n; [reflexivity|discriminate].
  - intros H. apply orb_true_iff in H as [H|H].
    + pose proof (startsWithI_app_r i n (c :: t) b H) as H'. simpl in H'.
      rewrite H'. reflexivity.
    + rewrite (IH H). apply orb_true_r.
Qed.

Lemma includesI_app_l i n a s :
  includesI i s n = true -> includesI i (a ++ s) n = true.
Proof.
  intros H. induction a as [|c t IH]; [exact H|].
  simpl. rewrite IH. apply orb_true_r.
Qed.

Lemma includesI_substr i n c s :
  substr c s -> includesI i c n = true -> includesI i s n = true.
Proof.
  intros [a [b ->]] H. apply includesI_app_l, includesI_app_r. exact H.
Qed.

Lemma isSome_htmlSpanAt x : isSome (htmlSpanAt x) = spanStartAt x.
Proof.
  unfold htmlSpanAt, openMarker, spanStartAt. rewrite !includesI_indexOfI.
  destruct (startsWithI true (lit "<!DOCTYPE html>") x) eqn:E1.
  - rewrite (openMarker_exclusive x E1). cbn [andb orb].
    destruct (indexOfI true (lit "</html>") (skipn 15 x)); reflexivity.
  - destruct (startsWithI true (lit "<html") x); cbn [andb orb]; [|reflexivity].
    destruct (indexOfI true (lit "</html>") (skipn 5 x)); reflexivity.
Qed.

Lemma marker_then_close_app n m x b close :
  length n = m ->
  startsWithI true n x && includesI true (skipn m x) close = true ->
  startsWithI true n (x ++ b) && includesI true (skipn m (x ++ b)) close = true.
Proof.
  intros Hm H. apply andb_true_iff in H as [H1 H2].
  rewrite (startsWithI_app_r _ _ _ b H1). cbn [andb].
  apply startsWithI_length in H1.
  rewrite skipn_app_le by lia. apply includesI_app_r. exact H2.
Qed.

Lemma spanStartAt_app x b : spanStartAt x = true -> spanStartAt (x ++ b) = true.
Proof.
  unfold spanStartAt. intros H. apply orb_true_iff in H as [H|H].
  - rewrite (marker_then_close_app (lit "<!DOCTYPE html>") 15 x b _ eq_refl H).
    reflexivity.
  - rewrite (marker_then_close_app (lit "<html") 5 x b _ eq_refl H).
    apply orb_true_r.
Qed.

Lemma isSome_fenceAt x : isSome (fenceAt x) = fencePairAt x.
Proof.
  unfold fenceAt, fencePairAt. destruct (startsWith (lit "```") x); [|reflexivity].
  cbv zeta. cbn [andb]. rewrite <- !includesI_false_exact.
  destruct (startsWith (lit "html") (skipn 3 x)) eqn:E.
  - rewrite <- startsWithI_false_exact in E. apply startsWithI_false_eq in E.
    change (length (lit "html")) with 4 in E.
    remember (skipn 4 (skipn 3 x)) as y eqn:Ey. clear Ey. rewrite E.
    rewrite !includesI_false_exact. change (lit "html") with [104; 116; 109; 108]%N.
    change (lit "```") with [96; 96; 96]%N.
    cbn [app includes startsWith].
    change (96 =? 104)%N with false. change (96 =? 116)%N with false.
    change (96 =? 109)%N with false. change (96 =? 108)%N with false.
    cbn [andb orb].
    rewrite <- includesI_false_exact, includesI_indexOfI.
    destruct (indexOfI false [96; 96; 96]%N y); reflexivity.
  - rewrite includesI_indexOfI.
    destruct (indexOfI false (lit "```") (skipn 3 x)); reflexivity.
Qed.

Lemma fencePairAt_app x b : fencePairAt x = true -> fencePairAt (x ++ b) = true.
Proof.
  unfold fencePairAt. rewrite <- !startsWithI_false_exact, <- !includesI_false_exact.
  intros H. apply andb_true_iff in H as [H1 H2].
  rewrite (startsWithI_app_r _ _ _ b H1). cbn [andb].
  apply startsWithI_length in H1. change (length (lit "```")) with 3 in H1.
  rewrite skipn_app_le by lia. apply includesI_app_r. exact H2.
Qed.

Lemma findFirst_None_substr {A : Type} (f : str -> option A) (P : str -> bool) c s :
  (forall x, isSome (f x) = P x) ->
  (forall x b, P x = true -> P (x ++ b) = true) ->
  substr c s -> findFirst f s = None -> findFirst f c = None.
Proof.
  intros HP Hmono [a [b ->]] Hn.
  assert (forall k, k <= length c -> f (skipn k c) = None) as K.
  { intros k Hk. destruct (f (skipn k c)) eqn:E; [exfalso|reflexivity].
    pose proof (findFirst_None f _ Hn (length a + k)) as N.
    rewrite skipn_app_ge, Nat.add_comm, Nat.add_sub in N by lia.
    rewrite skipn_app_le in N by exact Hk.
    pose proof (HP (skipn k c ++ b)) as Q. rewrite N in Q. simpl in Q.
    rewrite Hmono in Q; [discriminate|]. rewrite <- HP, E. reflexivity. }
  apply findFirst_None_intro. intros k.
  destruct (Nat.le_gt_cases k (length c)) as [Hk|Hk]; [apply K; exact Hk|].
  rewrite skipn_all2 by lia. rewrite <- (skipn_all c). apply K. lia.
Qed.

(** ** Idempotence of the extractor *)

Lemma indexOfI_firstn i n y j :
  indexOfI i n y = Some j -> indexOfI i n (firstn (j + length n) y) = Some j.
Proof.
  intros H. pose proof (indexOfI_Some _ _ _ _ H) as [H1 H2].
  apply indexOfI_intro.
  - rewrite skipn_firstn_comm, startsWithI_firstn by lia. exact H1.
  - rewrite length_firstn. lia.
  - intros p Hp. rewrite skipn_firstn_comm, startsWithI_firstn by lia.
    apply (indexOfI_first _ _ _ _ p H Hp).
Qed.

Lemma indexOfI_firstn_none i n y j :
  n <> [] -> indexOfI i n y = Some j -> includesI i (firstn j y) n = false.
Proof.
  intros Hn H. destruct (includesI i (firstn j y) n) eqn:E; [exfalso|reflexivity].
  rewrite includesI_indexOfI in E.
  destruct (indexOfI i n (firstn j y)) as [p|] eqn:Ep; [|discriminate].
  apply indexOfI_Some in Ep as [P1 P2].
  rewrite length_firstn in P2.
  assert (0 < length n) by (destruct n; [congruence|simpl; lia]).
  rewrite skipn_firstn_comm, startsWithI_firstn in P1 by lia.
  rewrite (indexOfI_first _ _ _ _ p H) in P1 by lia. discriminate.
Qed.

Lemma startsWithI_firstn_false i n s k :
  startsWithI i n s = false -> startsWithI i n (firstn k s) = false.
Proof.
  intros H. destruct (startsWithI i n (firstn k s)) eqn:E; [|reflexivity].
  apply (startsWithI_app_r _ _ _ (skipn k s)) in E.
  rewrite firstn_skipn in E. congruence.
Qed.

Lemma htmlSpanAt_firstn x len :
  htmlSpanAt x = Some len -> htmlSpanAt (firstn len x) = Some len.
Proof.
  unfold htmlSpanAt, openMarker.
  destruct (startsWithI true (lit "<!DOCTYPE html>") x) eqn:E1.
  - destruct (indexOfI true (lit "</html>") (skipn 15 x)) as [j|] eqn:E; [|discriminate].
    intros [= <-].
    rewrite startsWithI_firstn, E1 by (change (length (lit "<!DOCTYPE html>")) with 15; lia).
    rewrite skipn_firstn_comm.
    match goal with |- context [firstn ?a (skipn 15 x)] =>
      replace a with (j + length (lit "</html>"))
        by (change (length (lit "</html>")) with 7; lia)
    end.
    rewrite (indexOfI_firstn _ _ _ _ E). reflexivity.
  - destruct (startsWithI true (lit "<html") x) eqn:E2; [|discriminate].
    destruct (indexOfI true (lit "</html>") (skipn 5 x)) as [j|] eqn:E; [|discriminate].
    intros [= <-].
    rewrite (startsWithI_firstn_false _ _ _ _ E1).
    rewrite startsWithI_firstn, E2 by (change (length (lit "<html")) with 5; lia).
    rewrite skipn_firstn_comm.
    match goal with |- context [firstn ?a (skipn 5 x)] =>
      replace a with (j + length (lit "</html>"))
        by (change (length (lit "</html>")) with 7; lia)
    end.
    rewrite (indexOfI_firstn _ _ _ _ E). reflexivity.
Qed.

Lemma extract_spec_span r len :
  htmlSpanAt r = Some len -> length r = len -> extract_spec r = r.
Proof.
  intros H L. destruct r as [|c t].
  - apply htmlSpanAt_le in H. simpl in H. lia.
  - unfold extract_spec. cbn [findFirst]. rewrite H. cbn [skipn].
    rewrite <- L. apply firstn_all.
Qed.

Lemma extract_spec_trimmed c :
  findFirst htmlSpanAt c = None -> findFirst fenceAt c = None ->
  extract_spec c = trim c.
Proof.
  intros H1 H2. unfold extract_spec. rewrite H1, H2. destruct c; reflexivity.
Qed.

Lemma fenceAt_inner x inner :
  fenceAt x = Some inner ->
  substr inner x /\ includesI false inner (lit "```") = false.
Proof.
  unfold fenceAt. destruct (startsWith (lit "```") x); [|discriminate]. cbv zeta.
  set (r' := if startsWith (lit "html") (skipn 3 x) then skipn 4 (skipn 3 x) else skipn 3 x).
  assert (substr r' x) as Hr.
  { unfold r'. destruct (startsWith (lit "html") (skipn 3 x)).
    - apply (substr_trans _ _ _ (substr_skipn 4 _) (substr_skipn 3 x)).
    - apply substr_skipn. }
  destruct (indexOfI false (lit "```") r') as [k|] eqn:E; [|discriminate].
  intros [= <-]. split.
  - apply (substr_trans _ _ _ (substr_firstn k r') Hr).
  - apply (indexOfI_firstn_none false (lit "```") r' k); [|exact E].
    vm_compute. discriminate.
Qed.

Lemma no_fence_no_block c :
  includesI false c (lit "```") = false -> findFirst fenceAt c = None.
Proof.
  intros H. apply findFirst_None_intro. intros k. apply fenceAt_no_fence.
  rewrite <- startsWithI_false_exact. apply includesI_false_all. exact H.
Qed.

Lemma extract_spec_idempotent text :
  extract_spec (extract_spec text) = extract_spec text.
Proof.
  destruct text as [|c0 t0]; [reflexivity|].
  set (text := c0 :: t0).
  assert (extract_spec text =
          match findFirst htmlSpanAt text with
          | Some (k, len) => firstn len (skipn k text)
          | None =>
              match findFirst fenceAt text with
              | Some (_, inner) => trim inner
              | None => trim text
              end
          end) as U by reflexivity.
  rewrite U. clear U.
  destruct (findFirst htmlSpanAt text) as [[k len]|] eqn:E1.
  - apply findFirst_Some in E1 as [Hs _].
    apply (extract_spec_span _ len).
    + apply htmlSpanAt_firstn. exact Hs.
    + apply htmlSpanAt_le in Hs. rewrite length_firstn. lia.
  - destruct (findFirst fenceAt text) as [[k inner]|] eqn:E2.
    + apply findFirst_Some in E2 as [Hf _].
      apply fenceAt_inner in Hf as [Hsub Hno].
      rewrite extract_spec_trimmed; [apply trim_idempotent| |].
      * apply (findFirst_None_substr htmlSpanAt spanStartAt (trim inner) text
                 isSome_htmlSpanAt spanStartAt_app); [|exact E1].
        apply (substr_trans _ _ _ (substr_trim inner)).
        apply (substr_trans _ _ _ Hsub). apply substr_skipn.
      * apply no_fence_no_block.
        destruct (includesI false (trim inner) (lit "```")) eqn:F; [|reflexivity].
        rewrite (includesI_substr false (lit "```") _ _ (substr_trim inner) F) in Hno.
        discriminate.
    + rewrite extract_spec_trimmed; [apply trim_idempotent| |].
      * apply (findFirst_None_substr htmlSpanAt spanStartAt (trim text) text
                 isSome_htmlSpanAt spanStartAt_app (substr_trim text) E1).
      * apply (findFirst_None_substr fenceAt fencePairAt (trim text) text
                 isSome_fenceAt fencePairAt_app (substr_trim text) E2).
Qed.

(** C9: the extractor is idempotent: it returns a string, and on that
    string it returns the same string again. *)
Theorem extractHtmlFromText_idempotent (s : str) :
  exists r, extractHtmlFromText s = Return r /\ extractHtmlFromText r = Return r.
Proof.
  exists (extract_spec s). split; [apply extractHtmlFromText_spec|].
  rewrite extractHtmlFromText_spec, extract_spec_idempotent. reflexivity.
Qed.

(** ** The matcher against the declarative reading *)

Lemma star_greedy_sound p s c k res :
  star_greedy p s c k = Some res ->
  exists run s', s = run ++ s' /\ forallb p run = true /\ k s' c = Some res.
Proof.
  induction s as [|ch t IH]; simpl.
  - intros H. exists [], []. auto.
  - destruct (p ch) eqn:E.
    + destruct (star_greedy p t c k) as [r|] eqn:G.
      * intros [= <-]. destruct (IH eq_refl) as [run [s' [H1 [H2 H3]]]].
        exists (ch :: run), s'. simpl. rewrite E, H1. auto.
      * intros H. exists [], (ch :: t). auto.
    + intros H. exists [], (ch :: t). auto.
Qed.

Lemma star_greedy_complete p run s' c k :
  forallb p run = true -> k s' c <> None -> star_greedy p (run ++ s') c k <> None.
Proof.
  intros Hr Hk. induction run as [|ch t IH]; simpl.
  - destruct s' as [|d u]; [exact Hk|]. simpl.
    destruct (p d); [|exact Hk].
    destruct (star_greedy p u c k); [discriminate|exact Hk].
  - simpl in Hr. apply andb_true_iff in Hr as [H1 H2]. rewrite H1.
    specialize (IH H2). destruct (star_greedy p (t ++ s') c k); [discriminate|congruence].
Qed.

Lemma star_lazy_sound p s c k res :
  star_lazy p s c k = Some res ->
  exists run s', s = run ++ s' /\ forallb p run = true /\ k s' c = Some res.
Proof.
  induction s as [|ch t IH]; simpl.
  - destruct (k [] c) eqn:E; [|discriminate]. intros [= <-]. exists [], []. auto.
  - destruct (k (ch :: t) c) eqn:E.
    + intros [= <-]. exists [], (ch :: t). auto.
    + destruct (p ch) eqn:P; [|discriminate].
      intros H. destruct (IH H) as [run [s' [H1 [H2 H3]]]].
      exists (ch :: run), s'. simpl. rewrite P, H1. auto.
Qed.

Lemma star_lazy_complete p run s' c k :
  forallb p run = true -> k s' c <> None -> star_lazy p (run ++ s') c k <> None.
Proof.
  intros Hr Hk. induction run as [|ch t IH]; simpl.
  - destruct s' as [|d u]; simpl; destruct (k _ c); congruence.
  - simpl in Hr. apply andb_true_iff in Hr as [H1 H2]. rewrite H1.
    destruct (k (ch :: t ++ s') c); [discriminate|]. apply IH. exact H2.
Qed.

Lemma matcher_correct i r :
  (forall s c k res,
      matcher i r s c k = Some res ->
      exists s' c', matches i r s c s' c' /\ k s' c' = Some res) /\
  (forall s c k s' c',
      matches i r s c s' c' -> k s' c' <> None -> matcher i r s c k <> None).
Proof.
  induction r as [|cs|a [Sa Ca] b [Sb Cb]|a [Sa Ca] b [Sb Cb]|g cs|a [Sa Ca]
                  |n a [Sa Ca]|a [Sa Ca]]; split; simpl.
  - intros s c k res H. exists s, c. auto.
  - intros s c k s' c' [-> ->] H. exact H.
  - intros s c k res H. destruct s as [|ch t]; [discriminate|].
    destruct (mem i cs ch) eqn:E; [|discriminate]. exists t, c. split; [|exact H].
    exists ch. auto.
  - intros s c k s' c' [ch [-> [E ->]]] H. rewrite E. exact H.
  - intros s c k res H. apply Sa in H as [s1 [c1 [H1 H2]]].
    apply Sb in H2 as [s' [c' [H2 H3]]]. exists s', c'. split; [|exact H3].
    exists s1, c1. auto.
  - intros s c k s' c' [s1 [c1 [H1 H2]]] H.
    apply (Ca _ _ _ _ _ H1). apply (Cb _ _ _ _ _ H2). exact H.
  - intros s c k res H. destruct (matcher i a s c k) eqn:E.
    + injection H as ->. apply Sa in E as [s' [c' [H1 H2]]]. exists s', c'. auto.
    + apply Sb in H as [s' [c' [H1 H2]]]. exists s', c'. auto.
  - intros s c k s' c' [H1|H1] H.
    + pose proof (Ca _ _ _ _ _ H1 H). destruct (matcher i a s c k); congruence.
    + pose proof (Cb _ _ _ _ _ H1 H).
      destruct (matcher i a s c k); [discriminate|assumption].
  - intros s c k res H. destruct g.
    + apply star_greedy_sound in H as [run [s' [H1 [H2 H3]]]].
      exists s', c. split; [exists run; auto|exact H3].
    + apply star_lazy_sound in H as [run [s' [H1 [H2 H3]]]].
      exists s', c. split; [exists run; auto|exact H3].
  - intros s c k s' c' [run [-> [H1 ->]]] H. destruct g.
    + apply star_greedy_complete; assumption.
    + apply star_lazy_complete; assumption.
  - intros s c k res H. destruct (matcher i a s c k) eqn:E.
    + injection H as ->. apply Sa in E as [s' [c' [H1 H2]]]. exists s', c'. auto.
    + exists s, c. auto.
  - intros s c k s' c' [H1|[-> ->]] H.
    + pose proof (Ca _ _ _ _ _ H1 H). destruct (matcher i a s c k); congruence.
    + destruct (matcher i a s c k); [discriminate|assumption].
  - intros s c k res H. apply Sa in H as [s' [c1 [H1 H2]]].
    exists s', ((n, consumed s s') :: c1). split; [exists c1; auto|exact H2].
  - intros s c k s' c' [c1 [H1 ->]] H. apply (Ca _ _ _ _ _ H1). exact H.
  - intros s c k res H.
    destruct (matcher i a s c (fun s' c' => Some (s', c'))) eqn:E; [discriminate|].
    exists s, c. split; [|exact H]. repeat split.
    intros s1 c1 M. apply (Ca _ _ (fun s' c' => Some (s', c')) _ _ M); [discriminate|exact E].
  - intros s c k s' c' [-> [-> N]] H.
    destruct (matcher i a s c (fun s' c' => Some (s', c'))) eqn:E; [|exact H].
    apply Sa in E as [s1 [c1 [M _]]]. exfalso. apply (N s1 c1 M).
Qed.

Lemma matches_suffix i r : forall s c s' c',
  matches i r s c s' c' -> exists u, s = u ++ s'.
Proof.
  induction r as [|cs|a IHa b IHb|a IHa b IHb|g cs|a IHa|n a IHa|a IHa];
    intros s c s' c'; simpl.
  - intros [-> _]. exists []. reflexivity.
  - intros [ch [-> _]]. exists [ch]. reflexivity.
  - intros [s1 [c1 [H1 H2]]]. apply IHa in H1 as [u ->]. apply IHb in H2 as [v ->].
    exists (u ++ v). apply app_assoc.
  - intros [H|H]; [apply IHa in H|apply IHb in H]; exact H.
  - intros [run [-> _]]. exists run. reflexivity.
  - intros [H|[-> _]]; [apply IHa in H; exact H|exists []; reflexivity].
  - intros [c1 [H _]]. apply IHa in H. exact H.
  - intros [-> _]. exists []. reflexivity.
Qed.

Lemma matchAt_suffix re s s' c :
  matchAt re s = Some (s', c) -> exists u, s = u ++ s'.
Proof.
  unfold matchAt. intros H.
  apply (proj1 (matcher_correct _ _)) in H as [s1 [c1 [M E]]].
  unfold accept in E. injection E as -> ->. apply matches_suffix in M. exact M.
Qed.

Lemma matchAt_consumed re s s' c :
  matchAt re s = Some (s', c) -> s = consumed s s' ++ s'.
Proof.
  intros H. apply matchAt_suffix in H as [u ->]. rewrite consumed_app. reflexivity.
Qed.

(** A match result splits the subject into three parts. *)
Lemma exec_split re s r :
  exec re s = Some r -> s = before r ++ matched r ++ after r.
Proof.
  revert r; induction s as [|ch t IH]; intros r; simpl.
  - destruct (matchAt re []) as [[s' c]|] eqn:E; [|discriminate].
    intros [= <-]. simpl. apply (matchAt_consumed _ _ _ _ E).
  - destruct (matchAt re (ch :: t)) as [[s' c]|] eqn:E.
    + intros [= <-]. simpl. apply (matchAt_consumed _ _ _ _ E).
    + destruct (exec re t) as [r'|]; [|discriminate].
      intros [= <-]. simpl. f_equal. apply IH. reflexivity.
Qed.

Lemma replace_loop_fuel re f n m : forall s,
  length s < n -> length s < m -> replace_loop n re f s = replace_loop m re f s.
Proof.
  revert m; induction n as [|n IH]; intros m s Hn Hm; [lia|].
  destruct m as [|m]; [lia|]. simpl.
  destruct (exec re s) as [r|] eqn:E; [|reflexivity].
  apply exec_split in E. f_equal. f_equal.
  assert (length s = length (before r) + length (matched r) + length (after r)) as L.
  { rewrite E at 1. rewrite !length_app. lia. }
  destruct (matched r) as [|c0 mt].
  - destruct (after r) as [|ch t]; [reflexivity|]. f_equal.
    simpl in L. apply IH; lia.
  - simpl in L. apply IH; lia.
Qed.

(** ** The camera pattern *)


Lemma matches_Lits_false l : forall s c s' c',
  matches false (Lits l) s c s' c' <-> s = l ++ s' /\ c' = c.
Proof.
  induction l as [|a l IH]; intros s c s' c'; simpl.
  - split; intros [H1 H2]; auto.
  - split.
    + intros [s1 [c1 [[ch [-> [E ->]]] H]]]. apply IH in H as [-> ->].
      rewrite !canonicalize_false in E. apply N.eqb_eq in E. subst. auto.
    + intros [-> ->]. exists (l ++ s'), c. split.
      * exists a. rewrite !canonicalize_false, N.eqb_refl. auto.
      * apply IH. auto.
Qed.

Lemma matches_numberPattern s c s' c' :
  matches false numberPattern s c s' c' <->
  c' = c /\ exists x, s = x ++ s' /\ numberShape x.
Proof.
  unfold numberPattern. cbn [matches mem]. split.
  - intros [s1 [c1 [Hsg [s2 [c2 [[d1 [E1 [D1 ->]]] [s3 [c3 [Hdot
            [s4 [c4 [[d [E3 [Dd ->]]] [d2 [E4 [D2 ->]]]]]]]]]]]]]]].
    assert (exists sg, s = sg ++ s1 /\ (sg = [] \/ sg = [45%N]) /\ c1 = c) as [sg [Es [Hs ->]]].
    { destruct Hsg as [[ch [-> [E ->]]]|[-> ->]].
      - rewrite !canonicalize_false in E. apply N.eqb_eq in E. subst.
        exists [45%N]. auto.
      - exists []. auto. }
    assert (exists dot, s2 = dot ++ s3 /\ (dot = [] \/ dot = [46%N]) /\ c3 = c)
      as [dot [Ed [Hd ->]]].
    { destruct Hdot as [[ch [-> [E ->]]]|[-> ->]].
      - rewrite !canonicalize_false in E. apply N.eqb_eq in E. subst.
        exists [46%N]. auto.
      - exists []. auto. }
    split; [reflexivity|]. exists (sg ++ d1 ++ dot ++ d :: d2). split.
    + subst. rewrite <- !app_assoc. reflexivity.
    + unfold numberShape. exists sg, d1, dot, d, d2. repeat split; auto.
  - intros [-> [x [-> [sg [d1 [dot [d [d2 [-> [Hs [D1 [Hd [Dd D2]]]]]]]]]]]]].
    replace ((sg ++ d1 ++ dot ++ d :: d2) ++ s') with (sg ++ d1 ++ dot ++ d :: d2 ++ s')
      by (rewrite <- !app_assoc; reflexivity).
    exists (d1 ++ dot ++ d :: d2 ++ s'), c. split.
    { destruct Hs as [->| ->]; [right; split; reflexivity|left].
      exists 45%N. rewrite !canonicalize_false. auto. }
    exists (dot ++ d :: d2 ++ s'), c. split.
    { exists d1. auto. }
    exists (d :: d2 ++ s'), c. split.
    { destruct Hd as [->| ->]; [right; split; reflexivity|left].
      exists 46%N. rewrite !canonicalize_false. auto. }
    exists (d2 ++ s'), c. split.
    { exists d. auto. }
    exists d2. auto.
Qed.

Lemma matches_arg n rest s c s' c' :
  matches false
    (Seq (Star true CSpace) (Seq (Group n numberPattern) (Seq (Star true CSpace) rest)))
    s c s' c' <->
  exists a s1, argShape a /\ s = argText a ++ s1 /\
               matches false rest s1 ((n, num a) :: c) s' c'.
Proof.
  cbn [matches]. split.
  - intros [s1 [c1 [[w1 [-> [W1 ->]]] [s2 [c2 [[c3 [N ->]] [s3 [c4 [[w2 [E2 [W2 ->]]] R]]]]]]]]].
    apply matches_numberPattern in N as [-> [x [-> Hx]]].
    rewrite consumed_app in R. subst s2.
    exists (mkArg w1 x w2), s3. unfold argShape, argText. simpl.
    repeat split; auto. rewrite <- !app_assoc. reflexivity.
  - intros [[w1 x w2] [s1 [[W1 [Hx W2]] [-> R]]]]. unfold argText in *. simpl in *.
    exists (x ++ w2 ++ s1), c. split.
    { exists w1. rewrite <- !app_assoc. auto. }
    exists (w2 ++ s1), ((n, x) :: c). split.
    { exists c. split.
      - apply matches_numberPattern. split; [reflexivity|]. exists x. auto.
      - rewrite consumed_app. reflexivity. }
    exists s1, ((n, x) :: c). split; [|exact R].
    exists w2. auto.
Qed.

Lemma matches_sep ch rest s c s' c' :
  matches false (Seq (Atom (CChar ch)) rest) s c s' c' <->
  exists s1, s = ch :: s1 /\ matches false rest s1 c s' c'.
Proof.
  cbn [matches mem]. rewrite !canonicalize_false. split.
  - intros [s1 [c1 [[x [-> [E ->]]] R]]].
    rewrite canonicalize_false in E. apply N.eqb_eq in E. subst.
    exists s1. auto.
  - intros [s1 [-> R]]. exists s1, c. split; [|exact R].
    exists ch. rewrite canonicalize_false, N.eqb_refl. auto.
Qed.

Lemma matches_camera s s' c' :
  matches false (body cameraRegex) s [] s' c' <->
  exists a b c, argShape a /\ argShape b /\ argShape c /\
                s = cameraCall a b c ++ s' /\ c' = callCaps a b c.
Proof.
  unfold cameraRegex, body. split.
  - intros [s1 [c1 [L R]]]. apply matches_Lits_false in L as [-> ->].
    apply matches_arg in R as [a [s2 [Ha [-> R]]]].
    apply matches_sep in R as [s3 [-> R]].
    apply matches_arg in R as [b [s4 [Hb [-> R]]]].
    apply matches_sep in R as [s5 [-> R]].
    apply matches_arg in R as [c [s6 [Hc [-> R]]]].
    cbn [matches mem] in R. destruct R as [x [-> [E ->]]].
    rewrite !canonicalize_false in E. apply N.eqb_eq in E. subst x.
    exists a, b, c.
    split; [exact Ha|split; [exact Hb|split; [exact Hc|split; [|reflexivity]]]].
    unfold cameraCall. assoc. reflexivity.
  - intros [a [b [c [Ha [Hb [Hc [-> ->]]]]]]].
    exists (argText a ++ 44%N :: argText b ++ 44%N :: argText c ++ 41%N :: s'), [].
    split.
    { apply matches_Lits_false. split; [|reflexivity].
      unfold cameraCall. assoc. reflexivity. }
    apply matches_arg. exists a, (44%N :: argText b ++ 44%N :: argText c ++ 41%N :: s').
    split; [exact Ha|split; [reflexivity|]].
    apply matches_sep. eexists. split; [reflexivity|].
    apply matches_arg. exists b, (44%N :: argText c ++ 41%N :: s').
    split; [exact Hb|split; [reflexivity|]].
    apply matches_sep. eexists. split; [reflexivity|].
    apply matches_arg. exists c, (41%N :: s').
    split; [exact Hc|split; [reflexivity|]].
    cbn [matches mem]. exists 41%N. rewrite !canonicalize_false. auto.
Qed.

Lemma span_unique (P : char -> bool) : forall a a' b b',
  forallb P a = true -> forallb P a' = true -> stopsAt P b -> stopsAt P b' ->
  a ++ b = a' ++ b' -> a = a' /\ b = b'.
Proof.
  induction a as [|x a IH]; intros a' b b' Ha Ha' Hb Hb' E.
  - destruct a' as [|y a']; [auto|]. simpl in *.
    apply andb_true_iff in Ha' as [Py _]. subst b. simpl in Hb. congruence.
  - simpl in Ha. apply andb_true_iff in Ha as [Px Ha].
    destruct a' as [|y a']; simpl in *.
    + subst b'. simpl in Hb'. congruence.
    + apply andb_true_iff in Ha' as [Py Ha']. injection E as -> E.
      destruct (IH a' b b' Ha Ha' Hb Hb' E) as [-> ->]. auto.
Qed.

Lemma inLiteral_not_space c : inLiteral c = true -> isWhiteSpace c = false.
Proof.
  unfold inLiteral, isDigit, isWhiteSpace. intros H.
  N_cases; reflexivity.
Qed.

Lemma inLiteral_notC c : inLiteral c = true -> notC c = true.
Proof. unfold inLiteral, isDigit, notC. intros H. N_cases; reflexivity. Qed.

Lemma isWhiteSpace_notC c : isWhiteSpace c = true -> notC c = true.
Proof. unfold isWhiteSpace, notC. intros H. N_cases; reflexivity. Qed.

Lemma isWhiteSpace_not_literal c : isWhiteSpace c = true -> inLiteral c = false.
Proof.
  intros H. destruct (inLiteral c) eqn:E; [|reflexivity].
  apply inLiteral_not_space in E. congruence.
Qed.

Lemma digits_inLiteral d : forallb isDigit d = true -> forallb inLiteral d = true.
Proof.
  induction d as [|c d IH]; [reflexivity|]. simpl. intros H.
  apply andb_true_iff in H as [H1 H2]. unfold inLiteral at 1. rewrite H1, IH; auto.
Qed.

Lemma numberShape_chars x :
  numberShape x -> forallb inLiteral x = true /\ x <> [].
Proof.
  intros [sg [d1 [dot [d [d2 [-> [Hs [D1 [Hd [Dd D2]]]]]]]]]]. split.
  - assert (inLiteral d = true) as Ld by (unfold inLiteral; rewrite Dd; reflexivity).
    rewrite !forallb_app. cbn [forallb].
    rewrite Ld, (digits_inLiteral _ D1), (digits_inLiteral _ D2).
    destruct Hs as [->| ->], Hd as [->| ->]; reflexivity.
  - destruct sg, d1, dot; discriminate.
Qed.

Lemma forallb_impl (P Q : char -> bool) l :
  (forall c, P c = true -> Q c = true) -> forallb P l = true -> forallb Q l = true.
Proof.
  intros H. induction l as [|c l IH]; [reflexivity|]. simpl. intros E.
  apply andb_true_iff in E as [E1 E2]. rewrite (H _ E1), IH; auto.
Qed.

Lemma argText_unique a a' t R R' :
  argShape a -> argShape a' -> isWhiteSpace t = false -> inLiteral t = false ->
  argText a ++ t :: R = argText a' ++ t :: R' ->
  num a = num a' /\ R = R'.
Proof.
  intros [W1 [N W2]] [W1' [N' W2']] Tw Tl E. unfold argText in E.
  apply numberShape_chars in N as [NL NE]. apply numberShape_chars in N' as [NL' NE'].
  rewrite <- !app_assoc in E.
  apply (span_unique isWhiteSpace) in E as [_ E]; auto.
  2:{ destruct (num a) as [|c x]; [congruence|]. simpl in *.
      apply andb_true_iff in NL as [NL _]. apply inLiteral_not_space. exact NL. }
  2:{ destruct (num a') as [|c x]; [congruence|]. simpl in *.
      apply andb_true_iff in NL' as [NL' _]. apply inLiteral_not_space. exact NL'. }
  apply (span_unique inLiteral) in E as [En E]; auto.
  2:{ destruct (trail a) as [|c w]; simpl in *; [exact Tl|].
      apply andb_true_iff in W2 as [W2 _]. apply isWhiteSpace_not_literal. exact W2. }
  2:{ destruct (trail a') as [|c w]; simpl in *; [exact Tl|].
      apply andb_true_iff in W2' as [W2' _]. apply isWhiteSpace_not_literal. exact W2'. }
  apply (span_unique isWhiteSpace) in E as [_ E]; auto.
  injection E as E. auto.
Qed.

Lemma cameraCall_unique a b c a' b' c' s1 s2 :
  argShape a -> argShape b -> argShape c ->
  argShape a' -> argShape b' -> argShape c' ->
  cameraCall a b c ++ s1 = cameraCall a' b' c' ++ s2 ->
  callCaps a b c = callCaps a' b' c' /\ s1 = s2.
Proof.
  intros Ha Hb Hc Ha' Hb' Hc' E. unfold cameraCall in E. assoc_in E.
  apply app_inv_head in E.
  apply argText_unique in E as [Ea E]; auto.
  apply argText_unique in E as [Eb E]; auto.
  apply argText_unique in E as [Ec E]; auto.
  unfold callCaps. rewrite Ea, Eb, Ec. auto.
Qed.

Lemma matchAt_camera_shape s s' c' :
  matchAt cameraRegex s = Some (s', c') ->
  exists a b c, argShape a /\ argShape b /\ argShape c /\
                s = cameraCall a b c ++ s' /\ c' = callCaps a b c.
Proof.
  unfold matchAt. intros H.
  apply (proj1 (matcher_correct _ _)) in H as [s1 [c1 [M E]]].
  unfold accept in E. injection E as -> ->. apply matches_camera. exact M.
Qed.

Lemma matchAt_camera_exact a b c rest :
  argShape a -> argShape b -> argShape c ->
  matchAt cameraRegex (cameraCall a b c ++ rest) = Some (rest, callCaps a b c).
Proof.
  intros Ha Hb Hc.
  destruct (matchAt cameraRegex (cameraCall a b c ++ rest)) as [[s' c']|] eqn:E.
  - apply matchAt_camera_shape in E as [a' [b' [c2 [Ha' [Hb' [Hc' [E ->]]]]]]].
    apply cameraCall_unique in E as [-> ->]; auto.
  - exfalso. revert E. unfold matchAt.
    apply (proj2 (matcher_correct _ _) _ _ _ rest (callCaps a b c)); [|discriminate].
    apply matches_camera. exists a, b, c. auto.
Qed.

(** ** Every occurrence is rewritten *)

Lemma argText_notC a : argShape a -> forallb notC (argText a) = true.
Proof.
  intros [W1 [N W2]]. apply numberShape_chars in N as [NL _].
  unfold argText. rewrite !forallb_app.
  rewrite (forallb_impl isWhiteSpace notC _ isWhiteSpace_notC W1).
  rewrite (forallb_impl inLiteral notC _ inLiteral_notC NL).
  rewrite (forallb_impl isWhiteSpace notC _ isWhiteSpace_notC W2). reflexivity.
Qed.

(** A call starts with [c] and has no other [c]. *)
Lemma cameraCall_head a b c :
  argShape a -> argShape b -> argShape c ->
  exists body, cameraCall a b c = 99%N :: body /\ forallb notC body = true.
Proof.
  intros Ha Hb Hc. unfold cameraCall.
  change (lit "camera.position.set(") with (99%N :: lit "amera.position.set(").
  eexists. split; [reflexivity|].
  repeat (rewrite forallb_app; cbn [forallb]).
  rewrite (argText_notC _ Ha), (argText_notC _ Hb), (argText_notC _ Hc).
  vm_compute. reflexivity.
Qed.

Lemma matchAt_camera_extend u a b c post :
  argShape a -> argShape b -> argShape c -> u <> [] ->
  matchAt cameraRegex (u ++ cameraCall a b c ++ post) =
  match matchAt cameraRegex u with
  | Some (s1, c1) => Some (s1 ++ cameraCall a b c ++ post, c1)
  | None => None
  end.
Proof.
  intros Ha Hb Hc Hu.
  destruct (matchAt cameraRegex u) as [[s1 c1]|] eqn:E.
  - apply matchAt_camera_shape in E as [a1 [b1 [c2 [Ha1 [Hb1 [Hc1 [-> ->]]]]]]].
    rewrite <- app_assoc. apply matchAt_camera_exact; assumption.
  - destruct (matchAt cameraRegex (u ++ cameraCall a b c ++ post)) as [[s2 c2]|] eqn:E2;
      [exfalso|reflexivity].
    apply matchAt_camera_shape in E2 as [a2 [b2 [c3 [Ha2 [Hb2 [Hc2 [E2 ->]]]]]]].
    apply app_eq_app in E2 as [r [[E3 E4]|[E3 E4]]].
    + rewrite E3, matchAt_camera_exact in E by assumption. discriminate.
    + destruct r as [|x r].
      * rewrite app_nil_r in E3. rewrite <- E3, <- (app_nil_r (cameraCall a2 b2 c3)) in E.
        rewrite matchAt_camera_exact in E by assumption. discriminate.
      * destruct (cameraCall_head a b c Ha Hb Hc) as [body [Eb _]].
        rewrite Eb in E4. injection E4 as <- _.
        destruct (cameraCall_head a2 b2 c3 Ha2 Hb2 Hc2) as [body2 [Eb2 Nc]].
        rewrite Eb2 in E3. destruct u as [|y u]; [congruence|].
        injection E3 as _ E3. rewrite E3, forallb_app in Nc.
        apply andb_true_iff in Nc as [_ Nc]. simpl in Nc. discriminate.
Qed.

Lemma exec_unfold re s :
  exec re s =
  match matchAt re s with
  | Some (s', c) => Some (mkMatch [] (consumed s s') c s')
  | None =>
      match s with
      | [] => None
      | ch :: t =>
          match exec re t with
          | Some r => Some (mkMatch (ch :: before r) (matched r) (groups r) (after r))
          | None => None
          end
      end
  end.
Proof. destruct s; reflexivity. Qed.

Lemma exec_camera_extend a b c post :
  argShape a -> argShape b -> argShape c ->
  forall pre,
  exec cameraRegex (pre ++ cameraCall a b c ++ post) =
  match exec cameraRegex pre with
  | Some r => Some (mkMatch (before r) (matched r) (groups r)
                            (after r ++ cameraCall a b c ++ post))
  | None => Some (mkMatch pre (cameraCall a b c) (callCaps a b c) post)
  end.
Proof.
  intros Ha Hb Hc. induction pre as [|ch t IH].
  - rewrite exec_unfold. cbn [app].
    rewrite matchAt_camera_exact by assumption. rewrite consumed_app. reflexivity.
  - rewrite exec_unfold, (exec_unfold cameraRegex (ch :: t)).
    rewrite matchAt_camera_extend by (assumption || discriminate).
    destruct (matchAt cameraRegex (ch :: t)) as [[s1 c1]|] eqn:E.
    + apply matchAt_consumed in E.
      f_equal. f_equal. rewrite E at 1. rewrite <- app_assoc, !consumed_app.
      rewrite E at 2. rewrite consumed_app. reflexivity.
    + cbn [app]. rewrite IH. destruct (exec cameraRegex t); reflexivity.
Qed.

Lemma exec_camera_matched s r :
  exec cameraRegex s = Some r ->
  exists a b c, argShape a /\ argShape b /\ argShape c /\
                matched r = cameraCall a b c /\ groups r = callCaps a b c.
Proof.
  rewrite exec_findFirst.
  destruct (findFirst (matchAt cameraRegex) s) as [[k [s' c']]|] eqn:E; [|discriminate].
  intros [= <-]. apply findFirst_Some in E as [E _].
  apply matchAt_camera_shape in E as [a [b [c [Ha [Hb [Hc [E ->]]]]]]].
  exists a, b, c. cbn [matched groups]. rewrite E, consumed_app. auto.
Qed.

Lemma cameraCall_nonempty a b c : cameraCall a b c <> [].
Proof. unfold cameraCall. discriminate. Qed.

Lemma zoomReplacer_call factor a b c pre m post :
  zoomReplacer factor (mkMatch pre m (callCaps a b c) post) = scaledCall factor a b c.
Proof. reflexivity. Qed.

Lemma replace_loop_S n re f s :
  replace_loop (S n) re f s =
  match exec re s with
  | None => s
  | Some r =>
      before r ++ f r ++
      match matched r with
      | [] =>
          match after r with
          | [] => []
          | ch :: t => ch :: replace_loop n re f t
          end
      | _ :: _ => replace_loop n re f (after r)
      end
  end.
Proof. reflexivity. Qed.

Lemma replace_all_unfold re f s :
  replace_all s re f =
  match exec re s with
  | None => s
  | Some r =>
      before r ++ f r ++
      match matched r with
      | [] =>
          match after r with
          | [] => []
          | ch :: t => ch :: replace_all t re f
          end
      | _ :: _ => replace_all (after r) re f
      end
  end.
Proof.
  unfold replace_all. rewrite (replace_loop_S (length s) re f s).
  destruct (exec re s) as [r|] eqn:E; [|reflexivity].
  apply exec_split in E.
  assert (length s = length (before r) + length (matched r) + length (after r)) as L.
  { rewrite E at 1. rewrite !length_app. lia. }
  f_equal. f_equal. destruct (matched r) as [|c0 mt].
  - destruct (after r) as [|ch t]; [reflexivity|]. f_equal.
    simpl in L. apply replace_loop_fuel; lia.
  - simpl in L. apply replace_loop_fuel; lia.
Qed.

Lemma zoomCamera_call_aux factor a b c post :
  argShape a -> argShape b -> argShape c ->
  forall n pre, length pre <= n ->
  zoomCamera (pre ++ cameraCall a b c ++ post) factor =
  zoomCamera pre factor ++ scaledCall factor a b c ++ zoomCamera post factor.
Proof.
  intros Ha Hb Hc. unfold zoomCamera. fold (zoomReplacer factor).
  induction n as [|n IH]; intros pre Hn.
  - destruct pre; [|simpl in Hn; lia].
    rewrite (replace_all_unfold _ _ ([] ++ _)), exec_camera_extend by assumption.
    rewrite (replace_all_unfold _ _ []).
    change (exec cameraRegex []) with (@None MatchResult). cbn [before matched after].
    rewrite zoomReplacer_call.
    destruct (cameraCall a b c) eqn:E; [apply cameraCall_nonempty in E; contradiction|].
    reflexivity.
  - rewrite (replace_all_unfold _ _ (pre ++ _)), exec_camera_extend by assumption.
    rewrite (replace_all_unfold _ _ pre).
    destruct (exec cameraRegex pre) as [r|] eqn:E.
    + pose proof (exec_split _ _ _ E) as Sp.
      apply exec_camera_matched in E as [a1 [b1 [c1 [_ [_ [_ [Em Eg]]]]]]].
      cbn [before matched after groups].
      assert (zoomReplacer factor
                (mkMatch (before r) (matched r) (groups r)
                         (after r ++ cameraCall a b c ++ post)) =
              zoomReplacer factor r) as -> by reflexivity.
      rewrite Em.
      destruct (cameraCall a1 b1 c1) eqn:E1; [apply cameraCall_nonempty in E1; contradiction|].
      rewrite IH.
      * rewrite <- ?app_assoc. reflexivity.
      * rewrite Sp, Em, !length_app in Hn. simpl in Hn. lia.
    + cbn [before matched after]. rewrite zoomReplacer_call.
      destruct (cameraCall a b c) eqn:E1; [apply cameraCall_nonempty in E1; contradiction|].
      rewrite <- ?app_assoc. reflexivity.
Qed.

Lemma takeDigits_spec s :
  s = fst (takeDigits s) ++ snd (takeDigits s) /\
  forallb isDigit (fst (takeDigits s)) = true.
Proof.
  induction s as [|c t [IH1 IH2]]; [auto|].
  simpl. destruct (isDigit c) eqn:E; [|auto].
  destruct (takeDigits t) as [d r]. simpl in *. rewrite E, IH2, <- IH1. auto.
Qed.

Lemma isLiteral_shape x : isLiteral x = true -> numberShape x.
Proof.
  unfold isLiteral.
  set (x1 := match x with
             | c :: t => if (c =? 45)%N then t else x
             | [] => x
             end).
  assert (exists sg, x = sg ++ x1 /\ (sg = [] \/ sg = [45%N])) as [sg [Ex Hs]].
  { unfold x1. destruct x as [|c t]; [exists []; auto|].
    destruct (N.eqb_spec c 45) as [->|]; [exists [45%N]|exists []]; auto. }
  destruct (takeDigits_spec x1) as [E1 D1].
  destruct (takeDigits x1) as [ip r]. simpl in E1, D1.
  destruct r as [|c t].
  - destruct ip as [|d d2]; [discriminate|]. intros _.
    simpl in D1. apply andb_true_iff in D1 as [Dd D2].
    exists sg, [], [], d, d2. rewrite Ex, E1, app_nil_r. auto 10.
  - intros H. apply andb_true_iff in H as [Hc H]. apply N.eqb_eq in Hc. subst c.
    destruct (takeDigits_spec t) as [E2 D2].
    destruct (takeDigits t) as [[|f fp] [|]]; try discriminate.
    simpl in E2, D2. apply andb_true_iff in D2 as [Df Dfp].
    exists sg, ip, [46%N], f, fp. rewrite Ex, E1, E2, app_nil_r. auto 10.
Qed.

Lemma wellFormedArg_shape a : wellFormedArg a = true -> argShape a.
Proof.
  unfold wellFormedArg, argShape. intros H.
  apply andb_true_iff in H as [H H3]. apply andb_true_iff in H as [H1 H2].
  apply isLiteral_shape in H2. auto.
Qed.

(** Around a well-formed call the text before it and the text after it
    are rewritten on their own, and the call becomes the scaled call. *)
Lemma zoomCamera_call pre a b c post factor :
  wellFormedArg a = true -> wellFormedArg b = true -> wellFormedArg c = true ->
  zoomCamera (pre ++ cameraCall a b c ++ post) factor =
  zoomCamera pre factor ++ scaledCall factor a b c ++ zoomCamera post factor.
Proof.
  intros Ha Hb Hc.
  apply (zoomCamera_call_aux factor a b c post
           (wellFormedArg_shape _ Ha) (wellFormedArg_shape _ Hb) (wellFormedArg_shape _ Hc)
           (length pre) pre (le_n _)).
Qed.

Lemma zoomCamera_no_match s factor :
  exec cameraRegex s = None -> zoomCamera s factor = s.
Proof.
  intros H. unfold zoomCamera, replace_all. cbn [replace_loop]. rewrite H. reflexivity.
Qed.

(** ** zoomCamera *)

(** C4: a call [camera.position.set(x, y, z)] whose three arguments are
    signed decimal literals, with any white space around them, is
    replaced by the same call with each literal parsed, multiplied by
    the factor and printed by the default Number-to-string conversion,
    whatever text stands before and after it; with factor 0.5 the call
    [camera.position.set(10, -5, 2.5)] becomes
    [camera.position.set(5, -2.5, 1.25)]. *)
Theorem zoomCamera_scales_call (pre post : str) (a b c : Arg) (factor : number) :
  (wellFormedArg a = true -> wellFormedArg b = true -> wellFormedArg c = true ->
   zoomCamera (pre ++ cameraCall a b c ++ post) factor =
   zoomCamera pre factor
     ++ (lit "camera.position.set("
           ++ Number_toString (Number_mul (parseFloat (num a)) factor) ++ lit ", "
           ++ Number_toString (Number_mul (parseFloat (num b)) factor) ++ lit ", "
           ++ Number_toString (Number_mul (parseFloat (num c)) factor) ++ lit ")")
     ++ zoomCamera post factor) /\
  zoomCamera (lit "camera.position.set(10, -5, 2.5)") (round_dec false 5 (-1)) =
  lit "camera.position.set(5, -2.5, 1.25)".
Proof.
  split.
  - intros Ha Hb Hc. apply (zoomCamera_call pre a b c post factor Ha Hb Hc).
  - vm_compute. reflexivity.
Qed.

Lemma zoomCamera_scales_call_witness :
  zoomCamera (lit "a;" ++ cameraCall (mkArg (lit " ") (lit "-.5") [])
                                     (mkArg [] (lit "12") (lit " "))
                                     (mkArg [] (lit "3.25") []) ++ lit ";b")
             (round_dec false 2 0) =
  lit "a;camera.position.set(-1, 24, 6.5);b".
Proof.
  refine (eq_trans
            (proj1 (zoomCamera_scales_call (lit "a;") (lit ";b")
                      (mkArg (lit " ") (lit "-.5") [])
                      (mkArg [] (lit "12") (lit " "))
                      (mkArg [] (lit "3.25") []) (round_dec false 2 0))
                   _ _ _) _);
    vm_compute; reflexivity.
Defined.

(** ** The call pattern without the regular expression *)

Lemma startsWithI_self i n r : startsWithI i n (n ++ r) = true.
Proof.
  induction n as [|c n IH]; [reflexivity|]. cbn [app startsWithI].
  rewrite N.eqb_refl, IH. reflexivity.
Qed.

Lemma spanOf_spec (P : char -> bool) (s : str) :
  s = fst (spanOf P s) ++ snd (spanOf P s) /\
  forallb P (fst (spanOf P s)) = true /\ stopsAt P (snd (spanOf P s)).
Proof.
  induction s as [|c t [IH1 [IH2 IH3]]]; [cbn; auto|].
  cbn [spanOf]. destruct (P c) eqn:E.
  - destruct (spanOf P t) as [u v]. cbn [fst snd] in *. cbn [forallb app].
    rewrite E, IH2, <- IH1. auto.
  - cbn [fst snd forallb app stopsAt]. auto.
Qed.

Lemma spanOf_app (P : char -> bool) (u v : str) :
  forallb P u = true -> stopsAt P v -> spanOf P (u ++ v) = (u, v).
Proof.
  induction u as [|c u IH]; intros Hu Hv.
  - cbn [app]. destruct v as [|d v]; [reflexivity|]. cbn [stopsAt] in Hv.
    cbn [spanOf]. rewrite Hv. reflexivity.
  - cbn [forallb] in Hu. apply andb_true_iff in Hu as [Hc Hu].
    cbn [app spanOf]. rewrite Hc, (IH Hu Hv). reflexivity.
Qed.

Lemma takeDigits_spanOf (s : str) : takeDigits s = spanOf isDigit s.
Proof.
  induction s as [|c t IH]; [reflexivity|]. cbn [takeDigits spanOf]. rewrite IH. reflexivity.
Qed.

Lemma isDigit_not_minus d : isDigit d = true -> (d =? 45)%N = false.
Proof. unfold isDigit. intros H. N_cases; reflexivity. Qed.

Lemma isLiteral_unsigned (h : char) (t : str) :
  (h =? 45)%N = false ->
  isLiteral (h :: t) =
  match snd (takeDigits (h :: t)) with
  | [] => match fst (takeDigits (h :: t)) with [] => false | _ => true end
  | c :: r =>
      (c =? 46)%N && match takeDigits r with (_ :: _, []) => true | _ => false end
  end.
Proof.
  intros H. unfold isLiteral. cbv beta iota zeta. rewrite H.
  destruct (takeDigits (h :: t)) as [ip r]. reflexivity.
Qed.

Lemma isLiteral_signed (h : char) (t : str) :
  (h =? 45)%N = false -> isLiteral (45%N :: h :: t) = isLiteral (h :: t).
Proof.
  intros H. rewrite (isLiteral_unsigned h t H). unfold isLiteral. cbv beta iota zeta.
  rewrite N.eqb_refl. destruct (takeDigits (h :: t)) as [ip r]. reflexivity.
Qed.

Lemma numberShape_isLiteral x : numberShape x -> isLiteral x = true.
Proof.
  intros [sg [d1 [dot [d [d2 [-> [Hs [D1 [Hd [Dd D2]]]]]]]]]].
  assert (isDigit 46%N = false) as P46 by reflexivity.
  assert (exists (h : char) (t : str), d1 ++ dot ++ d :: d2 = h :: t /\ (h =? 45)%N = false)
    as [h [t [Ey Hh]]].
  { destruct d1 as [|e d1].
    - destruct Hd as [->| ->]; cbn [app].
      + exists d, d2. split; [reflexivity|apply isDigit_not_minus; exact Dd].
      + exists 46%N, (d :: d2). split; reflexivity.
    - cbn [forallb] in D1. apply andb_true_iff in D1 as [De _].
      cbn [app]. eexists; eexists; split; [reflexivity|]. apply isDigit_not_minus. exact De. }
  assert (isLiteral (h :: t) = true) as Ly.
  { eapply eq_trans; [exact (isLiteral_unsigned h t Hh)|].
    unfold str, char in *. rewrite <- Ey, takeDigits_spanOf.
    destruct Hd as [->| ->].
    - cbn [app]. replace (d1 ++ d :: d2) with ((d1 ++ d :: d2) ++ []) by apply app_nil_r.
      rewrite spanOf_app;
        [|rewrite forallb_app; cbn [forallb]; rewrite D1, Dd, D2; reflexivity|exact I].
      cbn [fst snd]. destruct d1; reflexivity.
    - cbn [app]. rewrite spanOf_app; [|exact D1|exact P46].
      cbn [fst snd]. rewrite N.eqb_refl, takeDigits_spanOf. cbn [andb].
      replace (d :: d2) with ((d :: d2) ++ []) by apply app_nil_r.
      rewrite spanOf_app; [reflexivity| |exact I].
      cbn [forallb]. apply andb_true_iff. split; assumption. }
  destruct Hs as [->| ->]; cbn [app]; rewrite Ey; [exact Ly|].
  eapply eq_trans; [exact (isLiteral_signed h t Hh)|exact Ly].
Qed.

Lemma argShape_wellFormed a : argShape a -> wellFormedArg a = true.
Proof.
  intros [W1 [N W2]]. unfold wellFormedArg.
  rewrite W1, W2, (numberShape_isLiteral _ N). reflexivity.
Qed.

Lemma readArg_spec (s : str) a (s' : str) :
  readArg s = Some (a, s') -> wellFormedArg a = true /\ s = argText a ++ s'.
Proof.
  unfold readArg.
  pose proof (spanOf_spec isWhiteSpace s) as [E1 [W1 _]].
  destruct (spanOf isWhiteSpace s) as [w1 s1]. cbn [fst snd] in *.
  pose proof (spanOf_spec inLiteral s1) as [E2 _].
  destruct (spanOf inLiteral s1) as [x s2]. cbn [fst snd] in *.
  pose proof (spanOf_spec isWhiteSpace s2) as [E3 [W2 _]].
  destruct (spanOf isWhiteSpace s2) as [w2 s3]. cbn [fst snd] in *.
  destruct (isLiteral x) eqn:L; [|discriminate]. intros [= <- <-].
  unfold wellFormedArg, argText. cbn [lead num trail].
  rewrite W1, W2, L. split; [reflexivity|].
  rewrite E1, E2, E3, <- !app_assoc. reflexivity.
Qed.

Lemma readArg_argText a t (R : str) :
  wellFormedArg a = true -> isWhiteSpace t = false -> inLiteral t = false ->
  readArg (argText a ++ t :: R) = Some (a, t :: R).
Proof.
  intros H Tw Tl. destruct a as [w1 x w2]. unfold wellFormedArg in H.
  cbn [lead num trail] in H. apply andb_true_iff in H as [H W2].
  apply andb_true_iff in H as [W1 L].
  destruct (numberShape_chars x (isLiteral_shape x L)) as [NL NE].
  unfold readArg, argText. cbn [lead num trail]. rewrite <- !app_assoc.
  rewrite (spanOf_app isWhiteSpace w1 _ W1).
  2:{ destruct x as [|c x]; [congruence|]. cbn [app stopsAt].
      cbn [forallb] in NL. apply andb_true_iff in NL as [NL _].
      apply inLiteral_not_space. exact NL. }
  rewrite (spanOf_app inLiteral x _ NL).
  2:{ destruct w2 as [|c w]; cbn [app stopsAt]; [exact Tl|].
      cbn [forallb] in W2. apply andb_true_iff in W2 as [W2 _].
      apply isWhiteSpace_not_literal. exact W2. }
  rewrite (spanOf_app isWhiteSpace w2 (t :: R) W2 Tw). rewrite L. reflexivity.
Qed.

Lemma expect_spec c (s s' : str) : expect c s = Some s' -> s = c :: s'.
Proof.
  destruct s as [|d t]; [discriminate|]. cbn [expect].
  destruct (N.eqb_spec d c) as [->|]; [|discriminate]. intros [= ->]. reflexivity.
Qed.

Lemma callAt_spec (s : str) a b c (rest : str) :
  callAt s = Some (a, b, c, rest) ->
  wellFormedArg a = true /\ wellFormedArg b = true /\ wellFormedArg c = true /\
  s = cameraCall a b c ++ rest.
Proof.
  unfold callAt.
  destruct (startsWith (lit "camera.position.set(") s) eqn:P; [|discriminate].
  rewrite <- startsWithI_false_exact in P. apply startsWithI_false_eq in P.
  change (length (lit "camera.position.set(")) with 20 in P.
  destruct (readArg (skipn 20 s)) as [[a' s1]|] eqn:Ra; [|discriminate].
  destruct (expect 44%N s1) as [s2|] eqn:E1; [|discriminate].
  destruct (readArg s2) as [[b' s3]|] eqn:Rb; [|discriminate].
  destruct (expect 44%N s3) as [s4|] eqn:E2; [|discriminate].
  destruct (readArg s4) as [[c' s5]|] eqn:Rc; [|discriminate].
  destruct (expect 41%N s5) as [r|] eqn:E3; [|discriminate].
  intros [= <- <- <- <-].
  apply readArg_spec in Ra as [Ha Ea]. apply readArg_spec in Rb as [Hb Eb].
  apply readArg_spec in Rc as [Hc Ec].
  apply expect_spec in E1, E2, E3.
  split; [exact Ha|split; [exact Hb|split; [exact Hc|]]].
  rewrite P, Ea, E1, Eb, E2, Ec, E3. unfold cameraCall. assoc. reflexivity.
Qed.

Lemma callAt_intro a b c (rest : str) :
  wellFormedArg a = true -> wellFormedArg b = true -> wellFormedArg c = true ->
  callAt (cameraCall a b c ++ rest) = Some (a, b, c, rest).
Proof.
  intros Ha Hb Hc. unfold callAt, cameraCall.
  replace ((lit "camera.position.set(" ++ argText a ++ 44%N :: argText b
              ++ 44%N :: argText c ++ [41%N]) ++ rest)
    with (lit "camera.position.set(" ++ argText a ++ 44%N :: argText b
              ++ 44%N :: argText c ++ 41%N :: rest) by (assoc; reflexivity).
  rewrite <- startsWithI_false_exact, startsWithI_self.
  change 20 with (length (lit "camera.position.set(")). rewrite skipn_app_exact.
  rewrite (readArg_argText a 44%N _ Ha eq_refl eq_refl). cbn [expect N.eqb Pos.eqb].
  rewrite (readArg_argText b 44%N _ Hb eq_refl eq_refl). cbn [expect N.eqb Pos.eqb].
  rewrite (readArg_argText c 41%N _ Hc eq_refl eq_refl). cbn [expect N.eqb Pos.eqb].
  reflexivity.
Qed.

(** The regular expression matches at the head of a text exactly when a
    matching call stands there, and captures its three literals. *)
Lemma matchAt_callAt (s : str) :
  matchAt cameraRegex s =
  match callAt s with
  | Some (a, b, c, rest) => Some (rest, callCaps a b c)
  | None => None
  end.
Proof.
  destruct (callAt s) as [[[[a b] c] rest]|] eqn:E.
  - apply callAt_spec in E as [Ha [Hb [Hc ->]]].
    apply matchAt_camera_exact; apply wellFormedArg_shape; assumption.
  - destruct (matchAt cameraRegex s) as [[s' c']|] eqn:M; [exfalso|reflexivity].
    apply matchAt_camera_shape in M as [a [b [c [Ha [Hb [Hc [-> _]]]]]]].
    rewrite (callAt_intro a b c s' (argShape_wellFormed _ Ha) (argShape_wellFormed _ Hb)
               (argShape_wellFormed _ Hc)) in E. discriminate.
Qed.

(** The rewriting is a scan: where a matching call stands it is replaced
    by the scaled call and the scan goes on behind it; elsewhere the
    code unit is copied and the scan goes on with the next one. *)
Lemma zoomCamera_scan (s : str) factor :
  zoomCamera s factor =
  match callAt s with
  | Some (a, b, c, rest) => scaledCall factor a b c ++ zoomCamera rest factor
  | None =>
      match s with
      | [] => []
      | ch :: t => ch :: zoomCamera t factor
      end
  end.
Proof.
  unfold zoomCamera. fold (zoomReplacer factor).
  rewrite (replace_all_unfold _ _ s), exec_unfold, matchAt_callAt.
  destruct (callAt s) as [[[[a b] c] rest]|] eqn:E.
  - apply callAt_spec in E as [_ [_ [_ ->]]].
    cbn [before matched groups after]. rewrite consumed_app, zoomReplacer_call.
    destruct (cameraCall a b c) eqn:E1; [apply cameraCall_nonempty in E1; contradiction|].
    reflexivity.
  - destruct s as [|ch t]; [reflexivity|].
    rewrite (replace_all_unfold _ _ t).
    destruct (exec cameraRegex t) as [r|]; reflexivity.
Qed.

Lemma zoomCamera_no_call (s : str) factor : hasCall s = false -> zoomCamera s factor = s.
Proof.
  induction s as [|ch t IH]; intros H; rewrite zoomCamera_scan.
  - cbn [hasCall] in H. destruct (callAt []); [discriminate|reflexivity].
  - cbn [hasCall] in H. destruct (callAt (ch :: t)); [discriminate|].
    rewrite (IH H). reflexivity.
Qed.

Lemma zoomCamera_weave factor (l : list (Arg * Arg * Arg * str)) : forall t0 : str,
  hasCall t0 = false -> callsOK l = true ->
  zoomCamera (weave cameraCall t0 l) factor = weave (scaledCall factor) t0 l.
Proof.
  induction l as [|[[[a b] c] t1] l IH]; intros t0 H0 Hl; cbn [weave].
  - apply zoomCamera_no_call. exact H0.
  - cbn [callsOK forallb] in Hl. apply andb_true_iff in Hl as [H Hl].
    apply andb_true_iff in H as [H H1]. apply andb_true_iff in H as [H Hc].
    apply andb_true_iff in H as [Ha Hb]. apply negb_true_iff in H1.
    rewrite (zoomCamera_call t0 a b c _ factor Ha Hb Hc).
    rewrite (zoomCamera_no_call t0 factor H0), (IH t1 H1 Hl). reflexivity.
Qed.

(** C5: the rewrite is global and narrow.  The calls
    [camera.position.set(1,2)] and [cam.position.set(1,2,3)], and calls
    with a plus sign, a name for a number, a fourth argument or another
    method, come back unchanged for every factor.  A matching call is
    exactly [camera.position.set(], three well-formed arguments
    separated by commas, and [)].  On every document the rewriting is
    the scan that replaces a matching call where one stands and copies
    the code unit where none does, so every occurrence is rewritten and
    every other code unit is kept.  Hence a document without a matching
    call comes back unchanged, and in a document made of any number of
    well-formed calls between texts without one, every call is replaced
    by its scaled call and every text is kept as it is. *)
Theorem zoomCamera_global_narrow (s t0 rest : str) (a b c : Arg)
    (l : list (Arg * Arg * Arg * str)) (factor : number) :
  zoomCamera (lit "camera.position.set(1,2)") factor = lit "camera.position.set(1,2)" /\
  zoomCamera (lit "cam.position.set(1,2,3)") factor = lit "cam.position.set(1,2,3)" /\
  zoomCamera (lit "camera.position.set(+1,2,3)") factor = lit "camera.position.set(+1,2,3)" /\
  zoomCamera (lit "camera.position.set(x, 2, 3)") factor = lit "camera.position.set(x, 2, 3)" /\
  zoomCamera (lit "camera.position.set(1,2,3,4)") factor = lit "camera.position.set(1,2,3,4)" /\
  zoomCamera (lit "camera.position.copy(1,2,3)") factor = lit "camera.position.copy(1,2,3)" /\
  (callAt s = Some (a, b, c, rest) <->
   wellFormedArg a = true /\ wellFormedArg b = true /\ wellFormedArg c = true /\
   s = cameraCall a b c ++ rest) /\
  zoomCamera s factor =
    match callAt s with
    | Some (a', b', c', rest') => scaledCall factor a' b' c' ++ zoomCamera rest' factor
    | None =>
        match s with
        | [] => []
        | ch :: t => ch :: zoomCamera t factor
        end
    end /\
  (hasCall s = false -> zoomCamera s factor = s) /\
  (hasCall t0 = false -> callsOK l = true ->
   zoomCamera (weave cameraCall t0 l) factor = weave (scaledCall factor) t0 l).
Proof.
  repeat (split; [apply zoomCamera_no_call; vm_compute; reflexivity|]).
  split; [split|split; [|split]].
  - apply callAt_spec.
  - intros [Ha [Hb [Hc ->]]]. apply callAt_intro; assumption.
  - apply zoomCamera_scan.
  - apply zoomCamera_no_call.
  - apply zoomCamera_weave.
Qed.

Lemma zoomCamera_global_narrow_witness :
  zoomCamera (lit "// cam.position.set(1,2,3)") (round_dec false 8 (-1)) =
    lit "// cam.position.set(1,2,3)" /\
  zoomCamera
    (weave cameraCall (lit "a;")
       [(mkArg [] (lit "1") [], mkArg [] (lit "2") [], mkArg [] (lit "3") [], lit ";b;");
        (mkArg (lit " ") (lit "10") (lit " "), mkArg [] (lit "20") [],
         mkArg (lit " ") (lit "30") [], lit ";c;");
        (mkArg [] (lit "-.5") [], mkArg [] (lit "0") [],
         mkArg (lit " ") (lit "7.25") [], lit "!")])
    (round_dec false 5 (-1)) =
    lit "a;camera.position.set(0.5, 1, 1.5);b;camera.position.set(5, 10, 15);c;"
      ++ lit "camera.position.set(-0.25, 0, 3.625)!" /\
  callAt (lit "camera.position.set(1 , 2,3);x") =
    Some (mkArg [] (lit "1") (lit " "), mkArg (lit " ") (lit "2") [],
          mkArg [] (lit "3") [], lit ";x").
Proof.
  split; [|split].
  - destruct (zoomCamera_global_narrow (lit "// cam.position.set(1,2,3)") [] []
                (mkArg [] [] []) (mkArg [] [] []) (mkArg [] [] []) []
                (round_dec false 8 (-1)))
      as [_ [_ [_ [_ [_ [_ [_ [_ [H _]]]]]]]]].
    apply H. vm_compute. reflexivity.
  - destruct (zoomCamera_global_narrow [] (lit "a;") []
                (mkArg [] [] []) (mkArg [] [] []) (mkArg [] [] [])
                [(mkArg [] (lit "1") [], mkArg [] (lit "2") [], mkArg [] (lit "3") [],
                  lit ";b;");
                 (mkArg (lit " ") (lit "10") (lit " "), mkArg [] (lit "20") [],
                  mkArg (lit " ") (lit "30") [], lit ";c;");
                 (mkArg [] (lit "-.5") [], mkArg [] (lit "0") [],
                  mkArg (lit " ") (lit "7.25") [], lit "!")]
                (round_dec false 5 (-1)))
      as [_ [_ [_ [_ [_ [_ [_ [_ [_ H]]]]]]]]].
    refine (eq_trans (H _ _) _); vm_compute; reflexivity.
  - destruct (zoomCamera_global_narrow (lit "camera.position.set(1 , 2,3);x") [] (lit ";x")
                (mkArg [] (lit "1") (lit " ")) (mkArg (lit " ") (lit "2") [])
                (mkArg [] (lit "3") []) [] (round_dec false 8 (-1)))
      as [_ [_ [_ [_ [_ [_ [[_ H] _]]]]]]].
    apply H. repeat split; vm_compute; reflexivity.
Defined.

(** ** The pipeline *)

(** C6: on the example input with factor 0.8 the four stages yield the
    document with the CSS block in its head, the camera call rewritten
    to [camera.position.set(1.6, 1.6, 1.6)], and, in its last script
    block, that call followed by the controller script. *)
Theorem pipeline_example : pipeline exampleInput (round_dec false 8 (-1)) = Return exampleOutput.
Proof. vm_compute. reflexivity. Qed.

(** C7: no stage throws.  The extractor returns a string for every
    input (the capture it trims is always defined); the other three
    stages are functions from strings to strings; the replace loop of
    [zoomCamera] ends within its bound and gives the same result for any
    larger one; the whole chain returns a string. *)
Theorem stages_total (s : str) (factor : number) (n : nat) :
  (exists r, extractHtmlFromText s = Return r) /\
  (exists r, hideBodyText s = r) /\
  (exists r, zoomCamera s factor = r) /\
  (length s < n ->
   replace_loop n cameraRegex (zoomReplacer factor) s = zoomCamera s factor) /\
  (exists r, injectGameMode s = r) /\
  (exists r, pipeline s factor = Return r).
Proof.
  repeat split.
  - exists (extract_spec s). apply extractHtmlFromText_spec.
  - eexists. reflexivity.
  - eexists. reflexivity.
  - intros H. unfold zoomCamera, replace_all. apply replace_loop_fuel; lia.
  - eexists. reflexivity.
  - unfold pipeline. rewrite extractHtmlFromText_spec. eexists. reflexivity.
Qed.

Lemma stages_total_witness :
  replace_loop 100 cameraRegex (zoomReplacer (round_dec false 8 (-1)))
               (lit "camera.position.set(1,2,3)") =
  zoomCamera (lit "camera.position.set(1,2,3)") (round_dec false 8 (-1)).
Proof.
  apply (proj1 (proj2 (proj2 (proj2
           (stages_total (lit "camera.position.set(1,2,3)") (round_dec false 8 (-1)) 100))))).
  vm_compute. lia.
Defined.

(** * Further properties of the stages *)

(** ** What the extractor returns *)

Lemma extract_spec_substr text : substr (extract_spec text) text.
Proof.
  unfold extract_spec. destruct text as [|c0 t0]; [apply substr_refl|].
  set (text := c0 :: t0).
  destruct (findFirst htmlSpanAt text) as [[k len]|].
  - apply (substr_trans _ _ _ (substr_firstn len _) (substr_skipn k text)).
  - destruct (findFirst fenceAt text) as [[k inner]|] eqn:E.
    + apply findFirst_Some in E as [E _]. apply fenceAt_inner in E as [E _].
      apply (substr_trans _ _ _ (substr_trim inner)).
      apply (substr_trans _ _ _ E (substr_skipn k text)).
    + apply substr_trim.
Qed.

Lemma substr_length c s : substr c s -> length c <= length s.
Proof. intros [a [b ->]]. rewrite !length_app. lia. Qed.

(** X1: the extractor only cuts: what it returns is a contiguous part of
    its input, so never longer than the input. *)
Theorem extractHtmlFromText_cuts (text : str) :
  exists r, extractHtmlFromText text = Return r /\
            (exists a b, text = a ++ r ++ b) /\ length r <= length text.
Proof.
  exists (extract_spec text). split; [apply extractHtmlFromText_spec|].
  pose proof (extract_spec_substr text) as H. split; [exact H|].
  apply substr_length. exact H.
Qed.

Lemma trim_id r : headOK r = true -> headOK (rev r) = true -> trim r = r.
Proof.
  intros H1 H2. unfold trim, trimEnd. rewrite (trimStart_id r H1).
  rewrite (trimStart_id _ H2). apply rev_involutive.
Qed.

Lemma trim_trimmed s : headOK (trim s) = true /\ headOK (rev (trim s)) = true.
Proof.
  split.
  - unfold trim. apply trimEnd_headOK, trimStart_headOK.
  - unfold trim, trimEnd. rewrite rev_involutive. apply trimStart_headOK.
Qed.

Lemma canonicalize_gt c : canonicalize true c = 62%N -> c = 62%N.
Proof. unfold canonicalize. intros H. N_cases; lia. Qed.

Lemma span_ends x len :
  htmlSpanAt x = Some len ->
  headOK (firstn len x) = true /\ headOK (rev (firstn len x)) = true.
Proof.
  intros H. pose proof (htmlSpanAt_le _ _ H) as L. revert H.
  unfold htmlSpanAt, openMarker. intros H.
  assert (exists m j, startsWithI true [60%N] x = true /\
                      indexOfI true (lit "</html>") (skipn m x) = Some j /\
                      len = m + j + 7) as [m [j [Hm [Hj ->]]]].
  { destruct (startsWithI true (lit "<!DOCTYPE html>") x) eqn:E1.
    - destruct (indexOfI true (lit "</html>") (skipn 15 x)) as [j|] eqn:E; [|discriminate].
      injection H as <-. exists 15, j. repeat split; auto.
      destruct x as [|c t]; [discriminate|].
      change (lit "<!DOCTYPE html>") with (60%N :: lit "!DOCTYPE html>") in E1.
      cbn [startsWithI] in *. apply andb_true_iff in E1 as [E1 _]. rewrite E1. reflexivity.
    - destruct (startsWithI true (lit "<html") x) eqn:E2; [|discriminate].
      destruct (indexOfI true (lit "</html>") (skipn 5 x)) as [j|] eqn:E; [|discriminate].
      injection H as <-. exists 5, j. repeat split; auto.
      destruct x as [|c t]; [discriminate|].
      change (lit "<html") with (60%N :: lit "html") in E2.
      cbn [startsWithI] in *. apply andb_true_iff in E2 as [E2 _]. rewrite E2. reflexivity. }
  split.
  - destruct x as [|c t]; [discriminate|].
    replace (m + j + 7) with (S (m + j + 6)) by lia. cbn [firstn headOK].
    cbn [startsWithI] in Hm. rewrite andb_true_r in Hm. apply N.eqb_eq in Hm.
    symmetry in Hm. apply canonicalize_lt in Hm. subst c. reflexivity.
  - apply indexOfI_Some in Hj as [Hj Lj]. rewrite skipn_skipn in Hj.
    pose proof (startsWithI_nth _ _ _ 6 Hj ltac:(vm_compute; lia)) as E6.
    rewrite nth_skipn_0 in E6. change (nth 6 (lit "</html>") 0%N) with 62%N in E6.
    symmetry in E6. apply canonicalize_gt in E6.
    replace (m + j + 7) with (S (j + m + 6)) by lia.
    assert (j + m + 6 < length x) as Lt by lia.
    rewrite <- (firstn_skipn (j + m + 6) x) at 1.
    assert (exists y, skipn (j + m + 6) x = nth (j + m + 6) x 0%N :: y) as [y Ey].
    { clear -Lt. revert x Lt. induction (j + m + 6) as [|n IH]; intros [|c t] Lt; simpl in *;
        try lia; [eexists; reflexivity|]. apply IH. lia. }
    rewrite Ey.
    assert (length (firstn (j + m + 6) x) = j + m + 6) as Lf by (rewrite length_firstn; lia).
    rewrite firstn_app, Lf.
    replace (S (j + m + 6) - (j + m + 6)) with 1 by lia.
    rewrite firstn_all2 by lia. cbn [firstn]. rewrite rev_app_distr.
    cbn [rev app headOK]. rewrite E6. reflexivity.
Qed.

Lemma extract_spec_trimmed_result text : trim (extract_spec text) = extract_spec text.
Proof.
  unfold extract_spec. destruct text as [|c0 t0]; [reflexivity|].
  set (text := c0 :: t0).
  destruct (findFirst htmlSpanAt text) as [[k len]|] eqn:E.
  - apply findFirst_Some in E as [E _]. apply span_ends in E as [H1 H2].
    apply trim_id; assumption.
  - destruct (findFirst fenceAt text) as [[k inner]|]; apply trim_idempotent.
Qed.

(** X2: what the extractor returns has no white space at either end,
    whichever tier produced it. *)
Theorem extractHtmlFromText_trimmed (text : str) :
  exists r, extractHtmlFromText text = Return r /\ trim r = r.
Proof.
  exists (extract_spec text). split; [apply extractHtmlFromText_spec|].
  apply extract_spec_trimmed_result.
Qed.

(** ** zoomCamera on a text made of parts *)

Lemma startsWithI_refl i n : startsWithI i n n = true.
Proof.
  induction n as [|c n IH]; [reflexivity|]. cbn [startsWithI].
  rewrite N.eqb_refl, IH. reflexivity.
Qed.

Lemma matchAt_needs_prefix x :
  startsWithI false callPrefix x = false -> matchAt cameraRegex x = None.
Proof.
  intros H. destruct (matchAt cameraRegex x) as [[s' c']|] eqn:E; [|reflexivity].
  apply matchAt_camera_shape in E as [a [b [c [_ [_ [_ [E _]]]]]]].
  exfalso. subst x. unfold cameraCall in H. fold callPrefix in H.
  rewrite <- app_assoc, startsWithI_self in H. discriminate.
Qed.

Lemma isWhiteSpace_interior c : isWhiteSpace c = true -> interiorChar c = true.
Proof. unfold interiorChar. intros ->. reflexivity. Qed.

Lemma inLiteral_interior c : inLiteral c = true -> interiorChar c = true.
Proof. unfold interiorChar. intros ->. rewrite orb_true_r. reflexivity. Qed.

Lemma argText_interior a : argShape a -> forallb interiorChar (argText a) = true.
Proof.
  intros [W1 [N W2]]. apply numberShape_chars in N as [NL _].
  unfold argText. rewrite !forallb_app.
  rewrite (forallb_impl isWhiteSpace interiorChar _ isWhiteSpace_interior W1).
  rewrite (forallb_impl inLiteral interiorChar _ inLiteral_interior NL).
  rewrite (forallb_impl isWhiteSpace interiorChar _ isWhiteSpace_interior W2). reflexivity.
Qed.

(** After its first letter a call is made of interior code units. *)
Lemma cameraCall_interior a b c :
  argShape a -> argShape b -> argShape c ->
  exists body, cameraCall a b c = 99%N :: body /\ forallb interiorChar body = true.
Proof.
  intros Ha Hb Hc. unfold cameraCall.
  change (lit "camera.position.set(") with (99%N :: lit "amera.position.set(").
  eexists. split; [reflexivity|].
  repeat (rewrite forallb_app; cbn [forallb]).
  rewrite (argText_interior _ Ha), (argText_interior _ Hb), (argText_interior _ Hc).
  vm_compute. reflexivity.
Qed.

Lemma cameraCall_last a b c : exists body, cameraCall a b c = body ++ [41%N].
Proof.
  unfold cameraCall.
  exists (lit "camera.position.set(" ++ argText a ++ 44%N :: argText b ++ 44%N :: argText c).
  rewrite <- !app_assoc. cbn [app]. rewrite <- !app_assoc. reflexivity.
Qed.

Lemma straddle_free x v :
  (forall a b c r s2, argShape a -> argShape b -> argShape c -> r <> [] ->
     cameraCall a b c = x ++ r -> v = r ++ s2 -> False) ->
  matchAt cameraRegex (x ++ v) = liftMatch v (matchAt cameraRegex x).
Proof.
  intros H. destruct (matchAt cameraRegex x) as [[s1 c1]|] eqn:E; cbn [liftMatch].
  - apply matchAt_camera_shape in E as [a1 [b1 [c2 [Ha1 [Hb1 [Hc1 [-> ->]]]]]]].
    rewrite <- app_assoc. apply matchAt_camera_exact; assumption.
  - destruct (matchAt cameraRegex (x ++ v)) as [[s2 c2]|] eqn:E2; [exfalso|reflexivity].
    apply matchAt_camera_shape in E2 as [a2 [b2 [c3 [Ha2 [Hb2 [Hc2 [E2 ->]]]]]]].
    apply app_eq_app in E2 as [r [[E3 E4]|[E3 E4]]].
    + rewrite E3, matchAt_camera_exact in E by assumption. discriminate.
    + destruct r as [|y r].
      * rewrite app_nil_r in E3. rewrite <- E3, <- (app_nil_r (cameraCall a2 b2 c3)) in E.
        rewrite matchAt_camera_exact in E by assumption. discriminate.
      * apply (H a2 b2 c3 (y :: r) s2 Ha2 Hb2 Hc2); [discriminate|exact E3|exact E4].
Qed.

Lemma skipn_nonempty (u : str) p : p < length u -> exists y t, skipn p u = y :: t.
Proof.
  revert u. induction p as [|p IH]; intros [|c t] L; simpl in *; try lia.
  - eauto.
  - apply IH. lia.
Qed.

(** A part that starts with a code unit no call can contain is never
    reached by a match that starts before it. *)
Lemma splitFree_boundary u v : stopsAt interiorChar v -> splitFree u v.
Proof.
  intros Hv p Hp. apply straddle_free. intros a b c r s2 Ha Hb Hc Hr E1 E2.
  destruct r as [|c0 r]; [congruence|]. subst v. cbn [app stopsAt] in Hv.
  destruct (skipn_nonempty u p Hp) as [y [t Ey]]. rewrite Ey in E1.
  destruct (cameraCall_interior a b c Ha Hb Hc) as [body [Eb Hb']].
  rewrite Eb in E1. injection E1 as _ E1. rewrite E1, forallb_app in Hb'.
  apply andb_true_iff in Hb' as [_ Hb']. cbn [forallb] in Hb'.
  rewrite Hv in Hb'. discriminate.
Qed.

(** A part without a closing parenthesis cannot complete a call. *)
Lemma straddle_no_paren x v :
  forallb notRParen v = true ->
  matchAt cameraRegex (x ++ v) = liftMatch v (matchAt cameraRegex x).
Proof.
  intros Hv. apply straddle_free. intros a b c r s2 Ha Hb Hc Hr E1 E2.
  destruct (cameraCall_last a b c) as [body Eb]. rewrite Eb in E1.
  destruct (exists_last Hr) as [r0 [z Er]]. subst r.
  rewrite app_assoc in E1. apply app_inj_tail in E1 as [_ <-].
  subst v. rewrite !forallb_app in Hv. cbn [forallb] in Hv.
  apply andb_true_iff in Hv as [Hv _]. apply andb_true_iff in Hv as [_ Hv].
  discriminate.
Qed.

Lemma splitFree_no_paren u v : forallb notRParen v = true -> splitFree u v.
Proof. intros Hv p _. apply straddle_no_paren. exact Hv. Qed.

Lemma splitFree_skipn u v q : splitFree u v -> splitFree (skipn q u) v.
Proof.
  intros H p Hp. rewrite skipn_skipn. apply H.
  rewrite length_skipn in Hp. lia.
Qed.

Lemma splitFree_tail ch t v : splitFree (ch :: t) v -> splitFree t v.
Proof. intros H. apply (splitFree_skipn (ch :: t) v 1 H). Qed.

Lemma exec_camera_app u v :
  splitFree u v ->
  exec cameraRegex (u ++ v) =
  match exec cameraRegex u with
  | Some r => Some (mkMatch (before r) (matched r) (groups r) (after r ++ v))
  | None =>
      match exec cameraRegex v with
      | Some r => Some (mkMatch (u ++ before r) (matched r) (groups r) (after r))
      | None => None
      end
  end.
Proof.
  induction u as [|ch t IH]; intros H.
  - change (exec cameraRegex []) with (@None MatchResult). cbn [app].
    destruct (exec cameraRegex v) as [[bf m g af]|]; reflexivity.
  - rewrite exec_unfold, (exec_unfold cameraRegex (ch :: t)).
    pose proof (H 0 ltac:(simpl; lia)) as H0. cbn [skipn] in H0. rewrite H0.
    destruct (matchAt cameraRegex (ch :: t)) as [[s1 c1]|] eqn:E; cbn [liftMatch].
    + apply matchAt_consumed in E.
      f_equal. cbn [before matched groups after]. f_equal.
      rewrite E at 1. rewrite <- app_assoc, !consumed_app.
      rewrite E at 2. rewrite consumed_app. reflexivity.
    + cbn [app]. rewrite (IH (splitFree_tail _ _ _ H)).
      destruct (exec cameraRegex t) as [r|]; [reflexivity|].
      destruct (exec cameraRegex v) as [r|]; reflexivity.
Qed.

Lemma exec_after_skipn re s r :
  exec re s = Some r -> after r = skipn (length (before r) + length (matched r)) s.
Proof.
  intros E. apply exec_split in E. rewrite E at 1.
  rewrite app_assoc, <- length_app. symmetry. apply skipn_app_exact.
Qed.

Lemma zoomCamera_app_aux factor v :
  forall n u, length u <= n -> splitFree u v ->
  zoomCamera (u ++ v) factor = zoomCamera u factor ++ zoomCamera v factor.
Proof.
  unfold zoomCamera. fold (zoomReplacer factor).
  induction n as [|n IH]; intros u Hn H.
  - destruct u; [|simpl in Hn; lia]. reflexivity.
  - rewrite (replace_all_unfold _ _ (u ++ v)), (exec_camera_app _ _ H).
    rewrite (replace_all_unfold _ _ u).
    destruct (exec cameraRegex u) as [r|] eqn:E.
    + pose proof (exec_split _ _ _ E) as Sp.
      pose proof (exec_after_skipn _ _ _ E) as Af.
      apply exec_camera_matched in E as [a1 [b1 [c1 [_ [_ [_ [Em Eg]]]]]]].
      cbn [before matched after groups].
      assert (zoomReplacer factor
                (mkMatch (before r) (matched r) (groups r) (after r ++ v)) =
              zoomReplacer factor r) as -> by reflexivity.
      rewrite Em.
      destruct (cameraCall a1 b1 c1) eqn:E1; [apply cameraCall_nonempty in E1; contradiction|].
      rewrite IH.
      * rewrite <- ?app_assoc. reflexivity.
      * rewrite Sp, Em, !length_app in Hn. simpl in Hn. lia.
      * rewrite Af. apply splitFree_skipn. exact H.
    + rewrite (replace_all_unfold _ _ v).
      destruct (exec cameraRegex v) as [r|] eqn:Ev; [|reflexivity].
      cbn [before matched after groups].
      assert (zoomReplacer factor
                (mkMatch (u ++ before r) (matched r) (groups r) (after r)) =
              zoomReplacer factor r) as -> by reflexivity.
      rewrite <- ?app_assoc. reflexivity.
Qed.

(** The rewriting splits at every place no call can span. *)
Lemma zoomCamera_app u v factor :
  splitFree u v ->
  zoomCamera (u ++ v) factor = zoomCamera u factor ++ zoomCamera v factor.
Proof. intros H. apply (zoomCamera_app_aux factor v (length u) u (le_n _) H). Qed.

Lemma exec_camera_none s :
  (forall p, matchAt cameraRegex (skipn p s) = None) -> exec cameraRegex s = None.
Proof.
  intros H. rewrite exec_findFirst.
  rewrite (findFirst_None_intro (matchAt cameraRegex) s H). reflexivity.
Qed.

Lemma forallb_skipn (P : char -> bool) (l : str) n :
  forallb P l = true -> forallb P (skipn n l) = true.
Proof.
  intros H. rewrite <- (firstn_skipn n l), forallb_app in H.
  apply andb_true_iff in H as [_ H]. exact H.
Qed.

Lemma forallb_firstn (P : char -> bool) (l : str) n :
  forallb P l = true -> forallb P (firstn n l) = true.
Proof.
  intros H. rewrite <- (firstn_skipn n l), forallb_app in H.
  apply andb_true_iff in H as [H _]. exact H.
Qed.

Lemma zoomCamera_no_paren w factor :
  forallb notRParen w = true -> zoomCamera w factor = w.
Proof.
  intros H. apply zoomCamera_no_match, exec_camera_none. intros p.
  pose proof (straddle_no_paren [] (skipn p w) (forallb_skipn _ _ p H)) as E.
  exact E.
Qed.

Lemma zoomCamera_app_no_paren u w factor :
  forallb notRParen w = true ->
  zoomCamera (u ++ w) factor = zoomCamera u factor ++ w.
Proof.
  intros H. rewrite (zoomCamera_app u w factor (splitFree_no_paren u w H)).
  rewrite (zoomCamera_no_paren w factor H). reflexivity.
Qed.

Lemma exec_camera_skip u v :
  (forall p, p < length u -> matchAt cameraRegex (skipn p (u ++ v)) = None) ->
  exec cameraRegex (u ++ v) =
  match exec cameraRegex v with
  | Some r => Some (mkMatch (u ++ before r) (matched r) (groups r) (after r))
  | None => None
  end.
Proof.
  induction u as [|ch t IH]; intros H.
  - cbn [app]. destruct (exec cameraRegex v) as [[bf m g af]|]; reflexivity.
  - rewrite exec_unfold. pose proof (H 0 ltac:(simpl; lia)) as H0. cbn [skipn] in H0.
    rewrite H0. cbn [app]. rewrite IH.
    + destruct (exec cameraRegex v) as [r|]; reflexivity.
    + intros p Hp. apply (H (S p)). simpl. lia.
Qed.

(** A prefix in which no call starts is copied. *)
Lemma zoomCamera_skip_prefix u v factor :
  (forall p, p < length u -> matchAt cameraRegex (skipn p (u ++ v)) = None) ->
  zoomCamera (u ++ v) factor = u ++ zoomCamera v factor.
Proof.
  intros H. unfold zoomCamera. fold (zoomReplacer factor).
  rewrite (replace_all_unfold _ _ (u ++ v)), (exec_camera_skip _ _ H).
  rewrite (replace_all_unfold _ _ v).
  destruct (exec cameraRegex v) as [r|]; [|reflexivity].
  cbn [before matched after groups].
  assert (zoomReplacer factor
            (mkMatch (u ++ before r) (matched r) (groups r) (after r)) =
          zoomReplacer factor r) as -> by reflexivity.
  rewrite <- ?app_assoc. reflexivity.
Qed.

Lemma zoomCamera_frame s factor :
  includesI false s callPrefix = false -> zoomCamera s factor = s.
Proof.
  intros H. apply zoomCamera_no_match, exec_camera_none. intros p.
  apply matchAt_needs_prefix. apply includesI_false_all. exact H.
Qed.

(** X3: a text in which [camera.position.set(] does not occur, in exactly
    this spelling, is returned unchanged by [zoomCamera], whatever the
    factor. *)
Theorem zoomCamera_unchanged_without_call (html : str) (zoomFactor : number) :
  includes html (lit "camera.position.set(") = false ->
  zoomCamera html zoomFactor = html.
Proof.
  intros H. apply zoomCamera_frame. rewrite includesI_false_exact. exact H.
Qed.

Lemma zoomCamera_unchanged_without_call_witness :
  zoomCamera (lit "<p>Camera.Position.Set(1, 2, 3)</p>") defaultZoomFactor =
  lit "<p>Camera.Position.Set(1, 2, 3)</p>".
Proof.
  apply (zoomCamera_unchanged_without_call
           (lit "<p>Camera.Position.Set(1, 2, 3)</p>") defaultZoomFactor).
  vm_compute. reflexivity.
Defined.

(** X4: where a part of the text begins with a code unit that no call can
    contain after its first letter (such as the [<] of a tag) the
    rewriting splits: the text before it and the text from it on are
    rewritten on their own. *)
Theorem zoomCamera_splits_at_boundary (u v : str) (c0 : char) (zoomFactor : number) :
  interiorChar c0 = false ->
  zoomCamera (u ++ c0 :: v) zoomFactor =
  zoomCamera u zoomFactor ++ zoomCamera (c0 :: v) zoomFactor.
Proof.
  intros H. apply zoomCamera_app. apply splitFree_boundary. exact H.
Qed.

Lemma zoomCamera_splits_at_boundary_witness :
  zoomCamera (lit "camera.position.set(1, 2, 3)" ++ 60%N :: lit "p>camera.position.set(4,4,4)")
             defaultZoomFactor =
  zoomCamera (lit "camera.position.set(1, 2, 3)") defaultZoomFactor
    ++ zoomCamera (60%N :: lit "p>camera.position.set(4,4,4)") defaultZoomFactor.
Proof.
  apply (zoomCamera_splits_at_boundary
           (lit "camera.position.set(1, 2, 3)") (lit "p>camera.position.set(4,4,4)")
           60%N defaultZoomFactor).
  vm_compute. reflexivity.
Defined.

(** ** What a printed Number is made of *)

Lemma digitsOf_digits fuel : forall z acc,
  forallb isDigit acc = true -> forallb isDigit (digitsOf fuel z acc) = true.
Proof.
  induction fuel as [|n IH]; intros z acc H; [exact H|].
  cbn [digitsOf].
  assert (forallb isDigit ((Z.to_N (z mod 10) + 48)%N :: acc) = true) as H'.
  { cbn [forallb]. rewrite H, andb_true_r. unfold isDigit.
    pose proof (Z.mod_pos_bound z 10 ltac:(lia)) as B.
    apply andb_true_iff. split; apply N.leb_le; lia. }
  destruct (z <? 10)%Z; [exact H'|]. apply IH. exact H'.
Qed.

Lemma decimal_digits z : forallb isDigit (decimal z) = true.
Proof. apply digitsOf_digits. reflexivity. Qed.

Lemma zeros_digits n : forallb isDigit (zeros n) = true.
Proof. unfold zeros. induction (Z.to_nat n) as [|k IH]; [reflexivity|exact IH]. Qed.

Lemma isDigit_numChar c : isDigit c = true -> numChar c = true.
Proof. unfold numChar. intros ->. reflexivity. Qed.

Lemma digits_numChar d : forallb isDigit d = true -> forallb numChar d = true.
Proof. apply forallb_impl. exact isDigit_numChar. Qed.

Lemma forallb_app_intro (P : char -> bool) (a b : str) :
  forallb P a = true -> forallb P b = true -> forallb P (a ++ b) = true.
Proof. intros Ha Hb. rewrite forallb_app, Ha, Hb. reflexivity. Qed.

Lemma toStringPos_chars x m e : forallb numChar (toStringPos x m e) = true.
Proof.
  unfold toStringPos. cbv zeta.
  destruct (shortest 17 x _ _ _ 1) as [s n].
  pose proof (digits_numChar _ (decimal_digits s)) as D.
  destruct (_ && _)%bool.
  { apply forallb_app_intro; [exact D|]. apply digits_numChar, zeros_digits. }
  destruct (_ && _)%bool.
  { apply forallb_app_intro; [apply forallb_firstn; exact D|].
    apply forallb_app_intro; [reflexivity|apply forallb_skipn; exact D]. }
  destruct (_ && _)%bool.
  { apply forallb_app_intro; [reflexivity|].
    apply forallb_app_intro; [apply digits_numChar, zeros_digits|exact D]. }
  assert (forallb numChar
            ((if (0 <=? n - 1)%Z then lit "+" else lit "-") ++ decimal (Z.abs (n - 1))) = true)
    as X.
  { apply forallb_app_intro; [destruct (0 <=? n - 1)%Z; reflexivity|].
    apply digits_numChar, decimal_digits. }
  destruct (decimal s) as [|d [|d' rest]]; [reflexivity| |].
  - cbn [forallb] in D. apply andb_true_iff in D as [Hd _].
    cbn [forallb]. apply andb_true_iff. split; [exact Hd|].
    apply forallb_app_intro; [reflexivity|exact X].
  - cbn [forallb] in D. apply andb_true_iff in D as [Hd D].
    cbn [forallb]. apply andb_true_iff. split; [exact Hd|].
    apply forallb_app_intro; [reflexivity|].
    apply forallb_app_intro; [exact D|].
    apply forallb_app_intro; [reflexivity|exact X].
Qed.

Lemma Number_toString_chars x : forallb numChar (Number_toString x) = true.
Proof.
  destruct x as [s|s| |s m e]; cbn [Number_toString].
  - reflexivity.
  - destruct s; reflexivity.
  - reflexivity.
  - rewrite forallb_app, toStringPos_chars. destruct s; reflexivity.
Qed.

Lemma numChar_notLt c : numChar c = true -> notLt c = true.
Proof.
  unfold notLt. intros H. destruct (N.eqb_spec c 60) as [->|]; [|reflexivity].
  vm_compute in H. discriminate.
Qed.

Lemma scaledCall_notLt factor a b c : forallb notLt (scaledCall factor a b c) = true.
Proof.
  unfold scaledCall, scaled. rewrite !forallb_app.
  rewrite !(forallb_impl numChar notLt _ numChar_notLt (Number_toString_chars _)).
  reflexivity.
Qed.

Lemma scaledCall_prefix factor a b c :
  exists rest, scaledCall factor a b c = callPrefix ++ rest.
Proof. unfold scaledCall. fold callPrefix. eexists. reflexivity. Qed.

Lemma cameraCall_prefix a b c : exists rest, cameraCall a b c = callPrefix ++ rest.
Proof. unfold cameraCall. fold callPrefix. eexists. reflexivity. Qed.

(** ** zoomCamera makes no tag *)

Lemma startsWithI_lt_head n' c t :
  notLt c = true -> startsWithI true (60%N :: n') (c :: t) = false.
Proof.
  intros H. cbn [startsWithI].
  destruct (N.eqb_spec (canonicalize true 60%N) (canonicalize true c)) as [E|]; [|reflexivity].
  symmetry in E. change (canonicalize true 60%N) with 60%N in E.
  apply canonicalize_lt in E. subst c. discriminate.
Qed.

Lemma forallb_nth_skipn (P : char -> bool) (l : str) p :
  forallb P l = true -> p < length l -> exists y t, skipn p l = y :: t /\ P y = true.
Proof.
  intros H L. destruct (skipn_nonempty l p L) as [y [t E]].
  exists y, t. split; [exact E|].
  pose proof (forallb_skipn P l p H) as F. rewrite E in F. cbn [forallb] in F.
  apply andb_true_iff in F as [F _]. exact F.
Qed.

(** The rewritten text has an occurrence of a short tag-like needle only
    where the text had one: the positions before a call see the same
    code units, and a scaled call has no [<]. *)
Lemma zoomCamera_no_new n' factor T :
  length (60%N :: n') <= 20 ->
  forall m A, length A <= m ->
  (forall j, j < length A -> startsWithI true (60%N :: n') (skipn j (A ++ T)) = false) ->
  forall j, j < length (zoomCamera A factor) ->
  startsWithI true (60%N :: n') (skipn j (zoomCamera A factor ++ T)) = false.
Proof.
  intros Ln. unfold zoomCamera. fold (zoomReplacer factor).
  induction m as [|m IH]; intros A Hm H j Hj.
  { destruct A; [|simpl in Hm; lia]. simpl in Hj. lia. }
  revert Hj. rewrite (replace_all_unfold _ _ A).
  destruct (exec cameraRegex A) as [r|] eqn:E; [|intros Hj; apply H; exact Hj].
  pose proof (exec_split _ _ _ E) as Sp.
  apply exec_camera_matched in E as [a [b [c [_ [_ [_ [Em Eg]]]]]]].
  destruct r as [bf M g af]. cbn [before matched groups after] in *. subst M g.
  rewrite zoomReplacer_call.
  destruct (cameraCall a b c) as [|c0 M'] eqn:EM; [apply cameraCall_nonempty in EM; contradiction|].
  rewrite <- EM in *. clear EM c0 M'.
  set (Z := replace_all af cameraRegex (zoomReplacer factor)).
  set (S' := scaledCall factor a b c).
  intros Hj.
  assert (forall q, q < length af ->
          startsWithI true (60%N :: n') (skipn q (af ++ T)) = false) as Haf.
  { intros q Hq. pose proof (H (q + length (bf ++ cameraCall a b c))) as Hq'.
    assert (A ++ T = (bf ++ cameraCall a b c) ++ (af ++ T)) as EA
      by (rewrite Sp, <- !app_assoc; reflexivity).
    rewrite EA, <- skipn_skipn, skipn_app_exact in Hq'.
    apply Hq'. rewrite Sp, !length_app. lia. }
  destruct (Nat.lt_ge_cases j (length bf)) as [J1|J1].
  - (* before the call: the needle ends inside the fixed prefix *)
    pose proof (H j ltac:(rewrite Sp, !length_app; lia)) as Hj'.
    destruct (cameraCall_prefix a b c) as [r1 E1].
    destruct (scaledCall_prefix factor a b c) as [r2 E2]. fold S' in E2.
    rewrite Sp, E1 in Hj'. rewrite E2.
    rewrite <- !app_assoc in Hj'. rewrite <- !app_assoc.
    rewrite skipn_app_le in Hj' by lia. rewrite skipn_app_le by lia.
    rewrite app_assoc, startsWithI_app_long in Hj'.
    2:{ rewrite length_app, length_skipn. change (length callPrefix) with 20.
        unfold str, char in *. lia. }
    rewrite app_assoc, startsWithI_app_long.
    2:{ rewrite length_app, length_skipn. change (length callPrefix) with 20.
        unfold str, char in *. lia. }
    exact Hj'.
  - rewrite <- !app_assoc. rewrite skipn_app_ge by lia.
    destruct (Nat.lt_ge_cases (j - length bf) (length S')) as [J2|J2].
    + (* inside the scaled call *)
      rewrite skipn_app_le by lia.
      destruct (forallb_nth_skipn notLt S' (j - length bf)
                  (scaledCall_notLt factor a b c) J2) as [y [t [Ey Py]]].
      rewrite Ey. cbn [app]. apply startsWithI_lt_head. exact Py.
    + (* after the call *)
      rewrite skipn_app_ge by lia.
      apply (IH af).
      * rewrite Sp, !length_app in Hm.
        pose proof (cameraCall_nonempty a b c) as NE.
        destruct (cameraCall a b c); [congruence|]. simpl in Hm. lia.
      * exact Haf.
      * rewrite !length_app in Hj. fold Z in Hj. fold Z. lia.
Qed.

Lemma zoomCamera_keeps_absent n' factor A :
  length (60%N :: n') <= 20 ->
  includesI true A (60%N :: n') = false ->
  includesI true (zoomCamera A factor) (60%N :: n') = false.
Proof.
  intros Ln H.
  destruct (includesI true (zoomCamera A factor) (60%N :: n')) eqn:E; [|reflexivity].
  exfalso. rewrite includesI_indexOfI in E.
  destruct (indexOfI true (60%N :: n') (zoomCamera A factor)) as [k|] eqn:Ek; [|discriminate].
  apply indexOfI_Some in Ek as [Ek Lk].
  assert (forall j, j < length A ->
          startsWithI true (60%N :: n') (skipn j (A ++ [])) = false) as HA.
  { intros j _. rewrite app_nil_r. apply includesI_false_all. exact H. }
  assert (k < length (zoomCamera A factor)) as Hk by (simpl in Lk; lia).
  pose proof (zoomCamera_no_new n' factor [] Ln (length A) A (le_n _) HA k Hk) as N.
  rewrite app_nil_r in N. rewrite N in Ek. discriminate.
Qed.

(** ** zoomCamera around a tag *)

Lemma skipn_head_nth (s : str) p y t : skipn p s = y :: t -> y = nth p s 0%N.
Proof.
  intros E. pose proof (nth_skipn_0 s p 0) as N. rewrite E in N. cbn [nth] in N.
  rewrite Nat.add_0_r in N. exact N.
Qed.

(** No call starts inside an occurrence of a needle without the letter
    [c]. *)
Lemma tag_no_call n T B :
  startsWithI true n T = true -> length T = length n ->
  existsb (fun x => (canonicalize true x =? 67)%N) n = false ->
  forall p, p < length T -> matchAt cameraRegex (skipn p (T ++ B)) = None.
Proof.
  intros H L Hn p Hp. apply matchAt_needs_prefix.
  rewrite skipn_app_le by slia.
  destruct (skipn_nonempty T p Hp) as [y [t E]]. rewrite E.
  apply skipn_head_nth in E.
  change callPrefix with (99%N :: lit "amera.position.set(").
  cbn [app startsWithI]. rewrite !canonicalize_false.
  destruct (N.eqb_spec 99 y) as [Ey|]; [exfalso|reflexivity].
  assert (p < length n) as Hpn by slia.
  pose proof (startsWithI_nth true n T p H Hpn) as C.
  rewrite <- E, <- Ey in C. change (canonicalize true 99%N) with 67%N in C.
  pose proof (existsb_nth _ n 0%N Hpn Hn) as X.
  cbv beta in X. rewrite C in X. discriminate.
Qed.

(** A block without [)] and a tag put between two parts of the text are
    copied, and the parts are rewritten on their own. *)
Lemma zoomCamera_splice A blk tag B factor :
  forallb notRParen blk = true ->
  stopsAt interiorChar (tag ++ B) ->
  (forall p, p < length tag -> matchAt cameraRegex (skipn p (tag ++ B)) = None) ->
  zoomCamera (A ++ blk ++ tag ++ B) factor =
  zoomCamera A factor ++ blk ++ tag ++ zoomCamera B factor.
Proof.
  intros Hb Hs Ht.
  rewrite (app_assoc A blk (tag ++ B)).
  rewrite (zoomCamera_app (A ++ blk) (tag ++ B) factor (splitFree_boundary _ _ Hs)).
  rewrite (zoomCamera_app_no_paren A blk factor Hb).
  rewrite (zoomCamera_skip_prefix tag B factor Ht).
  rewrite <- app_assoc. reflexivity.
Qed.

Lemma indexOfI_split i n (h : str) k :
  indexOfI i n h = Some k ->
  exists A T B : str,
    h = A ++ T ++ B /\ length A = k /\ length T = length n /\
    startsWithI i n T = true /\
    (forall j, j < length A -> startsWithI i n (skipn j (A ++ T)) = false) /\
    firstn k h = A /\ skipn (k + length n) h = B.
Proof.
  intros H. pose proof (indexOfI_Some _ _ _ _ H) as [S L].
  exists (firstn k h), (firstn (length n) (skipn k h)), (skipn (k + length n) h).
  assert (length (firstn k h) = k) as LA by (rewrite length_firstn; lia).
  assert (length (firstn (length n) (skipn k h)) = length n) as LT
    by (rewrite length_firstn, length_skipn; lia).
  assert (h = firstn k h ++ firstn (length n) (skipn k h) ++ skipn (k + length n) h) as Eh.
  { rewrite <- (firstn_skipn k h) at 1. f_equal.
    rewrite <- (firstn_skipn (length n) (skipn k h)) at 1. f_equal.
    rewrite skipn_skipn. f_equal. lia. }
  split; [exact Eh|]. split; [exact LA|]. split; [exact LT|].
  split; [rewrite startsWithI_firstn by lia; exact S|].
  split; [|split; reflexivity].
  intros j Hj. rewrite LA in Hj.
  pose proof (indexOfI_first _ _ _ _ j H Hj) as F. rewrite Eh in F.
  rewrite skipn_app_le in F by lia. rewrite skipn_app_le by lia.
  rewrite app_assoc, startsWithI_app_long in F; [exact F|].
  rewrite length_app, LT. lia.
Qed.

Lemma indexOfI_joined i n (A T B : str) :
  startsWithI i n T = true -> length T = length n ->
  (forall j, j < length A -> startsWithI i n (skipn j (A ++ T)) = false) ->
  indexOfI i n (A ++ T ++ B) = Some (length A).
Proof.
  intros HT LT HA. apply indexOfI_intro.
  - rewrite skipn_app_exact. apply startsWithI_app_r. exact HT.
  - rewrite length_app. lia.
  - intros j Hj. pose proof (HA j Hj) as F.
    rewrite skipn_app_le in F by lia. rewrite skipn_app_le by lia.
    rewrite app_assoc, startsWithI_app_long; [exact F|].
    rewrite length_app, LT. lia.
Qed.

Lemma skipn_joined (A T B : str) m : length T = m -> skipn (length A + m) (A ++ T ++ B) = B.
Proof.
  intros <-. rewrite Nat.add_comm, <- skipn_skipn, skipn_app_exact. apply skipn_app_exact.
Qed.

Lemma startsWithI_lt_cons n' T :
  startsWithI true (60%N :: n') T = true -> exists T', T = 60%N :: T'.
Proof.
  destruct T as [|t0 T']; [discriminate|]. cbn [startsWithI]. intros H.
  apply andb_true_iff in H as [H _]. apply N.eqb_eq in H. symmetry in H.
  change (canonicalize true 60%N) with 60%N in H. apply canonicalize_lt in H.
  subst. eauto.
Qed.

(** Around the first occurrence of a tag in which no call starts, the
    rewriting works on the two sides, and the occurrence stays the first
    one. *)
Lemma zoomCamera_around_tag n' factor (A T B : str) :
  length (60%N :: n') <= 20 ->
  startsWithI true (60%N :: n') T = true -> length T = length (60%N :: n') ->
  (forall j, j < length A -> startsWithI true (60%N :: n') (skipn j (A ++ T)) = false) ->
  (forall p, p < length T -> matchAt cameraRegex (skipn p (T ++ B)) = None) ->
  zoomCamera (A ++ T ++ B) factor = zoomCamera A factor ++ T ++ zoomCamera B factor /\
  forall j, j < length (zoomCamera A factor) ->
    startsWithI true (60%N :: n') (skipn j (zoomCamera A factor ++ T)) = false.
Proof.
  intros Ln HT LT HA Hno. split.
  - destruct (startsWithI_lt_cons n' T HT) as [T' ET].
    pose proof (zoomCamera_splice A [] T B factor eq_refl) as Sp. cbn [app] in Sp.
    apply Sp; [rewrite ET; reflexivity|exact Hno].
  - apply (zoomCamera_no_new n' factor T Ln (length A) A (le_n _) HA).
Qed.

Lemma indexOfI_absent i n s :
  includesI i s n = false -> indexOfI i n s = None.
Proof.
  rewrite includesI_indexOfI. destruct (indexOfI i n s); [discriminate|reflexivity].
Qed.

Lemma indexOfI_None_absent i n s :
  indexOfI i n s = None -> includesI i s n = false.
Proof. rewrite includesI_indexOfI. intros ->. reflexivity. Qed.

Lemma cssToInject_no_paren : forallb notRParen cssToInject = true.
Proof. vm_compute. reflexivity. Qed.

Lemma hideBodyText_head_at (A T B : str) :
  startsWithI true (lit "</head>") T = true -> length T = 7 ->
  (forall j, j < length A -> startsWithI true (lit "</head>") (skipn j (A ++ T)) = false) ->
  hideBodyText (A ++ T ++ B) = A ++ cssToInject ++ lit "</head>" ++ B.
Proof.
  intros HT LT HA. rewrite hideBodyText_eq.
  rewrite (indexOfI_joined true (lit "</head>") A T B HT LT HA).
  rewrite firstn_app_exact, (skipn_joined A T B 7 LT). reflexivity.
Qed.

Lemma hideBodyText_body_at (A T B : str) :
  includesI true (A ++ T ++ B) (lit "</head>") = false ->
  startsWithI true (lit "</body>") T = true -> length T = 7 ->
  (forall j, j < length A -> startsWithI true (lit "</body>") (skipn j (A ++ T)) = false) ->
  hideBodyText (A ++ T ++ B) = A ++ cssToInject ++ lit "</body>" ++ B.
Proof.
  intros Hh HT LT HA. rewrite hideBodyText_eq.
  rewrite (indexOfI_absent _ _ _ Hh).
  rewrite (indexOfI_joined true (lit "</body>") A T B HT LT HA).
  rewrite firstn_app_exact, (skipn_joined A T B 7 LT). reflexivity.
Qed.

Lemma hideBodyText_plain_at (h : str) :
  includesI true h (lit "</head>") = false ->
  includesI true h (lit "</body>") = false ->
  hideBodyText h = h ++ cssToInject.
Proof.
  intros Hh Hb. rewrite hideBodyText_eq.
  rewrite (indexOfI_absent _ _ _ Hh), (indexOfI_absent _ _ _ Hb). reflexivity.
Qed.

Lemma zoomCamera_styled n' factor (A B : str) :
  existsb (fun x => (canonicalize true x =? 67)%N) (60%N :: n') = false ->
  zoomCamera (A ++ cssToInject ++ (60%N :: n') ++ B) factor =
  zoomCamera A factor ++ cssToInject ++ (60%N :: n') ++ zoomCamera B factor.
Proof.
  intros Hn. apply zoomCamera_splice.
  - apply cssToInject_no_paren.
  - reflexivity.
  - apply (tag_no_call (60%N :: n') (60%N :: n') B (startsWithI_refl true _) eq_refl Hn).
Qed.

Lemma zoomCamera_hideBodyText_comm html factor :
  zoomCamera (hideBodyText html) factor = hideBodyText (zoomCamera html factor).
Proof.
  destruct (indexOfI true (lit "</head>") html) as [k|] eqn:Eh.
  - apply indexOfI_split in Eh as [A [T [B [-> [_ [LT [HT [HA _]]]]]]]].
    change (length (lit "</head>")) with 7 in LT.
    destruct (zoomCamera_around_tag (lit "/head>") factor A T B
                ltac:(vm_compute; lia) HT LT HA
                (tag_no_call _ T B HT LT eq_refl)) as [Ez HzA].
    rewrite (hideBodyText_head_at A T B HT LT HA), Ez.
    rewrite (hideBodyText_head_at _ T _ HT LT HzA).
    apply (zoomCamera_styled (lit "/head>") factor A B eq_refl).
  - apply indexOfI_None_absent in Eh.
    pose proof (zoomCamera_keeps_absent (lit "/head>") factor html ltac:(vm_compute; lia) Eh)
      as Eh'.
    destruct (indexOfI true (lit "</body>") html) as [k|] eqn:Eb.
    + apply indexOfI_split in Eb as [A [T [B [-> [_ [LT [HT [HA _]]]]]]]].
      change (length (lit "</body>")) with 7 in LT.
      destruct (zoomCamera_around_tag (lit "/body>") factor A T B
                  ltac:(vm_compute; lia) HT LT HA
                  (tag_no_call _ T B HT LT eq_refl)) as [Ez HzA].
      rewrite (hideBodyText_body_at A T B Eh HT LT HA).
      rewrite Ez in Eh'. rewrite Ez.
      rewrite (hideBodyText_body_at _ T _ Eh' HT LT HzA).
      apply (zoomCamera_styled (lit "/body>") factor A B eq_refl).
    + apply indexOfI_None_absent in Eb.
      pose proof (zoomCamera_keeps_absent (lit "/body>") factor html ltac:(vm_compute; lia) Eb)
        as Eb'.
      rewrite (hideBodyText_plain_at html Eh Eb).
      rewrite (hideBodyText_plain_at _ Eh' Eb').
      apply zoomCamera_app_no_paren. apply cssToInject_no_paren.
Qed.

(** X5: the style injection and the camera rewriting commute: rewriting
    the calls of a styled document gives the same text as styling the
    rewritten document, for every document and factor. *)
Theorem zoomCamera_hideBodyText_commute (html : str) (zoomFactor : number) :
  zoomCamera (hideBodyText html) zoomFactor = hideBodyText (zoomCamera html zoomFactor).
Proof. apply zoomCamera_hideBodyText_comm. Qed.

(** ** zoomCamera and the injected controller *)

(** No call starts inside a closing script tag, in any letter case. *)
Lemma script_tag_no_call (T B : str) :
  startsWithI true (lit "</script>") T = true -> length T = 9 ->
  forall p, p < length T -> matchAt cameraRegex (skipn p (T ++ B)) = None.
Proof.
  intros H L p Hp. apply matchAt_needs_prefix.
  destruct T as [|t0 [|t1 [|t2 [|t3 [|t4 [|t5 [|t6 [|t7 [|t8 [|]]]]]]]]]]; try discriminate.
  change (lit "</script>")
    with [60%N; 47%N; 115%N; 99%N; 114%N; 105%N; 112%N; 116%N; 62%N] in H.
  cbn [startsWithI] in H.
  repeat (apply andb_true_iff in H as [?E H]; apply N.eqb_eq in E).
  change callPrefix with (99%N :: 97%N :: lit "mera.position.set(").
  destruct p as [|[|[|[|[|[|[|[|[|p]]]]]]]]]; [..|simpl in Hp; lia];
    cbn [skipn app startsWithI]; rewrite ?canonicalize_false;
    match goal with
    | |- ((99 =? ?y)%N && _)%bool = false =>
        destruct (N.eqb_spec 99 y) as [Ey|]; [|reflexivity]
    end;
    subst; try (vm_compute in E; discriminate); try (vm_compute in E0; discriminate);
    try (vm_compute in E1; discriminate); try (vm_compute in E2; discriminate);
    try (vm_compute in E4; discriminate); try (vm_compute in E5; discriminate);
    try (vm_compute in E6; discriminate); try (vm_compute in E7; discriminate).
  cbn [andb].
  destruct (N.eqb_spec 97 t4) as [Ey|]; [|reflexivity].
  subst. vm_compute in E3. discriminate.
Qed.

Lemma lastIndexOfI_split i n (h : str) k :
  n <> [] -> lastIndexOfI i n h = Some k ->
  exists A T B : str,
    h = A ++ T ++ B /\ length A = k /\ length T = length n /\
    startsWithI i n T = true /\ includesI i B n = false.
Proof.
  intros Hn H. pose proof (lastIndexOfI_Some _ _ _ _ H) as [S L].
  exists (firstn k h), (firstn (length n) (skipn k h)), (skipn (k + length n) h).
  split; [|split; [|split; [|split]]].
  - rewrite <- (firstn_skipn k h) at 1. f_equal.
    rewrite <- (firstn_skipn (length n) (skipn k h)) at 1. f_equal.
    rewrite skipn_skipn. f_equal. lia.
  - rewrite length_firstn. lia.
  - rewrite length_firstn, length_skipn. lia.
  - rewrite startsWithI_firstn by lia. exact S.
  - apply lastIndexOfI_after; assumption.
Qed.

Lemma spliceBlock_split :
  spliceBlock = firstn 6 spliceBlock ++ skipn 6 spliceBlock /\
  forallb notRParen (firstn 6 spliceBlock) = true /\
  stopsAt interiorChar (skipn 6 spliceBlock) /\
  exec cameraRegex (skipn 6 spliceBlock) = None.
Proof.
  split; [symmetry; apply firstn_skipn|].
  split; [vm_compute; reflexivity|].
  split; vm_compute; reflexivity.
Qed.

(** The spliced block holds no call and ends every call before it. *)
Lemma zoomCamera_app_spliceBlock A factor :
  zoomCamera (A ++ spliceBlock) factor = zoomCamera A factor ++ spliceBlock.
Proof.
  destruct spliceBlock_split as [E [H1 [H2 H3]]]. rewrite E. clear E.
  revert H1 H2 H3. generalize (skipn 6 spliceBlock) as G.
  generalize (firstn 6 spliceBlock) as W.
  intros W G H1 H2 H3. rewrite app_assoc.
  rewrite (zoomCamera_app (A ++ W) G factor (splitFree_boundary _ _ H2)).
  rewrite (zoomCamera_no_match G factor H3).
  rewrite (zoomCamera_app_no_paren A W factor H1), <- app_assoc. reflexivity.
Qed.

Lemma newScriptElement_no_call :
  stopsAt interiorChar newScriptElement /\ exec cameraRegex newScriptElement = None.
Proof. split; vm_compute; reflexivity. Qed.

Lemma zoomCamera_app_newScriptElement A factor :
  zoomCamera (A ++ newScriptElement) factor = zoomCamera A factor ++ newScriptElement.
Proof.
  destruct newScriptElement_no_call as [H1 H2].
  rewrite (zoomCamera_app A newScriptElement factor (splitFree_boundary _ _ H1)).
  rewrite (zoomCamera_no_match _ factor H2). reflexivity.
Qed.

Lemma injectGameMode_append (h : str) :
  includesI true h (lit "</script>") = false ->
  injectGameMode h = h ++ newScriptElement.
Proof.
  intros H. rewrite injectGameMode_eq. rewrite includesI_lastIndexOfI in H.
  destruct (lastIndexOfI true (lit "</script>") h); [discriminate|reflexivity].
Qed.

Lemma injectGameMode_at (A T B : str) :
  startsWithI true (lit "</script>") T = true -> length T = 9 ->
  includesI true B (lit "</script>") = false ->
  injectGameMode (A ++ T ++ B) = A ++ spliceBlock ++ lit "</script>" ++ B.
Proof. intros HT LT HB. apply injectGameMode_split; assumption. Qed.

Lemma zoomCamera_injectGameMode_comm html factor :
  zoomCamera (injectGameMode html) factor = injectGameMode (zoomCamera html factor).
Proof.
  destruct (lastIndexOfI true (lit "</script>") html) as [k|] eqn:E.
  - apply lastIndexOfI_split in E as [A [T [B [-> [_ [LT [HT HB]]]]]]]; [|discriminate].
    change (length (lit "</script>")) with 9 in LT.
    rewrite (injectGameMode_at A T B HT LT HB).
    destruct (startsWithI_lt_cons (lit "/script>") T HT) as [T' ET].
    assert (zoomCamera (A ++ T ++ B) factor =
            zoomCamera A factor ++ T ++ zoomCamera B factor) as Ez.
    { pose proof (zoomCamera_splice A [] T B factor eq_refl) as Sp. cbn [app] in Sp.
      apply Sp; [rewrite ET; reflexivity|].
      apply script_tag_no_call; assumption. }
    rewrite Ez.
    rewrite (injectGameMode_at _ T _ HT LT
               (zoomCamera_keeps_absent (lit "/script>") factor B
                  ltac:(vm_compute; lia) HB)).
    rewrite (app_assoc A spliceBlock).
    rewrite (zoomCamera_app (A ++ spliceBlock) (lit "</script>" ++ B) factor
               (splitFree_boundary _ (lit "</script>" ++ B) eq_refl)).
    rewrite zoomCamera_app_spliceBlock.
    rewrite (zoomCamera_skip_prefix (lit "</script>") B factor
               (script_tag_no_call _ B (startsWithI_refl true _) eq_refl)).
    rewrite <- app_assoc. reflexivity.
  - assert (includesI true html (lit "</script>") = false) as H
      by (rewrite includesI_lastIndexOfI, E; reflexivity).
    rewrite (injectGameMode_append html H).
    rewrite (injectGameMode_append _
               (zoomCamera_keeps_absent (lit "/script>") factor html
                  ltac:(vm_compute; lia) H)).
    apply zoomCamera_app_newScriptElement.
Qed.

(** X6: the controller injection and the camera rewriting commute:
    rewriting the calls of the injected document gives the same text as
    injecting into the rewritten document, so the injected script is
    never altered by the rewriting. *)
Theorem zoomCamera_injectGameMode_commute (html : str) (zoomFactor : number) :
  zoomCamera (injectGameMode html) zoomFactor = injectGameMode (zoomCamera html zoomFactor).
Proof. apply zoomCamera_injectGameMode_comm. Qed.

(** ** What injectGameMode always does *)

Lemma includesI_intro i n (s : str) q :
  startsWithI i n (skipn q s) = true -> includesI i s n = true.
Proof.
  intros H. destruct (includesI i s n) eqn:E; [reflexivity|].
  rewrite (includesI_false_all i n s q E) in H. discriminate.
Qed.

Lemma includesI_self i n (a b : str) : includesI i (a ++ n ++ b) n = true.
Proof.
  apply (includesI_intro i n _ (length a)).
  rewrite skipn_app_exact. apply startsWithI_self.
Qed.

Lemma includesI_occurrence i n (s : str) :
  includesI i s n = true ->
  exists q, startsWithI i n (skipn q s) = true /\ q + length n <= length s.
Proof.
  rewrite includesI_indexOfI. destruct (indexOfI i n s) as [q|] eqn:E; [|discriminate].
  intros _. exists q. apply indexOfI_Some. exact E.
Qed.

Lemma injectGameMode_shape html :
  (exists a ws b, injectGameMode html = a ++ gameScript ++ ws ++ lit "</script>" ++ b /\
                  (ws = [] \/ ws = newline)) /\
  length (injectGameMode html) =
    length html + length gameScript
      + (if includesI true html (lit "</script>") then 2 else 31).
Proof.
  rewrite injectGameMode_eq, includesI_lastIndexOfI.
  destruct (lastIndexOfI true (lit "</script>") html) as [k|] eqn:E.
  - split.
    + exists (firstn k html ++ newline), newline, (skipn (k + 9) html).
      rewrite <- !app_assoc. auto.
    + apply lastIndexOfI_Some in E as [_ L]. change (length (lit "</script>")) with 9 in L.
      rewrite !length_app, length_firstn, length_skipn.
      change (length newline) with 1. change (length (lit "</script>")) with 9. lia.
  - split.
    + exists (html ++ lit "<script type=" ++ dquote ++ lit "module" ++ dquote ++ lit ">"),
             [], [].
      unfold newScriptElement. rewrite <- !app_assoc, app_nil_r. auto.
    + unfold newScriptElement. rewrite !length_app.
      change (length (lit "<script type=")) with 13. change (length dquote) with 1.
      change (length (lit "module")) with 6. change (length (lit ">")) with 1.
      change (length (lit "</script>")) with 9. lia.
Qed.

Lemma injectGameMode_includes html :
  includesI false (injectGameMode html) gameScript = true /\
  includesI true (injectGameMode html) (lit "</script>") = true.
Proof.
  destruct (injectGameMode_shape html) as [[a [ws [b [E _]]]] _]. rewrite E. split.
  - apply includesI_self.
  - rewrite (app_assoc a gameScript), (app_assoc (a ++ gameScript) ws). apply includesI_self.
Qed.

(** X7: whatever the document, the result of [injectGameMode] holds the
    whole game script followed, directly or after one line feed, by a
    closing script tag, so it always has a closing script tag; it is
    longer than the document by the script and 2 code units when the
    document has a closing script tag, and by the script and 31 code
    units when it has none. *)
Theorem injectGameMode_always_injects (html : str) :
  (exists a ws b, injectGameMode html = a ++ gameScript ++ ws ++ lit "</script>" ++ b /\
                  (ws = [] \/ ws = newline)) /\
  includesI true (injectGameMode html) (lit "</script>") = true /\
  length (injectGameMode html) =
    length html + length gameScript
      + (if includesI true html (lit "</script>") then 2 else 31).
Proof.
  destruct (injectGameMode_shape html) as [S L].
  split; [exact S|]. split; [apply injectGameMode_includes|exact L].
Qed.

(** ** Occurrences that cannot overlap *)

Lemma canonicalize_weaken i a b :
  canonicalize i a = canonicalize i b -> canonicalize true a = canonicalize true b.
Proof.
  destruct i; [auto|]. rewrite !canonicalize_false. intros ->. reflexivity.
Qed.

Lemma occurrence_nth i n (s : str) q j :
  startsWithI i n (skipn q s) = true -> j < length n ->
  canonicalize true (nth j n 0%N) = canonicalize true (nth (q + j) s 0%N).
Proof.
  intros H Hj. pose proof (startsWithI_nth i n _ j H Hj) as E.
  rewrite nth_skipn_0 in E. apply (canonicalize_weaken i). exact E.
Qed.

Lemma occurrences_disjoint i X Y (s : str) q k :
  clashFree X Y = true ->
  startsWithI i X (skipn q s) = true -> startsWithI true Y (skipn k s) = true ->
  q + length X <= k \/ k + length Y <= q.
Proof.
  intros C HX HY. unfold clashFree in C. apply andb_true_iff in C as [C1 C2].
  rewrite forallb_forall in C1, C2.
  destruct (Nat.le_gt_cases (q + length X) k) as [|L1]; [left; assumption|].
  destruct (Nat.le_gt_cases (k + length Y) q) as [|L2]; [right; assumption|].
  exfalso. destruct (Nat.le_gt_cases q k) as [Hqk|Hqk].
  - assert (In (k - q) (seq 0 (length X))) as I by (apply in_seq; lia).
    apply C1 in I. apply negb_true_iff in I.
    rewrite <- not_true_iff_false in I. apply I. apply forallb_forall.
    intros j Hj. apply in_seq in Hj. unfold agreeAt. apply N.eqb_eq.
    rewrite (occurrence_nth i X s q (k - q + j) HX ltac:(lia)).
    rewrite (occurrence_nth true Y s k (0 + j) HY ltac:(lia)).
    f_equal. f_equal. lia.
  - assert (In (q - k) (seq 1 (length Y - 1))) as I by (apply in_seq; lia).
    apply C2 in I. apply negb_true_iff in I.
    rewrite <- not_true_iff_false in I. apply I. apply forallb_forall.
    intros j Hj. apply in_seq in Hj. unfold agreeAt. apply N.eqb_eq.
    rewrite (occurrence_nth i X s q (0 + j) HX ltac:(lia)).
    rewrite (occurrence_nth true Y s k (q - k + j) HY ltac:(lia)).
    f_equal. f_equal. lia.
Qed.

(** A text that cannot overlap a closing script tag survives the
    injection. *)
Lemma injectGameMode_keeps i X html :
  clashFree X (lit "</script>") = true ->
  includesI i html X = true -> includesI i (injectGameMode html) X = true.
Proof.
  intros C H.
  destruct (lastIndexOfI true (lit "</script>") html) as [k|] eqn:E.
  - apply lastIndexOfI_split in E as [A [T [B [-> [LA [LT [HT HB]]]]]]]; [|discriminate].
    change (length (lit "</script>")) with 9 in LT.
    rewrite (injectGameMode_at A T B HT LT HB).
    apply includesI_occurrence in H as [q [Hq Lq]].
    assert (startsWithI true (lit "</script>") (skipn (length A) (A ++ T ++ B)) = true) as HT'.
    { rewrite skipn_app_exact. apply startsWithI_app_r. exact HT. }
    destruct (occurrences_disjoint i X _ _ q (length A) C Hq HT') as [D|D].
    + apply includesI_app_r. apply (includesI_intro i X A q).
      rewrite skipn_app_le in Hq by lia.
      rewrite startsWithI_app_long in Hq; [exact Hq|]. rewrite length_skipn. lia.
    + change (length (lit "</script>")) with 9 in D.
      apply includesI_app_l, includesI_app_l, includesI_app_l.
      apply (includesI_intro i X B (q - (length A + 9))).
      rewrite <- (skipn_joined A T B 9 LT), skipn_skipn.
      replace (q - (length A + 9) + (length A + 9)) with q by lia. exact Hq.
  - assert (includesI true html (lit "</script>") = false) as H'
      by (rewrite includesI_lastIndexOfI, E; reflexivity).
    rewrite (injectGameMode_append html H'). apply includesI_app_r. exact H.
Qed.

Lemma cssToInject_clashFree : clashFree cssToInject (lit "</script>") = true.
Proof. vm_compute. reflexivity. Qed.

Lemma hideBodyText_includes html : includesI false (hideBodyText html) cssToInject = true.
Proof.
  rewrite hideBodyText_eq.
  destruct (indexOfI true (lit "</head>") html) as [k|]; [apply includesI_self|].
  destruct (indexOfI true (lit "</body>") html) as [k|]; [apply includesI_self|].
  rewrite <- (app_nil_r cssToInject) at 1. apply includesI_self.
Qed.

Lemma staged_includes html factor :
  includesI false (injectGameMode (zoomCamera (hideBodyText html) factor)) cssToInject = true /\
  includesI false (injectGameMode (zoomCamera (hideBodyText html) factor)) gameScript = true.
Proof.
  split; [|apply injectGameMode_includes].
  apply (injectGameMode_keeps false _ _ cssToInject_clashFree).
  rewrite zoomCamera_hideBodyText_comm. apply hideBodyText_includes.
Qed.

(** ** The callers in App.tsx *)

(** X8: the code [handleVoxelize] stores for a generated scene always
    holds both the style block and the game script, whatever text the
    model returned. *)
Theorem voxelizeCode_styled_and_playable (codeRaw : str) :
  includes (voxelizeCode codeRaw) cssToInject = true /\
  includes (voxelizeCode codeRaw) gameScript = true.
Proof.
  rewrite <- !includesI_false_exact. apply staged_includes.
Qed.

Lemma errorScene_code :
  injectGameMode errorScene = errorScene ++ newScriptElement /\
  includes (injectGameMode errorScene) cssToInject = false.
Proof.
  assert (injectGameMode errorScene = errorScene ++ newScriptElement) as E
    by (apply injectGameMode_append; vm_compute; reflexivity).
  split; [exact E|]. rewrite E. vm_compute. reflexivity.
Qed.

(** X9: in [handleExampleClick], when the response is ok and its text is
    read, the text goes through all four stages (no stage throws, so the
    [catch] is not taken) and the stored code holds the style block;
    whatever the fetch gave, the stored code holds the game script; when
    the fetch or the reading of the text rejects, the stored code is the
    error scene followed by a new script element, without the style
    block. *)
Theorem exampleVoxelCode_outcomes (exampleHtml : str) (r : HtmlFetch) :
  includes (exampleVoxelCode exampleHtml r) gameScript = true /\
  (forall rawText, r = ResponseOk rawText ->
     pipeline rawText defaultZoomFactor = Return (exampleVoxelCode exampleHtml r) /\
     includes (exampleVoxelCode exampleHtml r) cssToInject = true) /\
  (r = FetchRejected \/ r = TextRejected ->
     exampleVoxelCode exampleHtml r = errorScene ++ newScriptElement /\
     includes (exampleVoxelCode exampleHtml r) cssToInject = false).
Proof.
  split; [|split].
  - unfold exampleVoxelCode. rewrite <- includesI_false_exact.
    apply injectGameMode_includes.
  - intros rawText ->. unfold exampleVoxelCode, exampleHtmlText, pipeline.
    rewrite extractHtmlFromText_spec. split; [reflexivity|].
    rewrite <- includesI_false_exact. apply staged_includes.
  - intros [->| ->]; exact errorScene_code.
Qed.

Lemma exampleVoxelCode_outcomes_witness :
  pipeline exampleInput defaultZoomFactor =
    Return (exampleVoxelCode (lit "/examples/a.html") (ResponseOk exampleInput)) /\
  exampleVoxelCode (lit "/examples/a.html") FetchRejected = errorScene ++ newScriptElement /\
  exampleVoxelCode (lit "/examples/a.html") TextRejected = errorScene ++ newScriptElement.
Proof.
  destruct (exampleVoxelCode_outcomes (lit "/examples/a.html") (ResponseOk exampleInput))
    as [_ [H _]].
  destruct (exampleVoxelCode_outcomes (lit "/examples/a.html") FetchRejected)
    as [_ [_ H1]].
  destruct (exampleVoxelCode_outcomes (lit "/examples/a.html") TextRejected)
    as [_ [_ H2]].
  split; [apply (H exampleInput eq_refl)|].
  split; [apply (H1 (or_introl eq_refl))|apply (H2 (or_intror eq_refl))].
Defined.

(** * The style injection and the controller injection *)

Lemma mismatch_app (n : str) : forall (s r : str),
  mismatch n s = true -> startsWithI true n (s ++ r) = false.
Proof.
  induction n as [|a n IH]; intros s r H; [destruct s; discriminate|].
  destruct s as [|b s]; [discriminate|]. cbn [mismatch] in H. cbn [app startsWithI].
  destruct (canonicalize true a =? canonicalize true b)%N; [|reflexivity].
  rewrite (IH s r H). reflexivity.
Qed.

Lemma allMismatch_at (n : str) : forall k (s : str) j,
  allMismatch n s k = true -> j < k -> j < length s -> mismatch n (skipn j s) = true.
Proof.
  induction k as [|k IH]; intros s j H Hj Hs; [lia|].
  destruct s as [|c s]; [simpl in Hs; lia|]. cbn [allMismatch] in H.
  apply andb_true_iff in H as [H1 H2]. destruct j as [|j]; [exact H1|].
  cbn [skipn]. apply (IH s j H2); simpl in Hs; lia.
Qed.

Lemma startsWithI_canon (n : str) : forall (s s' : str),
  map (canonicalize true) s = map (canonicalize true) s' ->
  startsWithI true n s = startsWithI true n s'.
Proof.
  induction n as [|a n IH]; intros s s' H; [reflexivity|].
  destruct s as [|b s], s' as [|b' s']; try discriminate; [reflexivity|].
  cbn [map] in H. injection H as Hb Hs. cbn [startsWithI].
  rewrite Hb, (IH s s' Hs). reflexivity.
Qed.

Lemma occurrence_canon (t : str) : forall (T : str),
  startsWithI true t T = true -> length T = length t ->
  map (canonicalize true) T = map (canonicalize true) t.
Proof.
  induction t as [|a t IH]; intros T H L; [destruct T; [reflexivity|discriminate]|].
  destruct T as [|b T]; [discriminate|]. cbn [startsWithI] in H.
  apply andb_true_iff in H as [H1 H2]. apply N.eqb_eq in H1.
  cbn [map]. rewrite H1, (IH T H2); [reflexivity|]. simpl in L. lia.
Qed.

(** Where an occurrence [T] of the tag [t] is replaced by a block and
    [t], the occurrences of a needle [n] before and after it stay where
    they were and no new one appears, provided the block starts with a
    line feed, [n] has no line feed and [n] matches nowhere in the
    block. *)
Lemma windows_after_splice (n A T B t blk blk' : str) m :
  startsWithI true t T = true -> length T = length t ->
  existsb (fun x => (canonicalize true x =? canonicalize true 10)%N) n = false ->
  blk = 10%N :: blk' ->
  allMismatch n (blk ++ t) (length blk) = true ->
  (forall j, j < length A + m -> startsWithI true n (skipn j (A ++ T ++ B)) = false) ->
  forall j, j < length A + length blk + m ->
    startsWithI true n (skipn j (A ++ blk ++ t ++ B)) = false.
Proof.
  intros HT LT Hnl Hblk Hmis Hold j Hj.
  destruct (Nat.lt_ge_cases j (length A)) as [J1|J1].
  - rewrite skipn_app_le by lia.
    destruct (Nat.le_gt_cases (length n) (length (skipn j A))) as [L|L].
    + rewrite startsWithI_app_long by exact L.
      pose proof (Hold j ltac:(lia)) as H. rewrite skipn_app_le in H by lia.
      rewrite startsWithI_app_long in H by exact L. exact H.
    + rewrite Hblk. cbn [app]. apply startsWithI_blocked; assumption.
  - rewrite skipn_app_ge by lia.
    destruct (Nat.lt_ge_cases (j - length A) (length blk)) as [J2|J2].
    + rewrite app_assoc, skipn_app_le by (rewrite length_app; lia).
      apply mismatch_app. apply (allMismatch_at n (length blk)); [exact Hmis|exact J2|].
      rewrite length_app. lia.
    + rewrite skipn_app_ge by lia.
      pose proof (Hold (length A + (j - length A - length blk)) ltac:(lia)) as H.
      rewrite skipn_app_ge in H by lia.
      replace (length A + (j - length A - length blk) - length A)
        with (j - length A - length blk) in H by lia.
      rewrite <- H. apply startsWithI_canon.
      rewrite <- !skipn_map, !map_app. rewrite (occurrence_canon t T HT LT). reflexivity.
Qed.

Lemma includesI_windows i n (s : str) :
  includesI i s n = false <-> forall j, startsWithI i n (skipn j s) = false.
Proof.
  split.
  - intros H j. apply includesI_false_all. exact H.
  - intros H. destruct (includesI i s n) eqn:E; [|reflexivity].
    apply includesI_occurrence in E as [q [E _]]. rewrite H in E. discriminate.
Qed.

Lemma absent_after_splice (n A T B t blk blk' : str) :
  startsWithI true t T = true -> length T = length t ->
  existsb (fun x => (canonicalize true x =? canonicalize true 10)%N) n = false ->
  blk = 10%N :: blk' ->
  allMismatch n (blk ++ t) (length blk) = true ->
  includesI true (A ++ T ++ B) n = false ->
  includesI true (A ++ blk ++ t ++ B) n = false.
Proof.
  intros HT LT Hnl Hblk Hmis H. apply includesI_windows. intros j.
  apply (windows_after_splice n A T B t blk blk' (S j) HT LT Hnl Hblk Hmis); [|lia].
  intros q _. apply includesI_false_all. exact H.
Qed.

(** Putting a part after a text makes no occurrence of a needle if
    neither has one and the part starts with a code unit the needle has
    at most in front. *)
Lemma absent_app n (u v v' : str) c :
  includesI true u n = false -> includesI true v n = false -> v = c :: v' ->
  existsb (fun x => (canonicalize true x =? canonicalize true c)%N) (tl n) = false ->
  includesI true (u ++ v) n = false.
Proof.
  intros Hu Hv Ev Hc. apply includesI_windows. intros j.
  destruct (Nat.lt_ge_cases j (length u)) as [J|J].
  - rewrite skipn_app_le by lia.
    destruct (Nat.le_gt_cases (length n) (length (skipn j u))) as [L|L].
    + rewrite startsWithI_app_long by exact L. apply includesI_false_all. exact Hu.
    + destruct (skipn_nonempty u j J) as [y [u' E]]. rewrite E in *.
      destruct n as [|a n]; [simpl in L; lia|]. cbn [app startsWithI].
      rewrite Ev. cbn [tl] in Hc.
      rewrite (startsWithI_blocked true n u' c v' Hc); [apply andb_false_r|].
      simpl in L. lia.
  - rewrite skipn_app_ge by lia. apply includesI_false_all. exact Hv.
Qed.

Lemma app_prefix_split (X Y A Z : str) :
  X ++ Y = A ++ Z -> length X <= length A -> exists M, A = X ++ M /\ Y = M ++ Z.
Proof.
  intros E L. apply app_eq_app in E as [l [[E1 E2]|[E1 E2]]].
  - assert (l = []) as ->.
    { apply (f_equal (@length _)) in E1. rewrite length_app in E1.
      destruct l; [reflexivity|simpl in E1; lia]. }
    rewrite app_nil_r in E1. cbn [app] in E2. subst.
    exists []. rewrite app_nil_r. auto.
  - exists l. auto.
Qed.

Lemma spliceFirst_at t (A T B : str) :
  startsWithI true t T = true -> length T = length t ->
  (forall j, j < length A -> startsWithI true t (skipn j (A ++ T ++ B)) = false) ->
  spliceFirst t (A ++ T ++ B) = A ++ cssToInject ++ t ++ B.
Proof.
  intros HT LT HA. unfold spliceFirst.
  rewrite (indexOfI_intro true t (A ++ T ++ B) (length A)).
  - rewrite firstn_app_exact, (skipn_joined A T B (length t) LT). reflexivity.
  - rewrite skipn_app_exact. apply startsWithI_app_r. exact HT.
  - rewrite length_app. lia.
  - exact HA.
Qed.

Lemma indexOfI_windows i n (h : str) k :
  indexOfI i n h = Some k ->
  exists A T B : str,
    h = A ++ T ++ B /\ length A = k /\ length T = length n /\
    startsWithI i n T = true /\
    (forall j, j < length A -> startsWithI i n (skipn j (A ++ T ++ B)) = false).
Proof.
  intros H. pose proof H as H'.
  apply indexOfI_split in H as [A [T [B [E [LA [LT [HT _]]]]]]].
  exists A, T, B. split; [exact E|]. split; [exact LA|]. split; [exact LT|].
  split; [exact HT|]. intros j Hj. rewrite <- E.
  apply (indexOfI_first i n h k j H'). lia.
Qed.

Lemma spliceFirst_absent t (s : str) : includesI true s t = false -> spliceFirst t s = s.
Proof. intros H. unfold spliceFirst. rewrite (indexOfI_absent _ _ _ H). reflexivity. Qed.

Lemma hideBodyText_cases html :
  hideBodyText html =
  if includesI true html (lit "</head>") then spliceFirst (lit "</head>") html
  else if includesI true html (lit "</body>") then spliceFirst (lit "</body>") html
  else html ++ cssToInject.
Proof.
  rewrite hideBodyText_eq, !includesI_indexOfI. unfold spliceFirst.
  destruct (indexOfI true (lit "</head>") html); [reflexivity|].
  destruct (indexOfI true (lit "</body>") html); reflexivity.
Qed.

Lemma cssToInject_cons : exists blk', cssToInject = 10%N :: blk'.
Proof. eexists. vm_compute. reflexivity. Qed.

Lemma spliceBlock_cons : exists blk', spliceBlock = 10%N :: blk'.
Proof. eexists. unfold spliceBlock, newline. cbn [app]. reflexivity. Qed.

Section Tag.

Variable t : str.
Hypothesis t_length : length t = 7.
Hypothesis t_tail :
  existsb (fun x => (canonicalize true x =? canonicalize true 60)%N) (tl t) = false.
Hypothesis t_line :
  existsb (fun x => (canonicalize true x =? canonicalize true 10)%N) t = false.
Hypothesis t_clash : clashFree t (lit "</script>") = true.
Hypothesis t_block :
  allMismatch t (spliceBlock ++ lit "</script>") (length spliceBlock) = true.
Hypothesis t_style :
  allMismatch (lit "</script>") (cssToInject ++ t) (length cssToInject) = true.
Hypothesis t_element : includesI true newScriptElement t = false.

(** The controller injection neither makes nor removes an occurrence of
    the tag. *)
Lemma injectGameMode_presence html :
  includesI true (injectGameMode html) t = includesI true html t.
Proof.
  destruct (includesI true html t) eqn:H.
  - apply (injectGameMode_keeps true t html t_clash H).
  - destruct (lastIndexOfI true (lit "</script>") html) as [k|] eqn:E.
    + apply lastIndexOfI_split in E as [A [T [B [-> [_ [LT [HT HB]]]]]]]; [|discriminate].
      change (length (lit "</script>")) with 9 in LT.
      rewrite (injectGameMode_at A T B HT LT HB).
      destruct spliceBlock_cons as [blk' Eb].
      apply (absent_after_splice t A T B (lit "</script>") spliceBlock blk'
               HT LT t_line Eb t_block H).
    + assert (includesI true html (lit "</script>") = false) as H'
        by (rewrite includesI_lastIndexOfI, E; reflexivity).
      rewrite (injectGameMode_append html H').
      apply (absent_app t html newScriptElement
               (lit "script type=" ++ dquote ++ lit "module" ++ dquote ++ lit ">"
                  ++ gameScript ++ lit "</script>") 60%N H t_element eq_refl t_tail).
Qed.

(** The style block put before the first occurrence of the tag and the
    controller injection can be done in either order. *)
Lemma spliceFirst_injectGameMode html :
  includesI true html t = true ->
  spliceFirst t (injectGameMode html) = injectGameMode (spliceFirst t html).
Proof.
  intros H. rewrite includesI_indexOfI in H.
  destruct (indexOfI true t html) as [k1|] eqn:E1; [clear H|discriminate].
  apply indexOfI_windows in E1 as [A1 [T1 [B1 [Eh [_ [LT1 [HT1 HA1]]]]]]].
  destruct cssToInject_cons as [css' Ecss].
  destruct (lastIndexOfI true (lit "</script>") html) as [k2|] eqn:E2.
  - apply lastIndexOfI_split in E2 as [A [T2 [B2 [Eh2 [_ [LT2 [HT2 HB2]]]]]]]; [|discriminate].
    change (length (lit "</script>")) with 9 in LT2.
    destruct spliceBlock_cons as [blk' Eb].
    assert (startsWithI true t (skipn (length A1) html) = true) as O1.
    { rewrite Eh, skipn_app_exact. apply startsWithI_app_r. exact HT1. }
    assert (startsWithI true (lit "</script>") (skipn (length A) html) = true) as O2.
    { rewrite Eh2, skipn_app_exact. apply startsWithI_app_r. exact HT2. }
    destruct (occurrences_disjoint true t _ html (length A1) (length A) t_clash O1 O2)
      as [D|D].
    + (* the tag stands before the last closing script tag *)
      assert (length (A1 ++ T1) <= length A) as LA by (rewrite length_app; lia).
      assert ((A1 ++ T1) ++ B1 = A ++ T2 ++ B2) as EE
        by (rewrite <- app_assoc, <- Eh; exact Eh2).
      destruct (app_prefix_split _ _ _ _ EE LA) as [M [EA EB]].
      clear O1 O2 EE Eh2. subst A B1 html.
      rewrite (spliceFirst_at t A1 T1 _ HT1 LT1 HA1).
      replace (A1 ++ T1 ++ M ++ T2 ++ B2) with ((A1 ++ T1 ++ M) ++ T2 ++ B2)
        by (rewrite <- !app_assoc; reflexivity).
      rewrite (injectGameMode_at _ T2 B2 HT2 LT2 HB2).
      replace (A1 ++ cssToInject ++ t ++ M ++ T2 ++ B2)
        with ((A1 ++ cssToInject ++ t ++ M) ++ T2 ++ B2)
        by (rewrite <- !app_assoc; reflexivity).
      rewrite (injectGameMode_at _ T2 B2 HT2 LT2 HB2).
      rewrite <- !app_assoc.
      apply (spliceFirst_at t A1 T1 _ HT1 LT1).
      intros j Hj. pose proof (HA1 j Hj) as F.
      rewrite skipn_app_le in F by lia. rewrite skipn_app_le by lia.
      rewrite app_assoc, startsWithI_app_long in F by (rewrite length_app; lia).
      rewrite app_assoc, startsWithI_app_long by (rewrite length_app; lia).
      exact F.
    + (* the tag stands after the last closing script tag *)
      change (length (lit "</script>")) with 9 in D.
      assert (length (A ++ T2) <= length A1) as LA by (rewrite length_app; lia).
      assert ((A ++ T2) ++ B2 = A1 ++ T1 ++ B1) as EE
        by (rewrite <- app_assoc, <- Eh2; exact Eh).
      destruct (app_prefix_split _ _ _ _ EE LA) as [M [EA EB]].
      clear O1 O2 EE Eh. subst A1 B2 html.
      assert (forall q, q < length A + (9 + length M) ->
              startsWithI true t (skipn q (A ++ T2 ++ M ++ T1 ++ B1)) = false) as HA.
      { intros q Hq. pose proof (HA1 q ltac:(rewrite !length_app; lia)) as F.
        rewrite <- !app_assoc in F. exact F. }
      assert (spliceFirst t (A ++ T2 ++ M ++ T1 ++ B1) =
              A ++ T2 ++ M ++ cssToInject ++ t ++ B1) as ->.
      { pose proof (spliceFirst_at t ((A ++ T2) ++ M) T1 B1 HT1 LT1 HA1) as P.
        rewrite <- !app_assoc in P. exact P. }
      rewrite (injectGameMode_at A T2 _ HT2 LT2 HB2).
      rewrite (injectGameMode_at A T2 (M ++ cssToInject ++ t ++ B1) HT2 LT2).
      2:{ apply (absent_after_splice (lit "</script>") M T1 B1 t cssToInject css'
                   HT1 LT1 eq_refl Ecss t_style HB2). }
      replace (A ++ spliceBlock ++ lit "</script>" ++ M ++ T1 ++ B1)
        with ((A ++ spliceBlock ++ lit "</script>" ++ M) ++ T1 ++ B1)
        by (rewrite <- !app_assoc; reflexivity).
      rewrite (spliceFirst_at t _ T1 B1 HT1 LT1); [rewrite <- !app_assoc; reflexivity|].
      intros j Hj. rewrite <- !app_assoc.
      apply (windows_after_splice t A T2 (M ++ T1 ++ B1) (lit "</script>") spliceBlock blk'
               (9 + length M) HT2 LT2 t_line Eb t_block HA).
      rewrite !length_app in Hj. change (length (lit "</script>")) with 9 in Hj. lia.
  - assert (includesI true html (lit "</script>") = false) as H'
      by (rewrite includesI_lastIndexOfI, E2; reflexivity).
    rewrite (injectGameMode_append html H'). subst html.
    rewrite (spliceFirst_at t A1 T1 B1 HT1 LT1 HA1).
    rewrite <- !app_assoc.
    rewrite (spliceFirst_at t A1 T1 (B1 ++ newScriptElement) HT1 LT1).
    2:{ intros j Hj. pose proof (HA1 j Hj) as F.
        rewrite skipn_app_le in F by lia. rewrite skipn_app_le by lia.
        rewrite app_assoc, startsWithI_app_long in F by (rewrite length_app; lia).
        rewrite app_assoc, startsWithI_app_long by (rewrite length_app; lia).
        exact F. }
    pose proof (absent_after_splice (lit "</script>") A1 T1 B1 t cssToInject css'
                  HT1 LT1 eq_refl Ecss t_style H') as H2.
    rewrite (injectGameMode_append _ H2). rewrite <- !app_assoc. reflexivity.
Qed.

End Tag.

Lemma head_tag :
  length (lit "</head>") = 7 /\
  existsb (fun x => (canonicalize true x =? canonicalize true 60)%N) (tl (lit "</head>")) = false /\
  existsb (fun x => (canonicalize true x =? canonicalize true 10)%N) (lit "</head>") = false /\
  clashFree (lit "</head>") (lit "</script>") = true /\
  allMismatch (lit "</head>") (spliceBlock ++ lit "</script>") (length spliceBlock) = true /\
  allMismatch (lit "</script>") (cssToInject ++ lit "</head>") (length cssToInject) = true /\
  includesI true newScriptElement (lit "</head>") = false.
Proof. repeat split; vm_compute; reflexivity. Qed.

Lemma body_tag :
  length (lit "</body>") = 7 /\
  existsb (fun x => (canonicalize true x =? canonicalize true 60)%N) (tl (lit "</body>")) = false /\
  existsb (fun x => (canonicalize true x =? canonicalize true 10)%N) (lit "</body>") = false /\
  clashFree (lit "</body>") (lit "</script>") = true /\
  allMismatch (lit "</body>") (spliceBlock ++ lit "</script>") (length spliceBlock) = true /\
  allMismatch (lit "</script>") (cssToInject ++ lit "</body>") (length cssToInject) = true /\
  includesI true newScriptElement (lit "</body>") = false.
Proof. repeat split; vm_compute; reflexivity. Qed.

Lemma script_after_style (B : str) :
  includesI true B (lit "</script>") = false ->
  includesI true (B ++ cssToInject) (lit "</script>") = false.
Proof.
  intros H. destruct cssToInject_cons as [css' E].
  apply (absent_app (lit "</script>") B cssToInject css' 10%N H); [|exact E|].
  - vm_compute. reflexivity.
  - vm_compute. reflexivity.
Qed.

Lemma hideBodyText_injectGameMode_iff html :
  hideBodyText (injectGameMode html) = injectGameMode (hideBodyText html) <->
  includesI true html (lit "</head>") || includesI true html (lit "</body>")
    || includesI true html (lit "</script>") = true.
Proof.
  destruct head_tag as [h1 [h2 [h3 [h4 [h5 [h6 h7]]]]]].
  destruct body_tag as [b1 [b2 [b3 [b4 [b5 [b6 b7]]]]]].
  rewrite (hideBodyText_cases (injectGameMode html)), (hideBodyText_cases html).
  rewrite (injectGameMode_presence (lit "</head>") h2 h3 h4 h5 h7 html).
  rewrite (injectGameMode_presence (lit "</body>") b2 b3 b4 b5 b7 html).
  destruct (includesI true html (lit "</head>")) eqn:Hh.
  { split; [reflexivity|]. intros _.
    apply (spliceFirst_injectGameMode (lit "</head>") h1 h3 h4 h5 h6 html Hh). }
  destruct (includesI true html (lit "</body>")) eqn:Hb.
  { split; [reflexivity|]. intros _.
    apply (spliceFirst_injectGameMode (lit "</body>") b1 b3 b4 b5 b6 html Hb). }
  cbn [orb].
  destruct (lastIndexOfI true (lit "</script>") html) as [k|] eqn:E.
  - assert (includesI true html (lit "</script>") = true) as ->
      by (rewrite includesI_lastIndexOfI, E; reflexivity).
    split; [reflexivity|]. intros _.
    apply lastIndexOfI_split in E as [A [T [B [-> [_ [LT [HT HB]]]]]]]; [|discriminate].
    change (length (lit "</script>")) with 9 in LT.
    rewrite (injectGameMode_at A T B HT LT HB).
    replace ((A ++ T ++ B) ++ cssToInject) with (A ++ T ++ B ++ cssToInject)
      by (rewrite <- !app_assoc; reflexivity).
    rewrite (injectGameMode_at A T _ HT LT (script_after_style B HB)).
    rewrite <- !app_assoc. reflexivity.
  - assert (includesI true html (lit "</script>") = false) as Hs
      by (rewrite includesI_lastIndexOfI, E; reflexivity).
    rewrite Hs. split; [|discriminate]. intros H. exfalso.
    rewrite (injectGameMode_append html Hs) in H.
    rewrite (injectGameMode_append _ (script_after_style html Hs)) in H.
    rewrite <- !app_assoc in H. apply app_inv_head in H.
    destruct cssToInject_cons as [css' Ec]. rewrite Ec in H.
    unfold newScriptElement in H. discriminate.
Qed.

(** X14: the style injection and the controller injection commute
    exactly on the documents that have a closing head, body or script
    tag (in any letter case); on a document with none of them the order
    matters: [hideBodyText] after [injectGameMode] puts the style block
    behind the new script element, the other order puts it in front. *)
Theorem hideBodyText_injectGameMode_order (html : str) :
  (hideBodyText (injectGameMode html) = injectGameMode (hideBodyText html) <->
   includesI true html (lit "</head>") || includesI true html (lit "</body>")
     || includesI true html (lit "</script>") = true) /\
  (includesI true html (lit "</head>") || includesI true html (lit "</body>")
     || includesI true html (lit "</script>") = false ->
   hideBodyText (injectGameMode html) = html ++ newScriptElement ++ cssToInject /\
   injectGameMode (hideBodyText html) = html ++ cssToInject ++ newScriptElement).
Proof.
  split; [apply hideBodyText_injectGameMode_iff|].
  intros H. apply orb_false_iff in H as [H Hs]. apply orb_false_iff in H as [Hh Hb].
  destruct head_tag as [h1 [h2 [h3 [h4 [h5 [h6 h7]]]]]].
  destruct body_tag as [b1 [b2 [b3 [b4 [b5 [b6 b7]]]]]].
  split.
  - rewrite hideBodyText_plain_at.
    + rewrite (injectGameMode_append html Hs), <- app_assoc. reflexivity.
    + rewrite (injectGameMode_presence (lit "</head>") h2 h3 h4 h5 h7 html). exact Hh.
    + rewrite (injectGameMode_presence (lit "</body>") b2 b3 b4 b5 b7 html). exact Hb.
  - rewrite (hideBodyText_plain_at html Hh Hb).
    rewrite (injectGameMode_append _ (script_after_style html Hs)), <- app_assoc.
    reflexivity.
Qed.

Lemma hideBodyText_injectGameMode_order_witness :
  hideBodyText (injectGameMode (lit "<p>scene</p>")) =
    lit "<p>scene</p>" ++ newScriptElement ++ cssToInject /\
  injectGameMode (hideBodyText (lit "<p>scene</p>")) =
    lit "<p>scene</p>" ++ cssToInject ++ newScriptElement.
Proof.
  apply (hideBodyText_injectGameMode_order (lit "<p>scene</p>")).
  vm_compute. reflexivity.
Defined.

(** ** A blank response *)

Lemma space_notLt c : isWhiteSpace c = true -> notLt c = true.
Proof.
  intros H. unfold notLt. destruct (N.eqb_spec c 60) as [->|]; [|reflexivity].
  vm_compute in H. discriminate.
Qed.

Lemma blank_no_tag n' (s : str) :
  forallb isWhiteSpace s = true -> includesI true s (60%N :: n') = false.
Proof.
  intros H. apply includesI_windows. intros j.
  pose proof (forallb_skipn isWhiteSpace s j H) as Hj.
  destruct (skipn j s) as [|y t]; [reflexivity|].
  cbn [forallb] in Hj. apply andb_true_iff in Hj as [Hy _].
  apply startsWithI_lt_head. apply space_notLt. exact Hy.
Qed.

Lemma blank_no_fence (s : str) :
  forallb isWhiteSpace s = true -> includes s (lit "```") = false.
Proof.
  intros H. rewrite <- includesI_false_exact. apply includesI_windows. intros j.
  pose proof (forallb_skipn isWhiteSpace s j H) as Hj.
  destruct (skipn j s) as [|y t]; [reflexivity|].
  cbn [forallb] in Hj. apply andb_true_iff in Hj as [Hy _].
  apply fence_not_space. exact Hy.
Qed.

Lemma trimStart_blank (s : str) : forallb isWhiteSpace s = true -> trimStart s = [].
Proof.
  induction s as [|c t IH]; [reflexivity|]. cbn [forallb trimStart]. intros H.
  apply andb_true_iff in H as [-> H]. apply IH. exact H.
Qed.

Lemma extract_spec_blank (s : str) : forallb isWhiteSpace s = true -> extract_spec s = [].
Proof.
  intros H. rewrite extract_spec_plain.
  - unfold trim. rewrite (trimStart_blank s H). reflexivity.
  - apply (blank_no_tag (lit "!DOCTYPE html>") s H).
  - apply (blank_no_tag (lit "html") s H).
  - apply blank_no_fence. exact H.
Qed.

Lemma empty_document_staged factor :
  injectGameMode (zoomCamera (hideBodyText []) factor) = cssToInject ++ newScriptElement.
Proof.
  assert (hideBodyText [] = cssToInject) as -> by (vm_compute; reflexivity).
  rewrite (zoomCamera_no_paren cssToInject factor cssToInject_no_paren).
  apply injectGameMode_append. vm_compute. reflexivity.
Qed.

(** X16: a response made of white space only is extracted to the empty
    string, and the four stages then give a document made of the style
    block and the new script element alone, whatever the factor. *)
Theorem blank_response (text : str) (factor : number) :
  forallb isWhiteSpace text = true ->
  extractHtmlFromText text = Return [] /\
  pipeline text factor = Return (cssToInject ++ newScriptElement).
Proof.
  intros H. pose proof (extractHtmlFromText_spec text) as E.
  rewrite (extract_spec_blank text H) in E. split; [exact E|].
  unfold pipeline. rewrite E. rewrite empty_document_staged. reflexivity.
Qed.

Lemma blank_response_witness :
  extractHtmlFromText (lit "  " ++ newline) = Return [] /\
  pipeline (lit "  " ++ newline) defaultZoomFactor = Return (cssToInject ++ newScriptElement).
Proof.
  apply (blank_response (lit "  " ++ newline) defaultZoomFactor).
  vm_compute. reflexivity.
Defined.

(** * Properties of the sound service *)

Import Audio.

Lemma soundInvariant_sounds : soundInvariant sounds.
Proof.
  unfold soundInvariant, sounds. cbn.
  split; [reflexivity|]. split; [reflexivity|]. split; [auto|]. split; [discriminate|reflexivity].
Qed.

Lemma soundInvariant_invoke host m w :
  soundInvariant w -> soundInvariant (snd (invoke host m w)).
Proof.
  destruct w as [[c mu p] nn rr cl].
  unfold soundInvariant, running, started, stopped, modulator, humming, contexts.
  cbn [service isMuted processingNode calls nodes ctx].
  intros [Hm [Hr [Hf [Hh Hc]]]].
  destruct m as [mute| | | | |]; run_sound.
  - destruct p as [q|], mute, mu; run_sound;
      try (destruct c; run_sound; destruct (suspended host rr); run_sound);
      try (specialize (Hm eq_refl); discriminate).
    all: sound_step Hm Hr Hf Hh Hc nn.
  - destruct mu; run_sound; [sound_step Hm Hr Hf Hh Hc nn|].
    destruct p as [q|], c; run_sound; destruct (suspended host rr); run_sound.
    all: sound_step Hm Hr Hf Hh Hc nn.
  - destruct mu; run_sound; [sound_step Hm Hr Hf Hh Hc nn|].
    destruct p as [q|], c; run_sound; destruct (suspended host rr); run_sound.
    all: sound_step Hm Hr Hf Hh Hc nn.
  - destruct mu; run_sound; [sound_step Hm Hr Hf Hh Hc nn|].
    destruct p as [q|], c; run_sound; destruct (suspended host rr); run_sound.
    all: sound_step Hm Hr Hf Hh Hc nn.
  - destruct mu, p as [q|]; run_sound; try (sound_step Hm Hr Hf Hh Hc nn; fail).
    destruct c; run_sound; destruct (suspended host rr); run_sound.
    all: sound_step Hm Hr Hf Hh Hc nn.
  - destruct p as [q|]; run_sound; [|sound_step Hm Hr Hf Hh Hc nn].
    destruct c; run_sound; destruct (suspended host rr); run_sound.
    all: sound_step Hm Hr Hf Hh Hc nn.
Qed.

Lemma invokeAll_cons host m rest w :
  snd (invokeAll host (m :: rest) w) = snd (invokeAll host rest (snd (invoke host m w))).
Proof.
  cbn [invokeAll]. unfold bind. destruct (invoke host m w) as [a w']. reflexivity.
Qed.

Lemma invokeAll_app host ms1 : forall ms2 w,
  snd (invokeAll host (ms1 ++ ms2) w) = snd (invokeAll host ms2 (snd (invokeAll host ms1 w))).
Proof.
  induction ms1 as [|m rest IH]; intros ms2 w; [reflexivity|].
  cbn [app]. rewrite !invokeAll_cons. apply IH.
Qed.

Lemma soundInvariant_invokeAll host ms : forall w,
  soundInvariant w -> soundInvariant (snd (invokeAll host ms w)).
Proof.
  induction ms as [|m rest IH]; intros w H; [exact H|].
  rewrite invokeAll_cons. apply IH. apply soundInvariant_invoke. exact H.
Qed.

Lemma soundInvariant_afterCalls host ms : soundInvariant (afterCalls host ms).
Proof. apply soundInvariant_invokeAll. exact soundInvariant_sounds. Qed.

Lemma muted_invoke host m w :
  soundInvariant w -> isMuted (service w) = true -> m <> call_setMute false ->
  invoke host m w = (tt, w).
Proof.
  destruct w as [[c mu p] nn rr cl]. intros [Hm _]. cbn [service isMuted processingNode] in *.
  intros ->. rewrite (Hm eq_refl). intros Hne.
  destruct m as [[|]| | | | |]; try reflexivity. congruence.
Qed.

(** X10: while the service is muted it has no hum, and every method
    other than [setMute(false)] returns without a call on the audio
    interface and without a change of the service: no sound, no context
    creation, whatever was called before. *)
Theorem muted_service_is_silent (host : Host) (ms : list Method) :
  isMuted (service (afterCalls host ms)) = true ->
  processingNode (service (afterCalls host ms)) = None /\
  forall host' m, m <> call_setMute false ->
    invoke host' m (afterCalls host ms) = (tt, afterCalls host ms).
Proof.
  intros H. pose proof (soundInvariant_afterCalls host ms) as I. split.
  - destruct I as [Hm _]. apply Hm. exact H.
  - intros host' m Hne. apply muted_invoke; assumption.
Qed.

Lemma muted_service_is_silent_witness :
  invoke (mkHost (fun _ => false) (fun _ => S754_zero false)) call_playClick
    (afterCalls (mkHost (fun _ => true) (fun _ => S754_zero false))
                [call_startProcessing; call_setMute true]) =
  (tt, afterCalls (mkHost (fun _ => true) (fun _ => S754_zero false))
                  [call_startProcessing; call_setMute true]).
Proof.
  apply (proj2 (muted_service_is_silent
                  (mkHost (fun _ => true) (fun _ => S754_zero false))
                  [call_startProcessing; call_setMute true] eq_refl)).
  discriminate.
Defined.

(** X11: the service creates its audio context at most once: after any
    sequence of calls the record holds exactly one context creation if
    the field [ctx] is set and none otherwise. *)
Theorem context_created_once (host : Host) (ms : list Method) :
  contexts (calls (afterCalls host ms)) =
  (if ctx (service (afterCalls host ms)) then 1 else 0).
Proof. apply (soundInvariant_afterCalls host ms). Qed.

(** X12: after any sequence of calls the oscillators that were started
    and never scheduled to stop are exactly the modulators of
    [startProcessing] and the current hum [processingNode]; so every
    tone of [playClick], [playSuccess] and [playError] has its stop
    scheduled. *)
Theorem running_oscillators (host : Host) (ms : list Method) (n : node) :
  running n (calls (afterCalls host ms)) =
  modulator n (calls (afterCalls host ms)) || humming n (afterCalls host ms).
Proof.
  destruct (soundInvariant_afterCalls host ms) as [_ [Hr _]]. apply Hr.
Qed.

Lemma modulator_invoke host m w n :
  modulator n (calls w) = true -> modulator n (calls (snd (invoke host m w))) = true.
Proof.
  destruct w as [[c mu p] nn rr cl]. unfold modulator. cbn [calls]. intros H.
  destruct m as [mute| | | | |]; run_sound;
    destruct mu; try destruct mute; destruct p as [q|]; run_sound; try exact H;
    destruct c; run_sound; destruct (suspended host rr); run_sound;
    cbn [existsb orb]; rewrite ?H, ?orb_true_r; reflexivity.
Qed.

Lemma modulator_invokeAll host ms n : forall w,
  modulator n (calls w) = true -> modulator n (calls (snd (invokeAll host ms w))) = true.
Proof.
  induction ms as [|m rest IH]; intros w H; [exact H|].
  rewrite invokeAll_cons. apply IH. apply modulator_invoke. exact H.
Qed.

(** X13: a modulator, once started by [startProcessing], runs for ever:
    whatever methods are called afterwards, stopping the hum and muting
    included, no stop is scheduled for it. *)
Theorem modulator_never_stops (host : Host) (ms1 ms2 : list Method) (n : node) :
  modulator n (calls (afterCalls host ms1)) = true ->
  running n (calls (afterCalls host (ms1 ++ ms2))) = true.
Proof.
  intros H. destruct (soundInvariant_afterCalls host (ms1 ++ ms2)) as [_ [Hr _]].
  rewrite Hr. unfold afterCalls in *. rewrite invokeAll_app.
  rewrite (modulator_invokeAll host ms2 n _ H). reflexivity.
Qed.

Lemma modulator_never_stops_witness :
  running 2 (calls (afterCalls (mkHost (fun _ => false) (fun _ => S754_zero false))
                               ([call_startProcessing]
                                  ++ [call_stopProcessing; call_setMute true]))) = true.
Proof.
  apply (modulator_never_stops (mkHost (fun _ => false) (fun _ => S754_zero false))
           [call_startProcessing] [call_stopProcessing; call_setMute true] 2).
  reflexivity.
Defined.

Lemma setMute_true_stops host w :
  processingNode (service (snd (invoke host (call_setMute true) w))) = None.
Proof.
  destruct w as [[c mu p] nn rr cl]. run_sound.
  destruct p as [q|]; run_sound; [|reflexivity].
  destruct c; run_sound; destruct (suspended host rr); reflexivity.
Qed.

Lemma no_hum_invoke host m w :
  processingNode (service w) = None -> isStartProcessing m = false ->
  processingNode (service (snd (invoke host m w))) = None.
Proof.
  destruct w as [[c mu p] nn rr cl]. cbn [service processingNode]. intros -> Hm.
  destruct m as [mute| | | | |]; try discriminate; run_sound; try reflexivity;
    destruct mu; run_sound; try reflexivity;
    destruct c; run_sound; destruct (suspended host rr); reflexivity.
Qed.

Lemma no_hum_invokeAll host ms : forall w,
  processingNode (service w) = None -> forallb (fun m => negb (isStartProcessing m)) ms = true ->
  processingNode (service (snd (invokeAll host ms w))) = None.
Proof.
  induction ms as [|m rest IH]; intros w H Hms; [exact H|].
  cbn [forallb] in Hms. apply andb_true_iff in Hms as [Hm Hrest].
  apply negb_true_iff in Hm.
  rewrite invokeAll_cons. apply IH; [|exact Hrest]. apply no_hum_invoke; assumption.
Qed.

(** X15: muting ends the hum for good: after [setMute(true)] there is no
    hum until [startProcessing] is called again, whatever else is called
    in between; in particular [setMute(false)] does not bring the hum
    back. *)
Theorem hum_lost_on_mute (host : Host) (ms1 ms2 : list Method) :
  forallb (fun m => negb (isStartProcessing m)) ms2 = true ->
  processingNode (service (afterCalls host (ms1 ++ call_setMute true :: ms2))) = None.
Proof.
  intros H. unfold afterCalls. rewrite invokeAll_app, invokeAll_cons.
  apply no_hum_invokeAll; [apply setMute_true_stops|exact H].
Qed.

Lemma hum_lost_on_mute_witness :
  processingNode
    (service (afterCalls (mkHost (fun _ => false) (fun _ => S754_zero false))
                ([call_startProcessing]
                   ++ call_setMute true :: [call_setMute false; call_playClick]))) = None.
Proof.
  apply (hum_lost_on_mute (mkHost (fun _ => false) (fun _ => S754_zero false))
           [call_startProcessing] [call_setMute false; call_playClick]).
  reflexivity.
Defined.
